(** * Thumbworx dispatch service: a shallow embedding of [app.py]

    The service keeps three module-level stores ([drivers], [deliveries],
    [geofences]) and an activity log, and exposes the helpers
    [suggest_route], [assign_driver], [cluster_deliveries] and
    [check_geofence] together with the endpoints [add_delivery],
    [assign_all] and [add_driver].  The repository also holds
    [tempCodeRunnerFile.py], an earlier copy of the program whose
    [suggest_route] differs; it is embedded in module [TempCodeRunnerFile].

    Conventions of the embedding.
    - Python [int] is [Z]; Python [float] is a rational [Q], compared with
      [==].  Sums, scores and the geometry of the geofences are computed
      exactly.  The quotient that [round] reads is rounded to binary64
      ([Py.float64], [Py.truediv]), because the digit that [round] keeps
      depends on it: [round(75 / 500, 1)] is 0.1, the float of 0.15 lying
      below 0.15.
    - A Python exception is the left injection of [result]; a function that
      mutates the stores takes and returns them.
    - Calls into third-party packages, whose code is not part of the
      repository, are parameters of a section: [haversine],
      [nearest_nodes], [shortest_path], [shortest_path_length],
      [KMeans_fit].  Two calls are written out instead, because properties
      of the program depend on what they compute: the point-in-polygon test
      of [shapely] (module [Shapely]) and
      [ox.utils_graph.get_route_edge_attributes].
    - [datetime.utcnow()] stamps are left out of records and log lines, and
      the rendering of the map in [assign_all] is left out: nothing in the
      program reads them back.  What [assign_all] returns in the model is
      the list [response] built by its loop, before rendering.
    - The requests store coordinates without checking them.  The stores
      of the main development hold numbers that the library calls accept;
      module [Unvalidated] embeds intake and the assignment loop over the
      coordinates as the requests deliver them, with library calls that
      can raise, and section [Agreement] shows that the two coincide on
      stores of numbers. *)

From Stdlib Require Import ZArith QArith Qround Qabs Qminmax List FinFun String Bool
  Lia Lqa Permutation.
Import ListNotations.

Set Implicit Arguments.

Local Open Scope Z_scope.

(** ** Exceptions and fallible computations *)

Inductive exn : Type :=
| ValueError
| KeyError
| IndexError
| AttributeError
| NetworkXNoPath
| NodeNotFound
| ImportError
| TypeError.

Definition result (A : Type) : Type := (exn + A)%type.

Definition ret {A : Type} (a : A) : result A := inr a.

Definition raise {A : Type} (e : exn) : result A := inl e.

Definition bind {A B : Type} (m : result A) (k : A -> result B) : result B :=
  match m with
  | inl e => inl e
  | inr a => k a
  end.

Notation "x <- m ;; k" := (bind m (fun x => k))
  (at level 61, m at next level, right associativity).

Fixpoint mapM {A B : Type} (f : A -> result B) (l : list A) : result (list B) :=
  match l with
  | [] => ret []
  | a :: r => b <- f a ;; bs <- mapM f r ;; ret (b :: bs)
  end.

Definition raises {A : Type} (m : result A) : Prop := exists e, m = inl e.

(** ** Python built-ins used by the program *)

Module Py.

(** [min(iterable, key=...)]: the first element whose key is not exceeded
    by any key before it and is strictly below none after it, that is, the
    first minimal element in iteration order; [ValueError] on an empty
    iterable.  [min_from] carries the position of the current best. *)
Fixpoint min_from {A : Type} (key : A -> Q) (bi : nat) (best : A)
    (i : nat) (l : list A) : nat * A :=
  match l with
  | [] => (bi, best)
  | x :: r =>
      if Qlt_le_dec (key x) (key best)
      then min_from key i x (S i) r
      else min_from key bi best (S i) r
  end.

Definition min_by {A : Type} (key : A -> Q) (l : list A) : result (nat * A) :=
  match l with
  | [] => raise ValueError
  | x :: r => ret (min_from key 0%nat x 1%nat r)
  end.

(** [sum] of a list of numbers. *)
Definition sum (l : list Q) : Q := fold_left Qplus l 0%Q.

(** To the nearest integer, a tie going to the even neighbour. *)
Definition round_half_even (q : Q) : Z :=
  let f := Qfloor q in
  match Qcompare (q - inject_Z f) (1 # 2) with
  | Lt => f
  | Gt => f + 1
  | Eq => if Z.even f then f else f + 1
  end.

(** Binary64, the format of [float]: [float64 x] is the float nearest to
    [x], a tie going to the even significand.  The significand has 53 bits
    from exponent -1022 on and fewer below (spacing [2 ^ -1074]); values
    beyond the largest float, which would overflow, are outside the
    model. *)
Definition pow2 (e : Z) : Q :=
  if 0 <=? e then inject_Z (2 ^ e) else 1 # Z.to_pos (2 ^ (- e)).

(** The exponent [k] with [2 ^ k <= a < 2 ^ (k + 1)], for [0 < a]. *)
Definition exponent (a : Q) : Z :=
  let k := Z.log2 (Qnum a) - Z.log2 (Zpos (Qden a)) in
  if Qle_bool (pow2 k) a then k else k - 1.

Definition float64 (x : Q) : Q :=
  let q := Qred x in
  let a := Qabs q in
  let e := Z.max (exponent a - 52) (-1074) in
  let m := round_half_even (a / pow2 e) in
  Qred (inject_Z (Z.sgn (Qnum q) * m) * pow2 e).

(** [a / b] on floats. *)
Definition truediv (a b : Q) : Q := float64 (float64 a / float64 b).

(** [round(x, 1)] for the float of value [x]: the decimal with one digit
    after the point nearest to that value, a tie going to the even digit.
    The result stands for the float nearest to it, which is the one [round]
    returns. *)
Definition round1 (x : Q) : Q :=
  (inject_Z (round_half_even (x * 10)) / 10)%Q.

(** Truth value of an [int]-or-[None] and of a [str]-or-[None]. *)
Definition truthy_int (v : option Z) : bool :=
  match v with
  | None => false
  | Some n => negb (n =? 0)
  end.

Definition truthy_str (v : option string) : bool :=
  match v with
  | None => false
  | Some s => negb (String.eqb s EmptyString)
  end.

End Py.

(** ** Data stores *)

Definition coord : Type := (Q * Q)%type.

Record Driver : Type := mkDriver {
  d_id : Z;
  imei : string;
  driver : string;
  d_lat : Q;
  d_lon : Q;
  current_load : Z
}.

Record Delivery : Type := mkDelivery {
  id : Z;
  lat : Q;
  lon : Q;
  address : string;
  assigned_driver : option Z;
  eta_min : option Q;
  route_coords : option (list coord)
}.

Record Geofence : Type := mkGeofence {
  g_id : Z;
  name : string;
  polygon : list coord
}.

(** Lines written by [log_activity]. *)
Inductive log_entry : Type :=
| LogAssigned (delivery_id : Z) (driver_name : string)
| LogNewDelivery (delivery_id : Z) (la lo : Q)
| LogGeofenceSkip (delivery_id : Z)
| LogAddedDriver (driver_name : string).

Record state : Type := mkState {
  drivers : list Driver;
  deliveries : list Delivery;
  geofences : list Geofence;
  activity_log : list log_entry
}.

Definition initial_drivers : list Driver :=
  [ mkDriver 1 "123456789012345" "Alice" 14.5547 121.0244 1;
    mkDriver 2 "234567890123456" "Bob" 14.5550 121.0300 2;
    mkDriver 3 "345678901234567" "Charlie" 14.5600 121.0200 0 ].

Definition initial_geofences : list Geofence :=
  [ mkGeofence 1 "No-Go Zone Makati"
      [ (14.555, 121.023); (14.556, 121.023);
        (14.556, 121.025); (14.555, 121.025) ]%Q ].

Definition initial_state : state :=
  mkState initial_drivers [] initial_geofences [].

(** ** Point-in-polygon test of [shapely]

    [check_geofence] builds [Point(lat, lon)] and [Polygon(gf['polygon'])]
    and asks [poly.contains(point)].  The code of the package is not under
    [src/]; the module below stands for it. *)

Module Shapely.

Local Open Scope Q_scope.

Definition Point (x y : Q) : coord := (x, y).

Definition Qlt_bool (x y : Q) : bool := negb (Qle_bool y x).

Definition coord_eq_dec (a b : coord) :
  {fst a == fst b /\ snd a == snd b} + {~ (fst a == fst b /\ snd a == snd b)}.
Proof.
  destruct (Qeq_dec (fst a) (fst b)); [|right; tauto].
  destruct (Qeq_dec (snd a) (snd b)); [left|right]; tauto.
Defined.

(** A ring repeats its first coordinate at the end. *)
Definition close_ring (cs : list coord) : list coord :=
  match cs with
  | [] => []
  | c :: _ => if coord_eq_dec c (last cs c) then cs else cs ++ [c]
  end.

(** [Polygon(shell)]: an empty shell gives the empty polygon; otherwise
    the shell is closed, and a ring of fewer than four coordinates is
    rejected. *)
Definition Polygon (shell : list coord) : result (list coord) :=
  match shell with
  | [] => ret []
  | _ =>
      let ring := close_ring shell in
      if (List.length ring <? 4)%nat then raise ValueError else ret ring
  end.

(** Consecutive coordinates of a ring. *)
Fixpoint segments (ring : list coord) : list (coord * coord) :=
  match ring with
  | a :: (b :: _) as r => (a, b) :: segments r
  | _ => []
  end.

Inductive Location : Type := INTERIOR | BOUNDARY | EXTERIOR.

(** Side of [q] relative to the directed line [p1 -> p2]: [Gt] when [q] is
    to the left (counter-clockwise), [Lt] to the right, [Eq] collinear. *)
Definition orientation_index (p1 p2 q : coord) : comparison :=
  ((fst p2 - fst p1) * (snd q - snd p1)
   - (snd p2 - snd p1) * (fst q - fst p1)) ?= 0.

Record RayCrossingCounter : Type := mkCounter {
  isPointOnSegment : bool;
  crossingCount : nat
}.

Definition on_segment_seen (c : RayCrossingCounter) : RayCrossingCounter :=
  mkCounter true (crossingCount c).

(** Modelled from the spec: section 4.3 describes the membership test as
    ray casting over the vertex sequence treated as closed and leaves the
    rule for points of an edge to the implementation.  [countSegment]
    handles one segment of the ring for the horizontal ray that leaves the
    test point to the right: it counts a crossing, and it records when the
    point lies on the segment, which is how the geometry engine of the
    package tells boundary from interior. *)
Definition countSegment (p : coord) (c : RayCrossingCounter)
    (seg : coord * coord) : RayCrossingCounter :=
  let '(p1, p2) := seg in
  (* the segment is strictly to the left of the test point *)
  if Qlt_bool (fst p1) (fst p) && Qlt_bool (fst p2) (fst p) then c
  (* the point is the end vertex of the segment *)
  else if Qeq_bool (fst p) (fst p2) && Qeq_bool (snd p) (snd p2)
  then on_segment_seen c
  (* horizontal segment at the height of the point *)
  else if Qeq_bool (snd p1) (snd p) && Qeq_bool (snd p2) (snd p) then
    let minx := if Qlt_bool (fst p2) (fst p1) then fst p2 else fst p1 in
    let maxx := if Qlt_bool (fst p2) (fst p1) then fst p1 else fst p2 in
    if Qle_bool minx (fst p) && Qle_bool (fst p) maxx
    then on_segment_seen c
    else c
  (* the segment crosses the height of the point *)
  else if (Qlt_bool (snd p) (snd p1) && Qle_bool (snd p2) (snd p))
          || (Qlt_bool (snd p) (snd p2) && Qle_bool (snd p1) (snd p))
  then
    match orientation_index p1 p2 p with
    | Eq => on_segment_seen c
    | o =>
        let upward := if Qlt_bool (snd p2) (snd p1) then CompOpp o else o in
        match upward with
        | Gt => mkCounter (isPointOnSegment c) (S (crossingCount c))
        | _ => c
        end
    end
  else c.

(** Modelled from the spec: a point seen on a segment is on the boundary;
    otherwise an odd number of crossings puts it in the interior. *)
Definition locate (ring : list coord) (p : coord) : Location :=
  let c := fold_left (countSegment p) (segments ring) (mkCounter false 0) in
  if isPointOnSegment c then BOUNDARY
  else if Nat.odd (crossingCount c) then INTERIOR
  else EXTERIOR.

(** Modelled from the spec: [poly.contains(point)], documented by the
    package as true when the point lies in the interior of the polygon and
    false on its boundary and outside. *)
Definition contains (ring : list coord) (p : coord) : bool :=
  match locate ring p with
  | INTERIOR => true
  | _ => false
  end.

End Shapely.

(** ** Geofence check *)

(** [poly.contains(point)] for one geofence. *)
Definition geofence_contains (gf : Geofence) (la lo : Q) : result bool :=
  poly <- Shapely.Polygon (polygon gf) ;;
  ret (Shapely.contains poly (Shapely.Point la lo)).

Fixpoint check_geofence (gfs : list Geofence) (la lo : Q)
    : result (option string) :=
  match gfs with
  | [] => ret None
  | gf :: rest =>
      inside <- geofence_contains gf la lo ;;
      if inside then ret (Some (name gf)) else check_geofence rest la lo
  end.

(** ** Road network and routing *)

Definition node : Type := Z.

Record Edge : Type := mkEdge {
  e_u : node;
  e_v : node;
  e_length : Q
}.

(** The [MultiDiGraph] loaded at start-up: every node carries its
    coordinates [y] (latitude) and [x] (longitude); parallel edges between
    the same two nodes are allowed. *)
Record Graph : Type := mkGraph {
  g_nodes : list (node * coord);
  g_edges : list Edge
}.

(** [(G.nodes[n]['y'], G.nodes[n]['x'])]. *)
Fixpoint lookup_node (ns : list (node * coord)) (n : node) : result coord :=
  match ns with
  | [] => raise KeyError
  | (m, yx) :: rest => if m =? n then ret yx else lookup_node rest n
  end.

Definition node_yx (g : Graph) (n : node) : result coord :=
  lookup_node (g_nodes g) n.

(** Lengths of the parallel edges from [u] to [v]. *)
Definition edge_lengths (g : Graph) (u v : node) : list Q :=
  map e_length
    (filter (fun e => (e_u e =? u) && (e_v e =? v)) (g_edges g)).

(** [ox.utils_graph.get_route_edge_attributes(G, route, 'length')]: for
    every pair of consecutive route nodes, the length of the shortest of the
    parallel edges joining them; the lookup of a pair that no edge joins
    fails. *)
Fixpoint get_route_edge_attributes (g : Graph) (route : list node)
    : result (list Q) :=
  match route with
  | u :: (v :: _) as r =>
      data <- match Py.min_by (fun x => x) (edge_lengths g u v) with
              | inl _ => raise AttributeError
              | inr (_, l) => ret l
              end ;;
      rest <- get_route_edge_attributes g r ;;
      ret (data :: rest)
  | _ => ret []
  end.

Section Router.

(** The graph [G] and the two library calls of [suggest_route]. *)
Variable G : Graph.
Variable nearest_nodes : Graph -> Q -> Q -> result node.
Variable shortest_path : Graph -> node -> node -> result (list node).

(** Body of the [try] block.  The sum of the lengths is taken exact; the
    division reads it as the float nearest to it. *)
Definition suggest_route_try (origin destination : coord)
    : result (list coord * Q) :=
  orig_node <- nearest_nodes G (snd origin) (fst origin) ;;
  dest_node <- nearest_nodes G (snd destination) (fst destination) ;;
  nodes <- shortest_path G orig_node dest_node ;;
  coords <- mapM (node_yx G) nodes ;;
  lengths <- get_route_edge_attributes G nodes ;;
  let distance_m := Py.sum lengths in
  let eta_min := Py.truediv distance_m 500 in
  ret (coords, Py.round1 eta_min).

(** The bare [except:] turns every failure into [([], 0)]. *)
Definition suggest_route (origin destination : coord) : list coord * Q :=
  match suggest_route_try origin destination with
  | inl _ => ([], 0%Q)
  | inr r => r
  end.

End Router.

(** [suggest_route] of [tempCodeRunnerFile.py]: the distance is the sum,
    over the nodes of the path, of [nx.shortest_path_length] between the two
    end nodes. *)
Module TempCodeRunnerFile.

Section Router.

Variable G : Graph.
Variable nearest_nodes : Graph -> Q -> Q -> result node.
Variable shortest_path : Graph -> node -> node -> result (list node).
Variable shortest_path_length : Graph -> node -> node -> result Q.

Definition suggest_route_try (origin destination : coord)
    : result (list coord * Q) :=
  orig_node <- nearest_nodes G (snd origin) (fst origin) ;;
  dest_node <- nearest_nodes G (snd destination) (fst destination) ;;
  nodes <- shortest_path G orig_node dest_node ;;
  coords <- mapM (node_yx G) nodes ;;
  terms <- mapM (fun _ => shortest_path_length G orig_node dest_node) nodes ;;
  let distance_m := Py.sum terms in
  let eta_min := Py.truediv distance_m 500 in
  ret (coords, Py.round1 eta_min).

Definition suggest_route (origin destination : coord) : list coord * Q :=
  match suggest_route_try origin destination with
  | inl _ => ([], 0%Q)
  | inr r => r
  end.

End Router.

End TempCodeRunnerFile.

(** ** Clustering *)

Section Clusterer.

(** [KMeans(n_clusters=k, random_state=42).fit(X).labels_]: one label per
    sample, or the exception raised by the estimator. *)
Variable KMeans_fit : nat -> list coord -> result (list nat).

(** [clusters[label].append(x)] on a dict kept in insertion order. *)
Fixpoint append_at (clusters : list (nat * list Delivery)) (label : nat)
    (x : Delivery) : result (list (nat * list Delivery)) :=
  match clusters with
  | [] => raise KeyError
  | (k, members) :: rest =>
      if (k =? label)%nat then ret ((k, members ++ [x]) :: rest)
      else rest' <- append_at rest label x ;; ret ((k, members) :: rest')
  end.

(** The loop over [enumerate(kmeans.labels_)]. *)
Fixpoint fill_clusters (ds : list Delivery)
    (clusters : list (nat * list Delivery)) (idx : nat)
    (labels : list nat) : result (list (nat * list Delivery)) :=
  match labels with
  | [] => ret clusters
  | label :: rest =>
      if existsb (fun c => (fst c =? label)%nat) clusters then
        match nth_error ds idx with
        | None => raise IndexError
        | Some x =>
            clusters' <- append_at clusters label x ;;
            fill_clusters ds clusters' (S idx) rest
        end
      else raise KeyError
  end.

Definition cluster_deliveries (ds : list Delivery) (n_clusters : nat)
    : result (list (nat * list Delivery)) :=
  if (List.length ds <=? 1)%nat then ret [(0%nat, ds)]
  else
    let coords := map (fun d => (lat d, lon d)) ds in
    labels <- KMeans_fit n_clusters coords ;;
    let clusters := map (fun i => (i, [])) (seq 0 n_clusters) in
    fill_clusters ds clusters 0 labels.

End Clusterer.

(** ** Assignment, intake and registration *)

(** [l[i] = x] for an index in range. *)
Fixpoint update_nth {A : Type} (i : nat) (x : A) (l : list A) : list A :=
  match l, i with
  | [], _ => []
  | _ :: r, O => x :: r
  | a :: r, S j => a :: update_nth j x r
  end.

Definition set_assigned_driver (d : Delivery) (w : Z) : Delivery :=
  mkDelivery (id d) (lat d) (lon d) (address d) (Some w)
    (eta_min d) (route_coords d).

Definition set_route (d : Delivery) (eta : Q) (coords : list coord)
    : Delivery :=
  mkDelivery (id d) (lat d) (lon d) (address d) (assigned_driver d)
    (Some eta) (Some coords).

Definition increment_load (w : Driver) : Driver :=
  mkDriver (d_id w) (imei w) (driver w) (d_lat w) (d_lon w)
    (current_load w + 1).

(** One element of the [response] list of [assign_all]. *)
Record Assignment : Type := mkAssignment {
  a_delivery_id : Z;
  a_driver : string;
  a_eta_min : Q
}.

(** Request bodies: a JSON object whose keys may be missing. *)
Record DeliveryRequest : Type := mkDeliveryRequest {
  q_lat : option Q;
  q_lon : option Q;
  q_address : option string
}.

Record DriverRequest : Type := mkDriverRequest {
  r_imei : option string;
  r_driver : option string;
  r_lat : option Q;
  r_lon : option Q
}.

(** [request.json]: one object or a list of objects. *)
Inductive body (A : Type) : Type :=
| One (x : A)
| Many (xs : list A).

(** [d[key]]. *)
Definition item {A : Type} (v : option A) : result A :=
  match v with
  | None => raise KeyError
  | Some a => ret a
  end.

(** [d.get(key, default)]. *)
Definition get {A : Type} (v : option A) (default : A) : A :=
  match v with
  | None => default
  | Some a => a
  end.

Section Dispatch.

Variable haversine : coord -> coord -> Q.
Variable G : Graph.
Variable nearest_nodes : Graph -> Q -> Q -> result node.
Variable shortest_path : Graph -> node -> node -> result (list node).

(** The [key] of [assign_driver]. *)
Definition score (delivery : Delivery) (d : Driver) : Q :=
  (haversine (d_lat d, d_lon d) (lat delivery, lon delivery)
   + inject_Z (current_load d))%Q.

(** [assign_driver(delivery)]: returns the driver store and the log after
    the call, the delivery after the call and the chosen driver. *)
Definition assign_driver (drv : list Driver) (lg : list log_entry)
    (delivery : Delivery)
    : result (list Driver * list log_entry * Delivery * Driver) :=
  ib <- Py.min_by (score delivery) drv ;;
  let best_driver := increment_load (snd ib) in
  ret (update_nth (fst ib) best_driver drv,
       lg ++ [LogAssigned (id delivery) (driver best_driver)],
       set_assigned_driver delivery (d_id (snd ib)),
       best_driver).

(** State of the loop of [assign_all]. *)
Record loop_state : Type := mkLoop {
  l_drivers : list Driver;
  l_log : list log_entry;
  l_response : list Assignment
}.

(** Body of the loop for one delivery [d]. *)
Definition assign_body (gfs : list Geofence) (st : loop_state)
    (d : Delivery) : result (loop_state * Delivery) :=
  if Py.truthy_int (assigned_driver d) then ret (st, d)
  else
    gf <- check_geofence gfs (lat d) (lon d) ;;
    if Py.truthy_str gf then
      ret (mkLoop (l_drivers st)
             (l_log st ++ [LogGeofenceSkip (id d)])
             (l_response st), d)
    else
      r <- assign_driver (l_drivers st) (l_log st) d ;;
      let '(drv, lg, d1, w) := r in
      let '(route, eta) :=
        suggest_route G nearest_nodes shortest_path
          (d_lat w, d_lon w) (lat d1, lon d1) in
      ret (mkLoop drv lg
             (l_response st ++ [mkAssignment (id d1) (driver w) eta]),
           set_route d1 eta route).

(** [for d in deliveries]: the deliveries after the loop, the loop state,
    and the exception that ended the loop early, if any. *)
Fixpoint assign_loop (gfs : list Geofence) (st : loop_state)
    (ds : list Delivery) : loop_state * list Delivery * option exn :=
  match ds with
  | [] => (st, [], None)
  | d :: rest =>
      match assign_body gfs st d with
      | inl e => (st, d :: rest, Some e)
      | inr (st', d') =>
          let '(st'', rest', e) := assign_loop gfs st' rest in
          (st'', d' :: rest', e)
      end
  end.

(** [GET /delivery/assign]: the stores after the loop and the list
    [response] that the loop has built, or the exception that ended it.
    The page rendered from that list ([plot_map],
    [render_template_string]) is not part of the model: rendering reads
    the stores and writes none of them. *)
Definition assign_all (s : state) : state * result (list Assignment) :=
  let '(st, ds, e) :=
    assign_loop (geofences s)
      (mkLoop (drivers s) (activity_log s) []) (deliveries s) in
  (mkState (l_drivers st) ds (geofences s) (l_log st),
   match e with
   | Some x => raise x
   | None => ret (l_response st)
   end).

(** The dict built from one request object, and its insertion. *)
Definition new_delivery (s : state) (d : DeliveryRequest)
    : result Delivery :=
  la <- item (q_lat d) ;;
  lo <- item (q_lon d) ;;
  ret (mkDelivery (Z.of_nat (List.length (deliveries s)) + 1) la lo
         (get (q_address d) "Unknown"%string) None None None).

Definition append_delivery (s : state) (x : Delivery) : state :=
  mkState (drivers s) (deliveries s ++ [x]) (geofences s)
    (activity_log s ++ [LogNewDelivery (id x) (lat x) (lon x)]).

Fixpoint add_deliveries (s : state) (data : list DeliveryRequest)
    (added : list Delivery) : state * result (list Delivery) :=
  match data with
  | [] => (s, ret added)
  | d :: rest =>
      match new_delivery s d with
      | inl e => (s, raise e)
      | inr x => add_deliveries (append_delivery s x) rest (added ++ [x])
      end
  end.

(** [POST /delivery/request]. *)
Definition add_delivery (s : state) (data : body DeliveryRequest)
    : state * result (list Delivery) :=
  match data with
  | Many l => add_deliveries s l []
  | One d =>
      match new_delivery s d with
      | inl e => (s, raise e)
      | inr x => (append_delivery s x, ret [x])
      end
  end.

Definition new_driver (s : state) (d : DriverRequest) : result Driver :=
  let im := get (r_imei d) "000000000000000"%string in
  nm <- item (r_driver d) ;;
  la <- item (r_lat d) ;;
  lo <- item (r_lon d) ;;
  ret (mkDriver (Z.of_nat (List.length (drivers s)) + 1) im nm la lo 0).

Definition append_driver (s : state) (w : Driver) : state :=
  mkState (drivers s ++ [w]) (deliveries s) (geofences s)
    (activity_log s ++ [LogAddedDriver (driver w)]).

Fixpoint add_drivers (s : state) (data : list DriverRequest)
    (added : list Driver) : state * result (list Driver) :=
  match data with
  | [] => (s, ret added)
  | d :: rest =>
      match new_driver s d with
      | inl e => (s, raise e)
      | inr w => add_drivers (append_driver s w) rest (added ++ [w])
      end
  end.

(** [POST /driver/add]. *)
Definition add_driver (s : state) (data : body DriverRequest)
    : state * result (list Driver) :=
  match data with
  | Many l => add_drivers s l []
  | One d =>
      match new_driver s d with
      | inl e => (s, raise e)
      | inr w => (append_driver s w, ret [w])
      end
  end.

(** [POST /geofence/check]. *)
Definition process_geofence (s : state) (la lo : Q)
    : result (bool * option string) :=
  gf_name <- check_geofence (geofences s) la lo ;;
  ret (match gf_name with Some _ => true | None => false end, gf_name).

(** States the service can be in: the stores as the module defines them,
    followed by any sequence of requests. *)
Inductive reachable : state -> Prop :=
| reach_init : reachable initial_state
| reach_add_delivery s data :
    reachable s -> reachable (fst (add_delivery s data))
| reach_add_driver s data :
    reachable s -> reachable (fst (add_driver s data))
| reach_assign_all s :
    reachable s -> reachable (fst (assign_all s)).

End Dispatch.

(** ** Predicates used by the statements *)

(** Driver identifiers follow the position in the store: the driver at
    position [k] (from 0) has identifier [k + 1]. *)
Definition drivers_wf (drv : list Driver) : Prop :=
  forall k w, nth_error drv k = Some w -> d_id w = Z.of_nat k + 1.

(** The same for deliveries. *)
Definition deliveries_wf (ds : list Delivery) : Prop :=
  forall k d, nth_error ds k = Some d -> id d = Z.of_nat k + 1.

(** Every assigned delivery names a driver of the store. *)
Definition refs_valid (drv : list Driver) (ds : list Delivery) : Prop :=
  forall d w, In d ds -> assigned_driver d = Some w ->
    exists x, In x drv /\ d_id x = w.

(** Every geofence has a polygon whose ring has at least four coordinates
    (three vertices and the closing one) and a non-empty name. *)
Definition geofences_wf (gfs : list Geofence) : Prop :=
  forall gf, In gf gfs ->
    (4 <= List.length (Shapely.close_ring (polygon gf)))%nat /\
    name gf <> EmptyString.

(** The delivery lies inside some geofence: [check_geofence] names one. *)
Definition geofenced (gfs : list Geofence) (d : Delivery) : Prop :=
  exists nm, check_geofence gfs (lat d) (lon d) = inr (Some nm)
             /\ nm <> EmptyString.

(** The loop of [assign_all] passes over the delivery without touching it. *)
Definition settled (gfs : list Geofence) (d : Delivery) : Prop :=
  Py.truthy_int (assigned_driver d) = true \/ geofenced gfs d.

(** Geometry of a polygon given by its vertices, implicitly closed. *)
Definition on_segment (a b p : coord) : Prop :=
  exists t : Q,
    (0 <= t /\ t <= 1 /\
     fst p == fst a + t * (fst b - fst a) /\
     snd p == snd a + t * (snd b - snd a))%Q.

Definition polygon_edges (vs : list coord) : list (coord * coord) :=
  match vs with
  | [] => []
  | v :: _ => Shapely.segments (vs ++ [v])
  end.

Definition on_boundary (vs : list coord) (p : coord) : Prop :=
  exists a b, In (a, b) (polygon_edges vs) /\ on_segment a b p.

(** Walks of the road network and their length. *)
Inductive walk (g : Graph) : node -> node -> list Edge -> Prop :=
| walk_nil u : walk g u u []
| walk_cons e es w :
    In e (g_edges g) -> walk g (e_v e) w es -> walk g (e_u e) w (e :: es).

Definition walk_length (es : list Edge) : Q := Py.sum (map e_length es).

(** [len] is the length of a shortest walk from [u] to [v]. *)
Definition shortest_length (g : Graph) (u v : node) (len : Q) : Prop :=
  (exists es, walk g u v es /\ walk_length es == len)%Q /\
  (forall es, walk g u v es -> len <= walk_length es)%Q.

(** The estimator checks its parameters against the input before
    iterating and refuses fewer samples than clusters with a [ValueError]
    ("n_samples should be >= n_clusters"). *)
Definition refuses_too_few_samples
    (fit : nat -> list coord -> result (list nat)) : Prop :=
  forall k X, (List.length X < k)%nat -> fit k X = inl ValueError.

(** Requests taken one by one, and requests that carry coordinates. *)
Definition intakes (s : state) (reqs : list DeliveryRequest) : state :=
  fold_left (fun s r => fst (add_delivery s (One r))) reqs s.

Definition complete (r : DeliveryRequest) : Prop :=
  q_lat r <> None /\ q_lon r <> None.

(** Outcomes of the loop of [assign_all]. *)
Section Outcomes.

Variable haversine : coord -> coord -> Q.

(** What one pass of the loop body can do. *)
Inductive body_outcome (gfs : list Geofence) (st : loop_state) (d : Delivery)
    (st' : loop_state) (d' : Delivery) : Prop :=
| out_already :
    Py.truthy_int (assigned_driver d) = true ->
    st' = st -> d' = d -> body_outcome gfs st d st' d'
| out_geofenced gf :
    Py.truthy_int (assigned_driver d) = false ->
    check_geofence gfs (lat d) (lon d) = inr gf ->
    Py.truthy_str gf = true ->
    l_drivers st' = l_drivers st -> l_response st' = l_response st ->
    l_log st' = l_log st ++ [LogGeofenceSkip (id d)] ->
    d' = d -> body_outcome gfs st d st' d'
| out_assigned gf i best :
    Py.truthy_int (assigned_driver d) = false ->
    check_geofence gfs (lat d) (lon d) = inr gf ->
    Py.truthy_str gf = false ->
    Py.min_by (score haversine d) (l_drivers st) = inr (i, best) ->
    l_drivers st' = update_nth i (increment_load best) (l_drivers st) ->
    assigned_driver d' = Some (d_id best) ->
    id d' = id d -> lat d' = lat d -> lon d' = lon d ->
    body_outcome gfs st d st' d'.

(** How the loop relates a delivery before and after it. *)
Definition touched (ids : list Z) (d d' : Delivery) : Prop :=
  id d' = id d /\
  (d' = d \/
   (Py.truthy_int (assigned_driver d) = false /\
    exists w, In w ids /\ assigned_driver d' = Some w)).

End Outcomes.

(** The facts that hold of the stores in every state of the service. *)
Record Inv (s : state) : Prop := mkInv {
  inv_drivers : drivers_wf (drivers s);
  inv_deliveries : deliveries_wf (deliveries s);
  inv_refs : refs_valid (drivers s) (deliveries s);
  inv_geofences : geofences s = initial_geofences;
  inv_staffed : drivers s <> []
}.

(** ** The network of scenario A and sample library behaviour

    Concrete stand-ins for the library calls, used to run the program on
    concrete inputs. *)

Module Scenario.

Local Open Scope Q_scope.

(** Two nodes joined by one edge of 800 metres. *)
Definition G : Graph :=
  mkGraph [ (1%Z, (14.5547, 121.0244)); (2%Z, (14.5600, 121.0200)) ]
          [ mkEdge 1%Z 2%Z 800 ].



(** Nearest node by squared coordinate distance. *)
Definition nearest_nodes (g : Graph) (X Y : Q) : result node :=
  match Py.min_by
          (fun n => (snd (snd n) - X) * (snd (snd n) - X)
                    + (fst (snd n) - Y) * (fst (snd n) - Y))
          (g_nodes g) with
  | inl e => inl e
  | inr (_, n) => ret (fst n)
  end.

(** A router that knows one-edge routes only. *)
Definition shortest_path (g : Graph) (u v : node) : result (list node) :=
  if (u =? v)%Z then ret [u]
  else match edge_lengths g u v with
       | [] => raise NetworkXNoPath
       | _ => ret [u; v]
       end.

Definition shortest_path_length (g : Graph) (u v : node) : result Q :=
  if (u =? v)%Z then ret 0
  else match Py.min_by (fun x => x) (edge_lengths g u v) with
       | inl _ => raise NetworkXNoPath
       | inr (_, l) => ret l
       end.

(** Kilometres from degrees, the larger of the two axis distances. *)
Definition haversine (a b : coord) : Q :=
  Qmax (Qabs (fst a - fst b) * 111) (Qabs (snd a - snd b) * 108).

(** An estimator that refuses what scikit-learn refuses (no cluster, or
    fewer samples than clusters) and otherwise puts every sample in
    cluster 0. *)
Definition KMeans_fit (k : nat) (X : list coord) : result (list nat) :=
  if (k =? 0)%nat then raise ValueError
  else if (List.length X <? k)%nat then raise ValueError
  else ret (map (fun _ => 0%nat) X).

Definition alice : Driver :=
  mkDriver 1%Z "123456789012345" "Alice" 14.5547 121.0244 1%Z.

Definition bob : Driver :=
  mkDriver 2%Z "234567890123456" "Bob" 14.5550 121.0300 2%Z.

(** The job of scenarios B and C, and a job outside the geofence. *)
Definition job_makati : Delivery :=
  mkDelivery 1%Z 14.5555 121.0240 "Makati" None None None.

Definition job_outside : Delivery :=
  mkDelivery 2%Z 14.5600 121.0200 "Outside" None None None.

End Scenario.

(** ** Further notions used by the properties of the endpoints *)

(** The delivery is assigned to the driver of identifier [w]. *)
Definition assigned_to (w : Z) (d : Delivery) : bool :=
  match assigned_driver d with
  | Some x => x =? w
  | None => false
  end.

Definition count_assigned (w : Z) (ds : list Delivery) : nat :=
  List.length (filter (assigned_to w) ds).

(** The load a driver starts with: the one written in the module for the
    three drivers it defines, 0 for a driver registered later. *)
Definition base_load (k : nat) : Z :=
  nth k (map current_load initial_drivers) 0.

(** Every load is the starting load plus the number of deliveries assigned
    to the driver. *)
Definition loads_accounted (drv : list Driver) (ds : list Delivery) : Prop :=
  forall k w, nth_error drv k = Some w ->
    current_load w = base_load k + Z.of_nat (count_assigned (d_id w) ds).

(** The loop of [assign_all] passes over the delivery ([continue]), as a
    test. *)
Definition skipped (gfs : list Geofence) (d : Delivery) : bool :=
  Py.truthy_int (assigned_driver d)
  || match check_geofence gfs (lat d) (lon d) with
     | inr gf => Py.truthy_str gf
     | inl _ => false
     end.

(** The facts on loads kept by every request. *)
Definition accounted (s : state) : Prop :=
  Inv s /\ (3 <= List.length (drivers s))%nat /\
  loads_accounted (drivers s) (deliveries s).

(** What is stored with a delivery: nothing while it has no driver, then
    the route and ETA that [route] gives from the position of its driver. *)
Definition route_recorded (route : coord -> coord -> list coord * Q)
    (drv : list Driver) (d : Delivery) : Prop :=
  match assigned_driver d with
  | None => eta_min d = None /\ route_coords d = None
  | Some w =>
      exists x, In x drv /\ d_id x = w /\
        route_coords d
        = Some (fst (route (d_lat x, d_lon x) (lat d, lon d))) /\
        eta_min d = Some (snd (route (d_lat x, d_lon x) (lat d, lon d)))
  end.

(** The same driver, possibly with a higher load. *)
Definition same_driver (w w' : Driver) : Prop :=
  d_id w' = d_id w /\ imei w' = imei w /\ driver w' = driver w /\
  d_lat w' = d_lat w /\ d_lon w' = d_lon w /\
  current_load w <= current_load w'.

(** The same request: identifier, position and address. *)
Definition same_request (d d' : Delivery) : Prop :=
  id d' = id d /\ lat d' = lat d /\ lon d' = lon d /\
  address d' = address d.

(** Strictly inside the rectangle of the geofence defined by the module. *)
Definition inside_no_go (la lo : Q) : Prop :=
  (14.555 < la /\ la < 14.556 /\ 121.023 < lo /\ lo < 121.025)%Q.



(** One label per sample, each below the number of clusters. *)
Definition labels_ok (k n : nat) (labels : list nat) : Prop :=
  List.length labels = n /\ Forall (fun l => (l < k)%nat) labels.

(** The deliveries of the clusters, cluster after cluster. *)
Definition members (clusters : list (nat * list Delivery)) : list Delivery :=
  List.concat (map snd clusters).

Section Evolution.

Variable haversine : coord -> coord -> Q.
Variable G : Graph.
Variable nearest_nodes : Graph -> Q -> Q -> result node.
Variable shortest_path : Graph -> node -> node -> result (list node).

(** [s'] is [s] after some sequence of requests. *)
Inductive evolves (s : state) : state -> Prop :=
| evolves_refl : evolves s s
| evolves_add_delivery s' data :
    evolves s s' -> evolves s (fst (add_delivery s' data))
| evolves_add_driver s' data :
    evolves s s' -> evolves s (fst (add_driver s' data))
| evolves_assign_all s' :
    evolves s s' ->
    evolves s (fst (assign_all haversine G nearest_nodes shortest_path s')).

End Evolution.

(** ** The stores as the requests fill them

    [add_delivery] and [add_driver] store [d['lat']] and [d['lon']] as the
    JSON body carries them; nothing checks that they are numbers, and
    nothing checks that a number is a latitude or longitude.  The
    development above takes every stored coordinate to be a number that
    the library calls accept.  Module [Unvalidated] embeds the intake of
    deliveries and the assignment loop without that assumption: a stored
    coordinate is any JSON scalar, and [Point] and [haversine], which
    receive the stored values as they are, can raise. *)

Module Unvalidated.

(** A coordinate as a request body carries it: a number, a string or
    [null].  (A JSON boolean reaches Python as [True] or [False], which
    are the numbers 1 and 0; lists and objects are left out.) *)
Inductive json : Type :=
| JNumber (q : Q)
| JString (s : string)
| JNull.

Record Driver : Type := mkDriver {
  d_id : Z;
  imei : string;
  driver : string;
  d_lat : json;
  d_lon : json;
  current_load : Z
}.

Record Delivery : Type := mkDelivery {
  id : Z;
  lat : json;
  lon : json;
  address : string;
  assigned_driver : option Z;
  eta_min : option Q;
  route_coords : option (list coord)
}.

Inductive log_entry : Type :=
| LogAssigned (delivery_id : Z) (driver_name : string)
| LogNewDelivery (delivery_id : Z) (la lo : json)
| LogGeofenceSkip (delivery_id : Z)
| LogAddedDriver (driver_name : string).

Record state : Type := mkState {
  drivers : list Driver;
  deliveries : list Delivery;
  geofences : list Geofence;
  activity_log : list log_entry
}.

Definition initial_drivers : list Driver :=
  [ mkDriver 1 "123456789012345" "Alice"
      (JNumber 14.5547) (JNumber 121.0244) 1;
    mkDriver 2 "234567890123456" "Bob"
      (JNumber 14.5550) (JNumber 121.0300) 2;
    mkDriver 3 "345678901234567" "Charlie"
      (JNumber 14.5600) (JNumber 121.0200) 0 ].

Definition initial_state : state :=
  mkState initial_drivers [] initial_geofences [].

Definition set_assigned_driver (d : Delivery) (w : Z) : Delivery :=
  mkDelivery (id d) (lat d) (lon d) (address d) (Some w)
    (eta_min d) (route_coords d).

Definition set_route (d : Delivery) (eta : Q) (coords : list coord)
    : Delivery :=
  mkDelivery (id d) (lat d) (lon d) (address d) (assigned_driver d)
    (Some eta) (Some coords).

Definition increment_load (w : Driver) : Driver :=
  mkDriver (d_id w) (imei w) (driver w) (d_lat w) (d_lon w)
    (current_load w + 1).

Record DeliveryRequest : Type := mkDeliveryRequest {
  q_lat : option json;
  q_lon : option json;
  q_address : option string
}.

(** State of the loop of [assign_all]. *)
Record loop_state : Type := mkLoop {
  l_drivers : list Driver;
  l_log : list log_entry;
  l_response : list Assignment
}.

Section Dispatch.

(** The library calls, on the values the program hands them.
    [float_of] is what [Point(lat, lon)] makes of an argument that is not
    a number: the float it converts it to, or the exception it raises.
    [haversine] can raise as well, on a value that is not a number and on
    a number that is no latitude or longitude. *)
Variable float_of : json -> result Q.
Variable haversine : json * json -> json * json -> result Q.
Variable G : Graph.
Variable nearest_nodes : Graph -> json -> json -> result node.
Variable shortest_path : Graph -> node -> node -> result (list node).

(** A coordinate of [Point(lat, lon)]. *)
Definition coordinate (v : json) : result Q :=
  match v with
  | JNumber q => ret q
  | _ => float_of v
  end.

(** [check_geofence(lat, lon)]: the point is built first, then tested
    against the geofences in turn. *)
Definition check_geofence (gfs : list Geofence) (la lo : json)
    : result (option string) :=
  x <- coordinate la ;;
  y <- coordinate lo ;;
  check_geofence gfs x y.

Definition suggest_route_try (origin destination : json * json)
    : result (list coord * Q) :=
  orig_node <- nearest_nodes G (snd origin) (fst origin) ;;
  dest_node <- nearest_nodes G (snd destination) (fst destination) ;;
  nodes <- shortest_path G orig_node dest_node ;;
  coords <- mapM (node_yx G) nodes ;;
  lengths <- get_route_edge_attributes G nodes ;;
  let distance_m := Py.sum lengths in
  let eta_min := Py.truediv distance_m 500 in
  ret (coords, Py.round1 eta_min).

Definition suggest_route (origin destination : json * json)
    : list coord * Q :=
  match suggest_route_try origin destination with
  | inl _ => ([], 0%Q)
  | inr r => r
  end.

(** The [key] of [assign_driver]. *)
Definition score (delivery : Delivery) (d : Driver) : result Q :=
  h <- haversine (d_lat d, d_lon d) (lat delivery, lon delivery) ;;
  ret (h + inject_Z (current_load d))%Q.

(** [min(drivers, key=...)] with a key that can raise: the keys are
    computed in store order and the first exception ends the call. *)
Definition min_by_key (key : Driver -> result Q) (drv : list Driver)
    : result (nat * Driver) :=
  keys <- mapM key drv ;;
  r <- Py.min_by snd (combine drv keys) ;;
  ret (fst r, fst (snd r)).

Definition assign_driver (drv : list Driver) (lg : list log_entry)
    (delivery : Delivery)
    : result (list Driver * list log_entry * Delivery * Driver) :=
  ib <- min_by_key (score delivery) drv ;;
  let best_driver := increment_load (snd ib) in
  ret (update_nth (fst ib) best_driver drv,
       lg ++ [LogAssigned (id delivery) (driver best_driver)],
       set_assigned_driver delivery (d_id (snd ib)),
       best_driver).

(** Body of the loop for one delivery [d]. *)
Definition assign_body (gfs : list Geofence) (st : loop_state)
    (d : Delivery) : result (loop_state * Delivery) :=
  if Py.truthy_int (assigned_driver d) then ret (st, d)
  else
    gf <- check_geofence gfs (lat d) (lon d) ;;
    if Py.truthy_str gf then
      ret (mkLoop (l_drivers st)
             (l_log st ++ [LogGeofenceSkip (id d)])
             (l_response st), d)
    else
      r <- assign_driver (l_drivers st) (l_log st) d ;;
      let '(drv, lg, d1, w) := r in
      let '(route, eta) :=
        suggest_route (d_lat w, d_lon w) (lat d1, lon d1) in
      ret (mkLoop drv lg
             (l_response st ++ [mkAssignment (id d1) (driver w) eta]),
           set_route d1 eta route).

Fixpoint assign_loop (gfs : list Geofence) (st : loop_state)
    (ds : list Delivery) : loop_state * list Delivery * option exn :=
  match ds with
  | [] => (st, [], None)
  | d :: rest =>
      match assign_body gfs st d with
      | inl e => (st, d :: rest, Some e)
      | inr (st', d') =>
          let '(st'', rest', e) := assign_loop gfs st' rest in
          (st'', d' :: rest', e)
      end
  end.

(** [GET /delivery/assign]: the stores after the loop and the list
    [response] that the loop has built, or the exception that ended it. *)
Definition assign_all (s : state) : state * result (list Assignment) :=
  let '(st, ds, e) :=
    assign_loop (geofences s)
      (mkLoop (drivers s) (activity_log s) []) (deliveries s) in
  (mkState (l_drivers st) ds (geofences s) (l_log st),
   match e with
   | Some x => raise x
   | None => ret (l_response st)
   end).

End Dispatch.

(** [POST /delivery/request]: the values of the keys ['lat'] and ['lon']
    are stored as they come. *)
Definition new_delivery (s : state) (d : DeliveryRequest)
    : result Delivery :=
  la <- item (q_lat d) ;;
  lo <- item (q_lon d) ;;
  ret (mkDelivery (Z.of_nat (List.length (deliveries s)) + 1) la lo
         (get (q_address d) "Unknown"%string) None None None).

Definition append_delivery (s : state) (x : Delivery) : state :=
  mkState (drivers s) (deliveries s ++ [x]) (geofences s)
    (activity_log s ++ [LogNewDelivery (id x) (lat x) (lon x)]).

Fixpoint add_deliveries (s : state) (data : list DeliveryRequest)
    (added : list Delivery) : state * result (list Delivery) :=
  match data with
  | [] => (s, ret added)
  | d :: rest =>
      match new_delivery s d with
      | inl e => (s, raise e)
      | inr x => add_deliveries (append_delivery s x) rest (added ++ [x])
      end
  end.

Definition add_delivery (s : state) (data : body DeliveryRequest)
    : state * result (list Delivery) :=
  match data with
  | Many l => add_deliveries s l []
  | One d =>
      match new_delivery s d with
      | inl e => (s, raise e)
      | inr x => (append_delivery s x, ret [x])
      end
  end.

(** Every assigned delivery names a driver of the store. *)
Definition refs_valid (drv : list Driver) (ds : list Delivery) : Prop :=
  forall d w, In d ds -> assigned_driver d = Some w ->
    exists x, In x drv /\ d_id x = w.

Section Predicates.

Variable float_of : json -> result Q.
Variable haversine : json * json -> json * json -> result Q.

(** The delivery lies inside some geofence: [check_geofence] names one. *)
Definition geofenced (gfs : list Geofence) (d : Delivery) : Prop :=
  exists nm, check_geofence float_of gfs (lat d) (lon d) = inr (Some nm)
             /\ nm <> EmptyString.


End Predicates.

(** Sample behaviour of the library calls: [Point] converts nothing and
    raises [TypeError] on what is not a number, as on [None]; the
    distance is defined on numbers. *)
Module Sample.

Definition float_of (v : json) : result Q := raise TypeError.

Definition haversine (a b : json * json) : result Q :=
  match a, b with
  | (JNumber a1, JNumber a2), (JNumber b1, JNumber b2) =>
      ret (Scenario.haversine (a1, a2) (b1, b2))
  | _, _ => raise TypeError
  end.

Definition nearest_nodes (g : Graph) (X Y : json) : result node :=
  match X, Y with
  | JNumber x, JNumber y => Scenario.nearest_nodes g x y
  | _, _ => raise TypeError
  end.

End Sample.

End Unvalidated.

(** A store of numbers, as a store of JSON values. *)
Definition json_driver (w : Driver) : Unvalidated.Driver :=
  Unvalidated.mkDriver (d_id w) (imei w) (driver w)
    (Unvalidated.JNumber (d_lat w)) (Unvalidated.JNumber (d_lon w))
    (current_load w).

Definition json_delivery (d : Delivery) : Unvalidated.Delivery :=
  Unvalidated.mkDelivery (id d)
    (Unvalidated.JNumber (lat d)) (Unvalidated.JNumber (lon d))
    (address d) (assigned_driver d) (eta_min d) (route_coords d).

Definition json_log (l : log_entry) : Unvalidated.log_entry :=
  match l with
  | LogAssigned i nm => Unvalidated.LogAssigned i nm
  | LogNewDelivery i la lo =>
      Unvalidated.LogNewDelivery i
        (Unvalidated.JNumber la) (Unvalidated.JNumber lo)
  | LogGeofenceSkip i => Unvalidated.LogGeofenceSkip i
  | LogAddedDriver nm => Unvalidated.LogAddedDriver nm
  end.

Definition json_loop (st : loop_state) : Unvalidated.loop_state :=
  Unvalidated.mkLoop (map json_driver (l_drivers st))
    (map json_log (l_log st)) (l_response st).

Definition json_state (s : state) : Unvalidated.state :=
  Unvalidated.mkState (map json_driver (drivers s))
    (map json_delivery (deliveries s)) (geofences s)
    (map json_log (activity_log s)).

(** Library calls on JSON values that do on numbers what the calls of the
    development above do. *)
Definition on_numbers
    (haversine : coord -> coord -> Q)
    (nearest_nodes : Graph -> Q -> Q -> result node)
    (haversine' : Unvalidated.json * Unvalidated.json ->
                  Unvalidated.json * Unvalidated.json -> result Q)
    (nearest_nodes' : Graph -> Unvalidated.json -> Unvalidated.json ->
                      result node) : Prop :=
  (forall a b c d,
      haversine' (Unvalidated.JNumber a, Unvalidated.JNumber b)
                 (Unvalidated.JNumber c, Unvalidated.JNumber d)
      = inr (haversine (a, b) (c, d))) /\
  (forall g x y,
      nearest_nodes' g (Unvalidated.JNumber x) (Unvalidated.JNumber y)
      = nearest_nodes g x y).

(** * Properties *)

(** ** The program on concrete inputs *)

Example check_geofence_inside :
  check_geofence initial_geofences 14.5555 121.0240
  = inr (Some "No-Go Zone Makati"%string).
Proof. vm_compute; reflexivity. Qed.

Example check_geofence_outside :
  check_geofence initial_geofences 14.5600 121.0200 = inr None.
Proof. vm_compute; reflexivity. Qed.

Example check_geofence_corner :
  check_geofence initial_geofences 14.556 121.025 = inr None.
Proof. vm_compute; reflexivity. Qed.

Example min_by_first_of_equals :
  Py.min_by (fun x : Q => x) [3; 1; 2; 1]%Q = inr (1%nat, 1%Q).
Proof. reflexivity. Qed.

Example float64_values :
  map Py.float64 [0.15; 0.05; 0.45; 0.246; 0.25; -0.15; 500; 0]%Q
  = [ 5404319552844595 # 36028797018963968;
      3602879701896397 # 72057594037927936;
      8106479329266893 # 18014398509481984;
      553942754166571 # 2251799813685248;
      1 # 4;
      -5404319552844595 # 36028797018963968;
      500; 0 ]%Q.
Proof. vm_compute; reflexivity. Qed.

Example round1_values :
  map (fun x => Py.round1 (Py.float64 x))
    [0.25; 0.35; 0.15; 0.05; 0.45; 0.246; 1.6; 2.675; -0.25]%Q
  = [2 # 10; 3 # 10; 1 # 10; 1 # 10; 5 # 10; 2 # 10; 16 # 10; 27 # 10;
     -2 # 10]%Q.
Proof. vm_compute; reflexivity. Qed.

Example eta_values :
  map (fun distance_m => Py.round1 (Py.truediv distance_m 500))
    [75; 25; 225; 123; 800; 1600; 1234.5678; 0]%Q
  = [1 # 10; 1 # 10; 5 # 10; 2 # 10; 16 # 10; 32 # 10; 25 # 10; 0 # 10]%Q.
Proof. vm_compute; reflexivity. Qed.

Example suggest_route_no_way_back :
  suggest_route Scenario.G Scenario.nearest_nodes Scenario.shortest_path
    (14.56, 121.02)%Q (14.5547, 121.0244)%Q = ([], 0%Q).
Proof. vm_compute; reflexivity. Qed.

Example assign_all_two_jobs :
  let s := fst (assign_all Scenario.haversine Scenario.G
                  Scenario.nearest_nodes Scenario.shortest_path
                  (mkState initial_drivers
                     [Scenario.job_makati; Scenario.job_outside]
                     initial_geofences [])) in
  map assigned_driver (deliveries s) = [None; Some 3] /\
  map current_load (drivers s) = [1; 2; 1] /\
  activity_log s = [LogGeofenceSkip 1; LogAssigned 2 "Charlie"].
Proof. vm_compute; auto. Qed.

(** ** Generic facts on lists and the error monad *)

Lemma update_nth_length {A : Type} (i : nat) (x : A) (l : list A) :
  List.length (update_nth i x l) = List.length l.
Proof.
  revert i; induction l as [|a l IH]; intros [|i]; simpl; auto.
Qed.

Lemma nth_error_update_nth_eq {A : Type} (i : nat) (x : A) (l : list A) :
  (i < List.length l)%nat -> nth_error (update_nth i x l) i = Some x.
Proof.
  revert i; induction l as [|a l IH]; intros [|i] H; simpl in *;
    try lia; auto.
  apply IH; lia.
Qed.

Lemma nth_error_update_nth_ne {A : Type} (i j : nat) (x : A) (l : list A) :
  i <> j -> nth_error (update_nth i x l) j = nth_error l j.
Proof.
  revert i j; induction l as [|a l IH]; intros [|i] [|j] H; simpl;
    try congruence; auto.
Qed.

Lemma map_update_nth_same {A B : Type} (f : A -> B) (i : nat) (x y : A)
    (l : list A) :
  nth_error l i = Some y -> f x = f y ->
  map f (update_nth i x l) = map f l.
Proof.
  revert i; induction l as [|a l IH]; intros [|i] H E; simpl in *;
    try discriminate.
  - inversion H; subst; congruence.
  - f_equal; auto.
Qed.

Lemma bind_inr {A B : Type} (m : result A) (k : A -> result B) (b : B) :
  bind m k = inr b -> exists a, m = inr a /\ k a = inr b.
Proof.
  destruct m as [e|a]; simpl; intros H; [discriminate|eauto].
Qed.

Lemma bind_inl {A B : Type} (m : result A) (k : A -> result B) (e : exn) :
  m = inl e -> bind m k = inl e.
Proof. intros ->; reflexivity. Qed.

(** ** [min] with a key *)

Module PyFacts.

Local Open Scope Q_scope.

Section MinBy.

Context {A : Type}.
Variable key : A -> Q.

(** The scan keeps a best element that is minimal among the elements
    seen and strictly below everything seen before it. *)
Lemma min_from_spec (l pre : list A) (bi : nat) (best : A) :
  nth_error pre bi = Some best ->
  (forall y, In y pre -> key best <= key y) ->
  (forall k y, nth_error pre k = Some y -> (k < bi)%nat ->
               key best < key y) ->
  forall j x, Py.min_from key bi best (List.length pre) l = (j, x) ->
    nth_error (pre ++ l) j = Some x /\
    (forall y, In y (pre ++ l) -> key x <= key y) /\
    (forall k y, nth_error (pre ++ l) k = Some y -> (k < j)%nat ->
                 key x < key y).
Proof.
  revert pre bi best.
  induction l as [|a l IH]; intros pre bi best Hb Hmin Hfirst j x; simpl.
  - intros E; inversion E; subst; clear E.
    rewrite app_nil_r; auto.
  - assert (Hlen : List.length (pre ++ [a]) = S (List.length pre))
      by (rewrite length_app; simpl; lia).
    assert (Happ : pre ++ a :: l = (pre ++ [a]) ++ l)
      by (rewrite <- app_assoc; reflexivity).
    destruct (Qlt_le_dec (key a) (key best)) as [Hlt|Hle]; intros E;
      rewrite Happ; rewrite <- Hlen in E.
    + apply IH in E; auto.
      * rewrite nth_error_app2 by lia.
        replace (List.length pre - List.length pre)%nat with 0%nat by lia.
        reflexivity.
      * intros y Hy; apply in_app_or in Hy; destruct Hy as [Hy|[<-|[]]].
        -- apply Qle_trans with (key best); [apply Qlt_le_weak|]; auto.
        -- apply Qle_refl.
      * intros k y Hk Hlt'.
        rewrite nth_error_app1 in Hk by lia.
        apply nth_error_In in Hk.
        apply Qlt_le_trans with (key best); auto.
    + apply IH in E; auto.
      * rewrite nth_error_app1; auto.
        apply nth_error_Some; congruence.
      * intros y Hy; apply in_app_or in Hy; destruct Hy as [Hy|[<-|[]]];
          auto.
      * intros k y Hk Hlt'.
        assert (bi < List.length pre)%nat
          by (apply nth_error_Some; congruence).
        rewrite nth_error_app1 in Hk by lia; eauto.
Qed.

(** [min] returns the first element of minimal key. *)
Lemma min_by_spec (l : list A) (j : nat) (x : A) :
  Py.min_by key l = inr (j, x) ->
  nth_error l j = Some x /\
  (forall y, In y l -> key x <= key y) /\
  (forall k y, nth_error l k = Some y -> (k < j)%nat -> key x < key y).
Proof.
  destruct l as [|a l]; simpl; [discriminate|].
  intros E; inversion E as [E']; clear E.
  apply min_from_spec with (pre := [a]) in E'; auto.
  - intros y [<-|[]]; apply Qle_refl.
  - intros k y _ Hk; lia.
Qed.

Lemma min_by_nonempty (l : list A) :
  l <> [] -> exists j x, Py.min_by key l = inr (j, x).
Proof.
  destruct l as [|a l]; [congruence|]; intros _; simpl.
  destruct (Py.min_from key 0 a 1 l) as [j x]; eauto.
Qed.

Lemma min_by_empty : Py.min_by key [] = inl ValueError.
Proof. reflexivity. Qed.

End MinBy.

End PyFacts.

(** ** The assignment loop *)

Section DispatchFacts.

Variable haversine : coord -> coord -> Q.
Variable G : Graph.
Variable nearest_nodes : Graph -> Q -> Q -> result node.
Variable shortest_path : Graph -> node -> node -> result (list node).

Local Abbreviation key := (score haversine).
Local Abbreviation pick := (assign_driver haversine).
Local Abbreviation body :=
  (assign_body haversine G nearest_nodes shortest_path).
Local Abbreviation loop :=
  (assign_loop haversine G nearest_nodes shortest_path).
Local Abbreviation run :=
  (assign_all haversine G nearest_nodes shortest_path).

Lemma assign_driver_empty lg d : pick [] lg d = inl ValueError.
Proof. reflexivity. Qed.

Lemma assign_driver_inr drv lg d r :
  pick drv lg d = inr r ->
  exists i best,
    Py.min_by (key d) drv = inr (i, best) /\
    r = (update_nth i (increment_load best) drv,
         lg ++ [LogAssigned (id d) (driver best)],
         set_assigned_driver d (d_id best),
         increment_load best).
Proof.
  unfold assign_driver; intros H.
  apply bind_inr in H; destruct H as [[i best] [Hm Hr]].
  exists i, best; split; auto.
  unfold ret in Hr; simpl in Hr; congruence.
Qed.

Lemma assign_driver_nonempty drv lg d :
  drv <> [] -> exists r, pick drv lg d = inr r.
Proof.
  intros Hne.
  destruct (PyFacts.min_by_nonempty (key d) Hne) as [j [x E]].
  unfold assign_driver; rewrite E; simpl; eauto.
Qed.

Lemma assign_body_inr gfs st d st' d' :
  body gfs st d = inr (st', d') -> body_outcome haversine gfs st d st' d'.
Proof.
  unfold assign_body.
  destruct (Py.truthy_int (assigned_driver d)) eqn:Ht.
  - intros E; inversion E; subst; apply out_already; auto.
  - intros E; apply bind_inr in E; destruct E as [gf [Hc E]].
    destruct (Py.truthy_str gf) eqn:Hs.
    + inversion E; subst; eapply out_geofenced; eauto.
    + apply bind_inr in E; destruct E as [r [Hr E]].
      apply assign_driver_inr in Hr; destruct Hr as [i [best [Hm ->]]].
      destruct (suggest_route _ _ _ _ _) as [route eta].
      inversion E; subst; eapply out_assigned; eauto.
Qed.

Lemma assign_body_inl gfs st d e :
  body gfs st d = inl e ->
  Py.truthy_int (assigned_driver d) = false /\
  (check_geofence gfs (lat d) (lon d) = inl e \/
   exists gf, check_geofence gfs (lat d) (lon d) = inr gf /\
              Py.truthy_str gf = false /\ l_drivers st = []).
Proof.
  unfold assign_body.
  destruct (Py.truthy_int (assigned_driver d)) eqn:Ht; [discriminate|].
  intros E; split; auto.
  destruct (check_geofence gfs (lat d) (lon d)) as [e'|gf] eqn:Hc; simpl in E.
  - left; congruence.
  - right; exists gf; split; auto.
    destruct (Py.truthy_str gf) eqn:Hs; [discriminate|]; split; auto.
    destruct (l_drivers st) as [|w drv] eqn:Hd; auto.
    destruct (@assign_driver_nonempty (w :: drv) (l_log st) d) as [r Hr];
      [discriminate|].
    rewrite Hr in E; simpl in E.
    destruct r as [[[drv' lg] d1] w'].
    destruct (suggest_route _ _ _ _ _); discriminate.
Qed.

(** A delivery the loop passes over. *)
Lemma assign_body_settled gfs st d :
  settled gfs d ->
  exists st', body gfs st d = inr (st', d) /\
              l_drivers st' = l_drivers st /\
              l_response st' = l_response st.
Proof.
  unfold assign_body; intros [Ht|[nm [Hc Hn]]].
  - rewrite Ht; eauto.
  - destruct (Py.truthy_int (assigned_driver d)); [eauto|].
    rewrite Hc; simpl.
    destruct (String.eqb nm EmptyString) eqn:E.
    + apply String.eqb_eq in E; contradiction.
    + simpl; eauto.
Qed.

(** An unassigned delivery outside every geofence goes to the first
    driver of minimal score. *)
Lemma assign_body_pending gfs st d gf :
  Py.truthy_int (assigned_driver d) = false ->
  check_geofence gfs (lat d) (lon d) = inr gf ->
  Py.truthy_str gf = false ->
  l_drivers st <> [] ->
  exists i best st' d',
    Py.min_by (key d) (l_drivers st) = inr (i, best) /\
    body gfs st d = inr (st', d') /\
    l_drivers st' = update_nth i (increment_load best) (l_drivers st) /\
    assigned_driver d' = Some (d_id best).
Proof.
  intros Ht Hc Hs Hne.
  destruct (PyFacts.min_by_nonempty (key d) Hne) as [i [best Hm]].
  unfold assign_body; rewrite Ht, Hc; simpl; rewrite Hs.
  unfold assign_driver; rewrite Hm; simpl.
  destruct (suggest_route _ _ _ _ _) as [route eta]; simpl.
  do 4 eexists; repeat split; eauto.
Qed.

Lemma min_by_keeps_ids (d : Delivery) drv i best :
  Py.min_by (key d) drv = inr (i, best) ->
  In best drv /\
  map d_id (update_nth i (increment_load best) drv) = map d_id drv.
Proof.
  intros Hm; apply PyFacts.min_by_spec in Hm; destruct Hm as [Hn _].
  split; [eapply nth_error_In; eauto|].
  eapply map_update_nth_same; eauto.
Qed.

Lemma body_keeps_ids gfs st d st' d' :
  body gfs st d = inr (st', d') ->
  map d_id (l_drivers st') = map d_id (l_drivers st).
Proof.
  intros H; apply assign_body_inr in H.
  destruct H as [? -> ?|? ? ? ? -> ? ? ?|gf i best ? ? ? Hm -> ? ? ? ?]; auto.
  apply (min_by_keeps_ids _ _ Hm).
Qed.

Lemma loop_outcomes gfs ds :
  forall st st' ds' e,
    loop gfs st ds = (st', ds', e) ->
    map d_id (l_drivers st') = map d_id (l_drivers st) /\
    Forall2 (touched (map d_id (l_drivers st))) ds ds'.
Proof.
  induction ds as [|d rest IH]; simpl; intros st st' ds' e E.
  - inversion E; subst; auto.
  - destruct (body gfs st d) as [x|[st1 d1]] eqn:Hb.
    + inversion E; subst; split; auto.
      apply Forall2_flip, Forall2_impl with (R1 := eq).
      * intros a b ->; split; auto.
      * clear; induction (d :: rest); constructor; auto.
    + destruct (loop gfs st1 rest) as [[st2 rest'] e'] eqn:Hl.
      inversion E; subst; clear E.
      pose proof (body_keeps_ids _ _ _ Hb) as Hids.
      apply IH in Hl; destruct Hl as [Hids' Hf].
      rewrite Hids in Hids', Hf.
      split; auto; constructor; auto.
      apply assign_body_inr in Hb.
      destruct Hb as [? ? ->|? ? ? ? ? ? ? ->|gf i best Ht ? ? Hm ? Ha Hi ? ?];
        try (split; auto; fail).
      split; auto; right; split; auto.
      exists (d_id best); split; auto.
      apply in_map, (min_by_keeps_ids _ _ Hm).
Qed.

(** The loop can only be cut short by a geofence that cannot be built or
    by an empty driver store. *)
Lemma loop_raise gfs ds :
  forall st st' ds' x,
    loop gfs st ds = (st', ds', Some x) ->
    (exists d, In d ds /\ check_geofence gfs (lat d) (lon d) = inl x) \/
    l_drivers st' = [].
Proof.
  induction ds as [|d rest IH]; simpl; intros st st' ds' x E.
  - inversion E.
  - destruct (body gfs st d) as [y|[st1 d1]] eqn:Hb.
    + inversion E; subst.
      apply assign_body_inl in Hb; destruct Hb as [_ [Hc|[gf [_ [_ Hd]]]]];
        eauto.
    + destruct (loop gfs st1 rest) as [[st2 rest'] e'] eqn:Hl.
      inversion E; subst; clear E.
      apply IH in Hl; destruct Hl as [[d' [Hin Hc]]|Hd]; eauto.
Qed.

(** Deliveries the loop passes over keep their place and content. *)
Lemma loop_settled gfs ds :
  forall st st' ds' e i d,
    loop gfs st ds = (st', ds', e) ->
    nth_error ds i = Some d -> settled gfs d ->
    nth_error ds' i = Some d.
Proof.
  induction ds as [|a rest IH]; simpl; intros st st' ds' e i d E Hn Hs.
  - destruct i; discriminate.
  - destruct (body gfs st a) as [y|[st1 a1]] eqn:Hb.
    + inversion E; subst; auto.
    + destruct (loop gfs st1 rest) as [[st2 rest'] e'] eqn:Hl.
      inversion E; subst; clear E.
      destruct i as [|i]; simpl in *.
      * inversion Hn; subst.
        destruct (assign_body_settled st Hs) as [st3 [Hb' _]].
        congruence.
      * eapply IH; eauto.
Qed.

(** When every delivery is passed over, the loop changes no driver. *)
Lemma loop_all_settled gfs ds :
  Forall (settled gfs) ds ->
  forall st, exists st',
    loop gfs st ds = (st', ds, None) /\
    l_drivers st' = l_drivers st /\ l_response st' = l_response st.
Proof.
  induction 1 as [|d rest Hd _ IH]; intros st; simpl; eauto.
  destruct (assign_body_settled st Hd) as [st1 [Hb [Hdrv Hresp]]].
  rewrite Hb.
  destruct (IH st1) as [st2 [Hl [Hdrv2 Hresp2]]]; rewrite Hl.
  exists st2; repeat split; congruence.
Qed.

(** A failing pass of the body fails again on the same drivers. *)
Lemma body_raise_again gfs st st2 d e :
  body gfs st d = inl e -> l_drivers st2 = l_drivers st ->
  body gfs st2 d = inl e.
Proof.
  unfold assign_body; intros E Hd.
  destruct (Py.truthy_int (assigned_driver d)); [discriminate|].
  destruct (check_geofence gfs (lat d) (lon d)) as [y|gf]; auto.
  simpl in *; destruct (Py.truthy_str gf); [discriminate|].
  unfold assign_driver in *; rewrite Hd.
  destruct (Py.min_by (key d) (l_drivers st)) as [y|[i best]]; auto.
  simpl in E; destruct (suggest_route _ _ _ _ _); discriminate.
Qed.

(** After its pass a delivery is one the loop passes over. *)
Lemma body_settles gfs st d st' d' :
  body gfs st d = inr (st', d') ->
  ~ In 0 (map d_id (l_drivers st)) ->
  settled gfs d'.
Proof.
  intros H Hz; apply assign_body_inr in H.
  destruct H as [Ht _ ->|gf _ Hc Hs _ _ _ ->|gf i best _ _ _ Hm _ Ha _ _ _].
  - left; auto.
  - right; destruct gf as [nm|]; [|discriminate].
    exists nm; split; auto.
    intros ->; discriminate.
  - left; rewrite Ha; simpl.
    destruct (d_id best =? 0) eqn:E; auto.
    apply Z.eqb_eq in E; exfalso; apply Hz; rewrite <- E.
    apply in_map, (min_by_keeps_ids _ _ Hm).
Qed.

Lemma loop_twice gfs ds :
  forall st st1 ds1 e,
    loop gfs st ds = (st1, ds1, e) ->
    ~ In 0 (map d_id (l_drivers st)) ->
    forall st2, l_drivers st2 = l_drivers st1 ->
      exists st3, loop gfs st2 ds1 = (st3, ds1, e) /\
                  l_drivers st3 = l_drivers st1.
Proof.
  induction ds as [|d rest IH]; simpl; intros st st1 ds1 e E Hz st2 Hd.
  - inversion E; subst; simpl; eauto.
  - destruct (body gfs st d) as [y|[st' d']] eqn:Hb.
    + inversion E; subst; simpl.
      rewrite (@body_raise_again gfs st1 st2 d y Hb Hd); eauto.
    + destruct (loop gfs st' rest) as [[st'' rest'] e'] eqn:Hl.
      inversion E; subst; clear E; simpl.
      destruct (assign_body_settled st2 (@body_settles gfs st d st' d' Hb Hz))
        as [st3 [Hb3 [Hd3 _]]].
      rewrite Hb3.
      rewrite <- (@body_keeps_ids gfs st d st' d' Hb) in Hz.
      destruct (IH _ _ _ _ Hl Hz st3) as [st4 [Hl4 Hd4]]; [congruence|].
      rewrite Hl4; eauto.
Qed.

End DispatchFacts.

(** ** Geofences that can always be checked *)

Lemma Polygon_total (shell : list coord) :
  (4 <= List.length (Shapely.close_ring shell))%nat ->
  Shapely.Polygon shell = inr (Shapely.close_ring shell).
Proof.
  unfold Shapely.Polygon; intros H.
  destruct shell as [|a r]; [simpl in H; lia|].
  destruct (Nat.ltb_spec (List.length (Shapely.close_ring (a :: r))) 4);
    [lia|reflexivity].
Qed.

Lemma Polygon_inr (shell ring : list coord) :
  Shapely.Polygon shell = inr ring ->
  ring = Shapely.close_ring shell /\
  (shell = [] \/ (3 <= List.length shell)%nat).
Proof.
  unfold Shapely.Polygon.
  destruct shell as [|a r]; [intros H; inversion H; auto|].
  destruct (Nat.ltb_spec (List.length (Shapely.close_ring (a :: r))) 4)
    as [|H4]; [discriminate|].
  intros H; inversion H; split; auto; right.
  unfold Shapely.close_ring in H4.
  destruct (Shapely.coord_eq_dec a (last (a :: r) a)); auto.
  - lia.
  - rewrite length_app in H4; simpl in *; lia.
Qed.

Lemma check_geofence_total (gfs : list Geofence) (la lo : Q) :
  geofences_wf gfs ->
  exists r, check_geofence gfs la lo = inr r /\
            (forall nm, r = Some nm -> nm <> EmptyString).
Proof.
  induction gfs as [|gf rest IH]; intros Hwf; simpl.
  - exists None; split; [reflexivity|discriminate].
  - destruct (Hwf gf (or_introl eq_refl)) as [Hlen Hnm].
    unfold geofence_contains; rewrite (Polygon_total _ Hlen); simpl.
    destruct (Shapely.contains _ _).
    + exists (Some (name gf)); split; auto; congruence.
    + apply IH; intros g Hg; apply Hwf; right; auto.
Qed.

Lemma initial_geofences_wf : geofences_wf initial_geofences.
Proof.
  intros gf [<-|[]]; split; [vm_compute; lia|discriminate].
Qed.

(** ** Invariants of the stores *)

Lemma Forall2_nth_error_r {A B : Type} (R : A -> B -> Prop) l l' :
  Forall2 R l l' ->
  forall k b, nth_error l' k = Some b ->
    exists a, nth_error l k = Some a /\ R a b.
Proof.
  induction 1 as [|a b l l' Hab _ IH]; intros [|k] y Hk; simpl in *;
    try discriminate.
  - inversion Hk; subst; eauto.
  - auto.
Qed.

Lemma Forall2_In_r {A B : Type} (R : A -> B -> Prop) l l' :
  Forall2 R l l' ->
  forall b, In b l' -> exists a, In a l /\ R a b.
Proof.
  intros HF b Hb; apply In_nth_error in Hb; destruct Hb as [k Hk].
  destruct (Forall2_nth_error_r HF _ Hk) as [a [Ha HR]].
  exists a; split; auto; eapply nth_error_In; eauto.
Qed.

Lemma drivers_wf_ids (drv drv' : list Driver) :
  map d_id drv' = map d_id drv -> drivers_wf drv -> drivers_wf drv'.
Proof.
  intros E Hwf k w' Hk.
  assert (H : nth_error (map d_id drv) k = Some (d_id w')).
  { rewrite <- E; apply map_nth_error; auto. }
  rewrite nth_error_map in H.
  destruct (nth_error drv k) as [w|] eqn:Hw; simpl in H; [|discriminate].
  inversion H as [E']; rewrite <- (Hwf _ _ Hw); auto.
Qed.

Lemma drivers_wf_nonzero (drv : list Driver) :
  drivers_wf drv -> ~ In 0 (map d_id drv).
Proof.
  intros Hwf Hin; apply in_map_iff in Hin; destruct Hin as [w [E Hw]].
  apply In_nth_error in Hw; destruct Hw as [k Hk].
  apply Hwf in Hk; lia.
Qed.

Lemma drivers_wf_app (drv : list Driver) (w : Driver) :
  drivers_wf drv -> d_id w = Z.of_nat (List.length drv) + 1 ->
  drivers_wf (drv ++ [w]).
Proof.
  intros Hwf Hid k x Hk.
  destruct (Nat.lt_ge_cases k (List.length drv)) as [Hlt|Hge].
  - rewrite nth_error_app1 in Hk; auto.
  - rewrite nth_error_app2 in Hk; auto.
    destruct (k - List.length drv)%nat as [|[|n]] eqn:E; simpl in Hk;
      try discriminate.
    inversion Hk; subst; rewrite Hid; f_equal; lia.
Qed.

Lemma deliveries_wf_app (ds : list Delivery) (x : Delivery) :
  deliveries_wf ds -> id x = Z.of_nat (List.length ds) + 1 ->
  deliveries_wf (ds ++ [x]).
Proof.
  intros Hwf Hid k y Hk.
  destruct (Nat.lt_ge_cases k (List.length ds)) as [Hlt|Hge].
  - rewrite nth_error_app1 in Hk; auto.
  - rewrite nth_error_app2 in Hk; auto.
    destruct (k - List.length ds)%nat as [|[|n]] eqn:E; simpl in Hk;
      try discriminate.
    inversion Hk; subst; rewrite Hid; f_equal; lia.
Qed.

(** Identifiers laid out by position are the integers from 1 on. *)
Lemma ids_by_position {A : Type} (f : A -> Z) (l : list A) :
  (forall k a, nth_error l k = Some a -> f a = Z.of_nat k + 1) ->
  map f l = map Z.of_nat (seq 1 (List.length l)).
Proof.
  intros H.
  apply nth_error_ext; intros k.
  rewrite !nth_error_map.
  destruct (nth_error l k) as [a|] eqn:Ha; simpl.
  - assert (Hlt : (k < List.length l)%nat)
      by (apply nth_error_Some; congruence).
    rewrite (nth_error_nth' _ 0%nat) by (rewrite length_seq; auto).
    rewrite seq_nth by auto; simpl.
    rewrite (H _ _ Ha); f_equal; lia.
  - apply nth_error_None in Ha.
    assert (E : nth_error (seq 1 (List.length l)) k = None)
      by (apply nth_error_None; rewrite length_seq; auto).
    rewrite E; reflexivity.
Qed.

Section InvariantFacts.

Variable haversine : coord -> coord -> Q.
Variable G : Graph.
Variable nearest_nodes : Graph -> Q -> Q -> result node.
Variable shortest_path : Graph -> node -> node -> result (list node).

Local Abbreviation run :=
  (assign_all haversine G nearest_nodes shortest_path).
Local Abbreviation loop :=
  (assign_loop haversine G nearest_nodes shortest_path).

Lemma Inv_initial : Inv initial_state.
Proof.
  constructor; simpl; try discriminate; auto.
  - intros [|[|[|[|k]]]] w Hk; simpl in Hk; inversion Hk; reflexivity.
  - intros [|k] d Hk; discriminate.
  - intros d w [].
Qed.

Lemma Inv_append_delivery s d x :
  Inv s -> new_delivery s d = inr x -> Inv (append_delivery s x).
Proof.
  intros [Hd Hj Hr Hg Hs] Hx.
  unfold new_delivery in Hx.
  apply bind_inr in Hx; destruct Hx as [la [_ Hx]].
  apply bind_inr in Hx; destruct Hx as [lo [_ Hx]].
  inversion Hx; subst; clear Hx.
  constructor; simpl; auto.
  - apply deliveries_wf_app; auto.
  - intros y w Hy Ha; apply in_app_or in Hy; destruct Hy as [Hy|[<-|[]]];
      [eauto|discriminate].
Qed.

Lemma Inv_add_deliveries data :
  forall s added, Inv s -> Inv (fst (add_deliveries s data added)).
Proof.
  induction data as [|d rest IH]; intros s added Hs; simpl; auto.
  destruct (new_delivery s d) as [e|x] eqn:Hx; simpl; auto.
  apply IH; eapply Inv_append_delivery; eauto.
Qed.

Lemma Inv_add_delivery s data : Inv s -> Inv (fst (add_delivery s data)).
Proof.
  destruct data as [d|l]; simpl; intros Hs.
  - destruct (new_delivery s d) as [e|x] eqn:Hx; simpl; auto.
    eapply Inv_append_delivery; eauto.
  - apply Inv_add_deliveries; auto.
Qed.

Lemma Inv_append_driver s d w :
  Inv s -> new_driver s d = inr w -> Inv (append_driver s w).
Proof.
  intros [Hd Hj Hr Hg Hs] Hw.
  unfold new_driver in Hw.
  apply bind_inr in Hw; destruct Hw as [nm [_ Hw]].
  apply bind_inr in Hw; destruct Hw as [la [_ Hw]].
  apply bind_inr in Hw; destruct Hw as [lo [_ Hw]].
  inversion Hw; subst; clear Hw.
  constructor; simpl; auto.
  - apply drivers_wf_app; auto.
  - intros y w Hy Ha; destruct (Hr y w Hy Ha) as [x [Hx E]].
    exists x; split; auto; apply in_or_app; auto.
  - destruct (drivers s); discriminate.
Qed.

Lemma Inv_add_drivers data :
  forall s added, Inv s -> Inv (fst (add_drivers s data added)).
Proof.
  induction data as [|d rest IH]; intros s added Hs; simpl; auto.
  destruct (new_driver s d) as [e|x] eqn:Hx; simpl; auto.
  apply IH; eapply Inv_append_driver; eauto.
Qed.

Lemma Inv_add_driver s data : Inv s -> Inv (fst (add_driver s data)).
Proof.
  destruct data as [d|l]; simpl; intros Hs.
  - destruct (new_driver s d) as [e|x] eqn:Hx; simpl; auto.
    eapply Inv_append_driver; eauto.
  - apply Inv_add_drivers; auto.
Qed.

(** The loop keeps the references of deliveries valid. *)
Lemma loop_refs_valid gfs st ds st' ds' e :
  loop gfs st ds = (st', ds', e) ->
  refs_valid (l_drivers st) ds ->
  refs_valid (l_drivers st') ds'.
Proof.
  intros Hl Hr d' w Hin Ha.
  apply loop_outcomes in Hl; destruct Hl as [Hids HF].
  assert (Hw : In w (map d_id (l_drivers st))).
  { destruct (Forall2_In_r HF _ Hin) as [d [Hd [_ [->|[_ [w' [Hw' E]]]]]]].
    - destruct (Hr d w Hd Ha) as [x [Hx <-]]; apply in_map; auto.
    - congruence. }
  rewrite <- Hids in Hw; apply in_map_iff in Hw.
  destruct Hw as [x [E Hx]]; eauto.
Qed.

Lemma Inv_assign_all s : Inv s -> Inv (fst (run s)).
Proof.
  intros [Hd Hj Hr Hg Hs]; unfold assign_all.
  destruct (loop _ _ _) as [[st ds] e] eqn:Hl; simpl.
  pose proof Hl as Hl'; apply loop_outcomes in Hl'.
  destruct Hl' as [Hids HF]; simpl in *.
  constructor; simpl; auto.
  - eapply drivers_wf_ids; eauto.
  - intros k d' Hk.
    destruct (Forall2_nth_error_r HF _ Hk) as [d [Hd' [Hid _]]].
    rewrite Hid; auto.
  - eapply loop_refs_valid in Hl; eauto.
  - intros E; rewrite E in Hids; simpl in Hids.
    destruct (drivers s); [auto|discriminate].
Qed.

Theorem reachable_Inv s :
  reachable haversine G nearest_nodes shortest_path s -> Inv s.
Proof.
  induction 1.
  - apply Inv_initial.
  - apply Inv_add_delivery; auto.
  - apply Inv_add_driver; auto.
  - apply Inv_assign_all; auto.
Qed.

(** In every state the service can reach, the conditions under which the
    claims on assignment are stated hold. *)
Corollary reachable_ready s :
  reachable haversine G nearest_nodes shortest_path s ->
  drivers_wf (drivers s) /\ drivers s <> [] /\
  ~ In 0 (map d_id (drivers s)) /\
  refs_valid (drivers s) (deliveries s) /\
  geofences_wf (geofences s).
Proof.
  intros H; apply reachable_Inv in H; destruct H as [Hd Hj Hr Hg Hs].
  split; [auto|]; split; [auto|]; split; [|split; [auto|]].
  - apply drivers_wf_nonzero; auto.
  - rewrite Hg; apply initial_geofences_wf.
Qed.

End InvariantFacts.

(** ** Claims on assignment *)

Section AssignmentClaims.

Variable haversine : coord -> coord -> Q.
Variable G : Graph.
Variable nearest_nodes : Graph -> Q -> Q -> result node.
Variable shortest_path : Graph -> node -> node -> result (list node).

Local Abbreviation key := (score haversine).
Local Abbreviation body :=
  (assign_body haversine G nearest_nodes shortest_path).
Local Abbreviation loop :=
  (assign_loop haversine G nearest_nodes shortest_path).
Local Abbreviation run :=
  (assign_all haversine G nearest_nodes shortest_path).

(** The first driver of minimal score has the lowest identifier among
    the drivers of minimal score. *)
Lemma first_minimum_lowest_id (d : Delivery) drv i best :
  drivers_wf drv ->
  Py.min_by (key d) drv = inr (i, best) ->
  In best drv /\
  (forall w, In w drv -> (key d best <= key d w)%Q) /\
  (forall w, In w drv -> (key d w == key d best)%Q -> d_id best <= d_id w).
Proof.
  intros Hwf Hm; apply PyFacts.min_by_spec in Hm.
  destruct Hm as [Hn [Hmin Hfirst]].
  split; [eapply nth_error_In; eauto|]; split; auto.
  intros w Hw Heq; apply In_nth_error in Hw; destruct Hw as [k Hk].
  rewrite (Hwf _ _ Hn), (Hwf _ _ Hk).
  destruct (Nat.lt_ge_cases k i) as [Hlt|Hge]; [|lia].
  specialize (Hfirst _ _ Hk Hlt); rewrite Heq in Hfirst.
  exfalso; eapply Qlt_irrefl; eauto.
Qed.

(** A delivery left without driver by a completed loop is geofenced. *)
Lemma loop_unassigned gfs ds :
  forall st st' ds',
    loop gfs st ds = (st', ds', None) ->
    forall d', In d' ds' -> assigned_driver d' = None -> geofenced gfs d'.
Proof.
  induction ds as [|d rest IH]; simpl; intros st st' ds' E d' Hin Ha.
  - inversion E; subst; destruct Hin.
  - destruct (body gfs st d) as [y|[st1 d1]] eqn:Hb; [discriminate|].
    destruct (loop gfs st1 rest) as [[st2 rest'] e'] eqn:Hl.
    inversion E; subst; clear E.
    destruct Hin as [<-|Hin]; [|eapply IH; eauto].
    apply assign_body_inr in Hb.
    destruct Hb as [Ht _ ->|gf _ Hc Hs _ _ _ ->|gf i best _ _ _ _ _ Hb _ _ _].
    + rewrite Ha in Ht; discriminate.
    + destruct gf as [nm|]; [|discriminate].
      exists nm; split; auto; intros ->; discriminate.
    + congruence.
Qed.

Lemma run_deliveries_length s :
  List.length (deliveries (fst (run s))) = List.length (deliveries s).
Proof.
  unfold assign_all.
  destruct (loop _ _ _) as [[st ds] e] eqn:Hl; simpl.
  apply loop_outcomes in Hl; destruct Hl as [_ HF].
  symmetry; eapply Forall2_length; eauto.
Qed.

End AssignmentClaims.

(** C1. Every delivery that the loop of [assign_all] assigns while the
    driver store is not empty goes to a driver for whom
    [haversine((lat, lon) of the driver, (lat, lon) of the delivery) +
    current_load] is minimal over all drivers of the store, and among the
    drivers for whom this sum is the same to the one with the lowest
    identifier.  With Alice (load 1, between 0 and 0.2 km away) and Bob
    (load 2, between 0.5 and 0.7 km away) in the store, in either order,
    Alice is assigned and her load becomes 2. *)
Theorem assign_picks_best_driver :
  (forall haversine G nearest_nodes shortest_path gfs st d gf,
      l_drivers st <> [] ->
      drivers_wf (l_drivers st) ->
      Py.truthy_int (assigned_driver d) = false ->
      check_geofence gfs (lat d) (lon d) = inr gf ->
      Py.truthy_str gf = false ->
      exists best st' d',
        assign_body haversine G nearest_nodes shortest_path gfs st d
          = inr (st', d') /\
        In best (l_drivers st) /\
        assigned_driver d' = Some (d_id best) /\
        (forall w, In w (l_drivers st) ->
           (haversine (d_lat best, d_lon best) (lat d, lon d)
            + inject_Z (current_load best)
            <= haversine (d_lat w, d_lon w) (lat d, lon d)
               + inject_Z (current_load w))%Q) /\
        (forall w, In w (l_drivers st) ->
           (haversine (d_lat w, d_lon w) (lat d, lon d)
            + inject_Z (current_load w)
            == haversine (d_lat best, d_lon best) (lat d, lon d)
               + inject_Z (current_load best))%Q ->
           d_id best <= d_id w)) /\
  (forall haversine drv lg job,
      drv = [Scenario.alice; Scenario.bob] \/
      drv = [Scenario.bob; Scenario.alice] ->
      let here := (lat job, lon job) in
      let a := haversine (d_lat Scenario.alice, d_lon Scenario.alice) here in
      let b := haversine (d_lat Scenario.bob, d_lon Scenario.bob) here in
      (0 <= a /\ a <= 0.2)%Q -> (0.5 <= b /\ b <= 0.7)%Q ->
      exists drv' lg' job' w,
        assign_driver haversine drv lg job = inr (drv', lg', job', w) /\
        assigned_driver job' = Some (d_id Scenario.alice) /\
        driver w = "Alice"%string /\ current_load w = 2 /\
        In w drv' /\ In Scenario.bob drv').
Proof.
  split.
  - intros haversine G nn sp gfs st d gf Hne Hwf Ht Hc Hs.
    destruct (assign_body_pending haversine G nn sp gfs st d Ht Hc Hs Hne)
      as [i [best [st' [d' [Hm [Hb [_ Ha]]]]]]].
    destruct (first_minimum_lowest_id haversine d Hwf Hm) as [Hin [Hmin Hid]].
    exists best, st', d'; auto.
  - intros haversine drv lg job Hdrv here a b [Ha0 Ha1] [Hb0 Hb1].
    destruct Hdrv as [->| ->]; unfold assign_driver; simpl;
      fold here; fold a; fold b;
      destruct (Qlt_le_dec _ _) as [Hlt|Hle]; simpl.
    + exfalso; change (b + 2 < a + 1)%Q in Hlt.
      clearbody a b; lra.
    + do 4 eexists; split; [reflexivity|]; simpl; auto 10.
    + do 4 eexists; split; [reflexivity|]; simpl; auto 10.
    + exfalso; change (b + 2 <= a + 1)%Q in Hle.
      clearbody a b; lra.
Qed.

Lemma assign_picks_best_driver_witness :
  let ann := mkDriver 1 "490000000000001" "Ann" 14.60 121.02 0 in
  let ben := mkDriver 2 "490000000000002" "Ben" 14.56 121.02 1 in
  let d := Scenario.job_outside in
  (exists best st' d',
      assign_body Scenario.haversine Scenario.G Scenario.nearest_nodes
        Scenario.shortest_path initial_geofences
        (mkLoop [ann; ben] [] []) d = inr (st', d') /\
      In best [ann; ben] /\
      assigned_driver d' = Some (d_id best) /\
      (forall w, In w [ann; ben] ->
         (Scenario.haversine (d_lat best, d_lon best) (lat d, lon d)
          + inject_Z (current_load best)
          <= Scenario.haversine (d_lat w, d_lon w) (lat d, lon d)
             + inject_Z (current_load w))%Q) /\
      (forall w, In w [ann; ben] ->
         (Scenario.haversine (d_lat w, d_lon w) (lat d, lon d)
          + inject_Z (current_load w)
          == Scenario.haversine (d_lat best, d_lon best) (lat d, lon d)
             + inject_Z (current_load best))%Q ->
         d_id best <= d_id w)) /\
  (exists drv' lg' job' w,
      assign_driver Scenario.haversine [Scenario.bob; Scenario.alice] []
        Scenario.job_makati = inr (drv', lg', job', w) /\
      assigned_driver job' = Some (d_id Scenario.alice) /\
      driver w = "Alice"%string /\ current_load w = 2 /\
      In w drv' /\ In Scenario.bob drv').
Proof.
  split.
  - apply (proj1 assign_picks_best_driver Scenario.haversine Scenario.G
             Scenario.nearest_nodes Scenario.shortest_path initial_geofences
             (mkLoop [mkDriver 1 "490000000000001" "Ann" 14.60 121.02 0;
                      mkDriver 2 "490000000000002" "Ben" 14.56 121.02 1]
                [] [])
             Scenario.job_outside None).
    + simpl; discriminate.
    + intros [|[|[|k]]] w Hk; simpl in Hk; inversion Hk; reflexivity.
    + reflexivity.
    + vm_compute; reflexivity.
    + reflexivity.
  - apply (proj2 assign_picks_best_driver Scenario.haversine
             [Scenario.bob; Scenario.alice] [] Scenario.job_makati);
      [right; reflexivity| |]; split; vm_compute; congruence.
Defined.

(** ** The loop over unvalidated coordinates *)


Section UnvalidatedFacts.

Variable float_of : Unvalidated.json -> result Q.
Variable haversine : Unvalidated.json * Unvalidated.json -> Unvalidated.json * Unvalidated.json -> result Q.
Variable G : Graph.
Variable nearest_nodes : Graph -> Unvalidated.json -> Unvalidated.json -> result node.
Variable shortest_path : Graph -> node -> node -> result (list node).

Local Abbreviation ubody :=
  (Unvalidated.assign_body float_of haversine G nearest_nodes shortest_path).
Local Abbreviation uloop :=
  (Unvalidated.assign_loop float_of haversine G nearest_nodes shortest_path).










End UnvalidatedFacts.

(** *** Stores of numbers

    On stores whose coordinates are numbers, and with library calls that
    do on numbers what the calls of the development above do, the loop
    over JSON values is the loop of the development above. *)

Section Agreement.

Variable float_of : Unvalidated.json -> result Q.
Variable haversine : coord -> coord -> Q.
Variable haversine' : Unvalidated.json * Unvalidated.json ->
                      Unvalidated.json * Unvalidated.json -> result Q.
Variable G : Graph.
Variable nearest_nodes : Graph -> Q -> Q -> result node.
Variable nearest_nodes' : Graph -> Unvalidated.json -> Unvalidated.json ->
                          result node.
Variable shortest_path : Graph -> node -> node -> result (list node).

Hypothesis Hlib : on_numbers haversine nearest_nodes haversine' nearest_nodes'.

Lemma json_keys (d : Delivery) (drv : list Driver) :
  mapM (Unvalidated.score haversine' (json_delivery d)) (map json_driver drv)
  = inr (map (score haversine d) drv).
Proof.
  induction drv as [|w drv IH]; simpl; [reflexivity|].
  unfold Unvalidated.score at 1; simpl.
  rewrite (proj1 Hlib); simpl; rewrite IH; reflexivity.
Qed.

Lemma min_from_combine {A B : Type} (f : A -> B) (key : A -> Q) (l : list A) :
  forall bi best i,
    Py.min_from snd bi (f best, key best) i
      (combine (map f l) (map key l))
    = (fst (Py.min_from key bi best i l),
       (f (snd (Py.min_from key bi best i l)),
        key (snd (Py.min_from key bi best i l)))).
Proof.
  induction l as [|a l IH]; intros bi best i; simpl; [reflexivity|].
  destruct (Qlt_le_dec (key a) (key best)); apply IH.
Qed.

Lemma json_min_by (d : Delivery) (drv : list Driver) :
  Unvalidated.min_by_key (Unvalidated.score haversine' (json_delivery d))
    (map json_driver drv)
  = match Py.min_by (score haversine d) drv with
    | inl e => inl e
    | inr (i, best) => inr (i, json_driver best)
    end.
Proof.
  unfold Unvalidated.min_by_key; rewrite json_keys; cbn [bind].
  destruct drv as [|w drv]; [reflexivity|].
  cbn [map combine Py.min_by ret bind].
  rewrite (min_from_combine json_driver (score haversine d)).
  destruct (Py.min_from _ _ _ _ _) as [j x]; reflexivity.
Qed.

Lemma json_suggest_route (a b : coord) :
  Unvalidated.suggest_route G nearest_nodes' shortest_path
    (Unvalidated.JNumber (fst a), Unvalidated.JNumber (snd a))
    (Unvalidated.JNumber (fst b), Unvalidated.JNumber (snd b))
  = suggest_route G nearest_nodes shortest_path a b.
Proof.
  unfold Unvalidated.suggest_route, suggest_route,
    Unvalidated.suggest_route_try, suggest_route_try; cbn [fst snd].
  rewrite !(proj2 Hlib); reflexivity.
Qed.

Lemma json_update_nth i (w : Driver) drv :
  update_nth i (json_driver w) (map json_driver drv)
  = map json_driver (update_nth i w drv).
Proof.
  revert i; induction drv as [|a drv IH]; intros [|i]; simpl; auto.
  rewrite IH; reflexivity.
Qed.

(** On a store of numbers a pass of the body does what the body of the
    development above does. *)
Lemma json_assign_body gfs st d :
  Unvalidated.assign_body float_of haversine' G nearest_nodes' shortest_path
    gfs (json_loop st) (json_delivery d)
  = match assign_body haversine G nearest_nodes shortest_path gfs st d with
    | inl e => inl e
    | inr (st', d') => inr (json_loop st', json_delivery d')
    end.
Proof.
  unfold Unvalidated.assign_body, assign_body.
  cbn [json_delivery Unvalidated.assigned_driver Unvalidated.lat
         Unvalidated.lon].
  destruct (Py.truthy_int (assigned_driver d)); [reflexivity|].
  unfold Unvalidated.check_geofence; cbn [Unvalidated.coordinate bind ret].
  destruct (check_geofence gfs (lat d) (lon d)) as [e|gf]; [reflexivity|].
  cbn [bind].
  destruct (Py.truthy_str gf).
  - unfold json_loop; simpl; rewrite map_app; reflexivity.
  - unfold Unvalidated.assign_driver, assign_driver.
    cbn [json_loop Unvalidated.l_drivers Unvalidated.l_log
           Unvalidated.l_response].
    change (Unvalidated.mkDelivery (id d) (Unvalidated.JNumber (lat d))
              (Unvalidated.JNumber (lon d)) (address d) (assigned_driver d)
              (eta_min d) (route_coords d)) with (json_delivery d).
    rewrite json_min_by.
    destruct (Py.min_by (score haversine d) (l_drivers st)) as [e|[i best]];
      [reflexivity|].
    cbn [bind ret fst snd].
    change (Unvalidated.increment_load (json_driver best))
      with (json_driver (increment_load best)).
    cbn [json_driver Unvalidated.d_lat Unvalidated.d_lon
           Unvalidated.set_assigned_driver json_delivery Unvalidated.lat
           Unvalidated.lon].
    pose proof (json_suggest_route
                  (d_lat (increment_load best), d_lon (increment_load best))
                  (lat (set_assigned_driver d (d_id best)),
                   lon (set_assigned_driver d (d_id best)))) as Hr.
    cbn [fst snd] in Hr; simpl in Hr; simpl.
    rewrite Hr.
    destruct (suggest_route G nearest_nodes shortest_path _ _) as [route eta].
    unfold json_loop; simpl.
    rewrite json_update_nth, map_app; reflexivity.
Qed.

Lemma json_assign_loop gfs ds :
  forall st,
    Unvalidated.assign_loop float_of haversine' G nearest_nodes'
      shortest_path gfs (json_loop st) (map json_delivery ds)
    = let '(st', ds', e) :=
        assign_loop haversine G nearest_nodes shortest_path gfs st ds in
      (json_loop st', map json_delivery ds', e).
Proof.
  induction ds as [|d ds IH]; intros st; simpl; [reflexivity|].
  rewrite json_assign_body.
  destruct (assign_body _ _ _ _ _ _ _) as [e|[st1 d1]]; [reflexivity|].
  rewrite IH.
  destruct (assign_loop _ _ _ _ _ _ _) as [[st2 ds2] e2]; reflexivity.
Qed.

(** On a store of numbers [assign_all] over JSON values is the [assign_all]
    of the development above. *)
Lemma json_assign_all s :
  Unvalidated.assign_all float_of haversine' G nearest_nodes' shortest_path
    (json_state s)
  = (json_state (fst (assign_all haversine G nearest_nodes shortest_path s)),
     snd (assign_all haversine G nearest_nodes shortest_path s)).
Proof.
  unfold Unvalidated.assign_all, assign_all.
  cbn [json_state Unvalidated.geofences Unvalidated.drivers
         Unvalidated.deliveries Unvalidated.activity_log].
  change (Unvalidated.mkLoop (map json_driver (drivers s))
            (map json_log (activity_log s)) [])
    with (json_loop (mkLoop (drivers s) (activity_log s) [])).
  rewrite json_assign_loop.
  destruct (assign_loop _ _ _ _ _ _ _) as [[st ds] e]; reflexivity.
Qed.

End Agreement.

Example sample_on_numbers :
  on_numbers Scenario.haversine Scenario.nearest_nodes
    Unvalidated.Sample.haversine Unvalidated.Sample.nearest_nodes.
Proof. split; reflexivity. Qed.




Example unvalidated_assign_all_two_jobs :
  let s := fst (Unvalidated.add_delivery Unvalidated.initial_state
             (Many [Unvalidated.mkDeliveryRequest
                      (Some (Unvalidated.JNumber 14.5555))
                      (Some (Unvalidated.JNumber 121.024)) None;
                    Unvalidated.mkDeliveryRequest
                      (Some (Unvalidated.JNumber 14.56))
                      (Some (Unvalidated.JNumber 121.02)) None])) in
  let s' := fst (Unvalidated.assign_all Unvalidated.Sample.float_of
                   Unvalidated.Sample.haversine Scenario.G
                   Unvalidated.Sample.nearest_nodes Scenario.shortest_path
                   s) in
  map Unvalidated.assigned_driver (Unvalidated.deliveries s')
  = [None; Some 3] /\
  map Unvalidated.current_load (Unvalidated.drivers s') = [1; 2; 1].
Proof. vm_compute; auto. Qed.

(** C3 as stated fails: with a geofenced delivery and a deliverable one
    in the store, one call leaves the first without driver and still raises
    a load, on behalf of the second. *)
Lemma geofenced_job_loads_counterexample :
  let s := mkState initial_drivers [Scenario.job_makati; Scenario.job_outside]
             initial_geofences [] in
  let s' := fst (assign_all Scenario.haversine Scenario.G
                   Scenario.nearest_nodes Scenario.shortest_path s) in
  In Scenario.job_makati (deliveries s) /\
  assigned_driver Scenario.job_makati = None /\
  check_geofence (geofences s) (lat Scenario.job_makati)
    (lon Scenario.job_makati) = inr (Some "No-Go Zone Makati"%string) /\
  map current_load (drivers s) = [1; 2; 0] /\
  map current_load (drivers s') = [1; 2; 1].
Proof.
  repeat split; try (vm_compute; reflexivity).
  left; reflexivity.
Qed.

(** C3, amended. A delivery without driver that lies inside a geofence is
    still in its place, unchanged and without driver, after [assign_all];
    its pass through the loop leaves every driver as it was; and a call in
    which every delivery is passed over (already assigned or geofenced)
    leaves the driver store, and so every load, unchanged. *)
Theorem geofenced_job_left_alone :
  forall haversine G nearest_nodes shortest_path s i d,
    nth_error (deliveries s) i = Some d ->
    assigned_driver d = None ->
    geofenced (geofences s) d ->
    let s' := fst (assign_all haversine G nearest_nodes shortest_path s) in
    nth_error (deliveries s') i = Some d /\
    (forall st, exists st',
        assign_body haversine G nearest_nodes shortest_path
          (geofences s) st d = inr (st', d) /\
        l_drivers st' = l_drivers st) /\
    (Forall (settled (geofences s)) (deliveries s) -> drivers s' = drivers s).
Proof.
  intros haversine G nn sp s i d Hn Ha Hg; unfold assign_all.
  destruct (assign_loop _ _ _ _ _ _ _) as [[st ds] e] eqn:Hl; simpl.
  assert (Hs : settled (geofences s) d) by (right; auto).
  repeat split.
  - eapply loop_settled; eauto.
  - intros st0.
    destruct (assign_body_settled haversine G nn sp st0 Hs)
      as [st' [Hb [Hd _]]]; eauto.
  - intros Hall.
    destruct (loop_all_settled haversine G nn sp Hall
                (mkLoop (drivers s) (activity_log s) []))
      as [st' [Hl' [Hd _]]].
    rewrite Hl' in Hl; inversion Hl; subst; auto.
Qed.

Lemma geofenced_job_left_alone_witness :
  let s := mkState initial_drivers [Scenario.job_makati]
             initial_geofences [] in
  let s' := fst (assign_all Scenario.haversine Scenario.G
                   Scenario.nearest_nodes Scenario.shortest_path s) in
  nth_error (deliveries s') 0 = Some Scenario.job_makati /\
  (forall st, exists st',
      assign_body Scenario.haversine Scenario.G Scenario.nearest_nodes
        Scenario.shortest_path (geofences s) st Scenario.job_makati
        = inr (st', Scenario.job_makati) /\
      l_drivers st' = l_drivers st) /\
  (Forall (settled (geofences s)) (deliveries s) -> drivers s' = drivers s).
Proof.
  apply (geofenced_job_left_alone Scenario.haversine Scenario.G
           Scenario.nearest_nodes Scenario.shortest_path
           (mkState initial_drivers [Scenario.job_makati]
              initial_geofences []) 0 (d := Scenario.job_makati)).
  - reflexivity.
  - reflexivity.
  - exists "No-Go Zone Makati"%string; split;
      [vm_compute; reflexivity|discriminate].
Defined.

(** C4. When no driver has identifier 0, a delivery that already names a
    driver is passed over by [assign_all]: it keeps its place, content and
    driver, and its pass through the loop returns the drivers, log and
    response as they were.  A second call of [assign_all] right after a
    first one leaves the driver store and the deliveries as the first call
    left them. *)
Theorem assign_all_idempotent :
  forall haversine G nearest_nodes shortest_path s,
    ~ In 0 (map d_id (drivers s)) ->
    let run := assign_all haversine G nearest_nodes shortest_path in
    let s1 := fst (run s) in
    let s2 := fst (run s1) in
    (forall i d w,
        nth_error (deliveries s) i = Some d ->
        assigned_driver d = Some w -> In w (map d_id (drivers s)) ->
        nth_error (deliveries s1) i = Some d /\
        forall st,
          assign_body haversine G nearest_nodes shortest_path
            (geofences s) st d = inr (st, d)) /\
    drivers s2 = drivers s1 /\
    deliveries s2 = deliveries s1.
Proof.
  intros haversine G nn sp s Hz run s1 s2; split.
  - intros i d w Hn Ha Hw.
    assert (Ht : Py.truthy_int (assigned_driver d) = true).
    { rewrite Ha; simpl; destruct (w =? 0) eqn:E; auto.
      apply Z.eqb_eq in E; subst; contradiction. }
    split.
    + subst s1 run; unfold assign_all.
      destruct (assign_loop _ _ _ _ _ _ _) as [[st ds] e] eqn:Hl; simpl.
      eapply loop_settled; eauto; left; auto.
    + intros st; unfold assign_body; rewrite Ht; reflexivity.
  - subst s2 s1 run; unfold assign_all.
    destruct (assign_loop haversine G nn sp (geofences s) _ (deliveries s))
      as [[st1 ds1] e1] eqn:Hl1; simpl.
    destruct (@loop_twice haversine G nn sp _ _ _ _ _ _ Hl1 Hz
                (mkLoop (l_drivers st1) (l_log st1) []) eq_refl)
      as [st3 [Hl3 Hd3]].
    rewrite Hl3; simpl; auto.
Qed.

Lemma assign_all_idempotent_witness :
  let run := assign_all Scenario.haversine Scenario.G
               Scenario.nearest_nodes Scenario.shortest_path in
  let s := fst (run (mkState initial_drivers
                       [Scenario.job_makati; Scenario.job_outside]
                       initial_geofences [])) in
  let s1 := fst (run s) in
  let s2 := fst (run s1) in
  (forall i d w,
      nth_error (deliveries s) i = Some d ->
      assigned_driver d = Some w -> In w (map d_id (drivers s)) ->
      nth_error (deliveries s1) i = Some d /\
      forall st,
        assign_body Scenario.haversine Scenario.G Scenario.nearest_nodes
          Scenario.shortest_path (geofences s) st d = inr (st, d)) /\
  drivers s2 = drivers s1 /\
  deliveries s2 = deliveries s1.
Proof.
  apply (assign_all_idempotent Scenario.haversine Scenario.G
           Scenario.nearest_nodes Scenario.shortest_path).
  vm_compute; intros [H|[H|[H|[]]]]; discriminate.
Defined.

(** ** Claims on intake *)

Lemma new_delivery_id s d x :
  new_delivery s d = inr x ->
  id x = Z.of_nat (List.length (deliveries s)) + 1.
Proof.
  unfold new_delivery; intros H.
  apply bind_inr in H; destruct H as [la [_ H]].
  apply bind_inr in H; destruct H as [lo [_ H]].
  inversion H; reflexivity.
Qed.

Lemma intakes_length reqs :
  Forall complete reqs ->
  forall s, List.length (deliveries (intakes s reqs))
            = (List.length (deliveries s) + List.length reqs)%nat.
Proof.
  induction 1 as [|r reqs [Hla Hlo] _ IH]; intros s; simpl; [lia|].
  unfold intakes in *; simpl; rewrite IH.
  unfold new_delivery.
  destruct (q_lat r) as [la|]; [|congruence].
  destruct (q_lon r) as [lo|]; [|congruence].
  simpl; rewrite length_app; simpl; lia.
Qed.

Lemma intakes_reachable haversine G nearest_nodes shortest_path reqs :
  forall s,
    reachable haversine G nearest_nodes shortest_path s ->
    reachable haversine G nearest_nodes shortest_path (intakes s reqs).
Proof.
  induction reqs as [|r reqs IH]; intros s Hs; [exact Hs|].
  change (reachable haversine G nearest_nodes shortest_path
            (intakes (fst (add_delivery s (One r))) reqs)).
  apply IH; apply reach_add_delivery; auto.
Qed.

(** C9. A delivery created by the intake gets as identifier the number of
    deliveries in the store once it is inserted; in every state the service
    can reach the identifiers of the deliveries are, in order, 1, 2, ...
    up to the number of deliveries, all distinct; and after [n] intakes on
    the empty store they are exactly 1 to [n]. *)
Theorem delivery_ids_consecutive :
  forall haversine G nearest_nodes shortest_path s,
    reachable haversine G nearest_nodes shortest_path s ->
    (forall d x, new_delivery s d = inr x ->
       id x = Z.of_nat (List.length (deliveries (append_delivery s x)))) /\
    map id (deliveries s)
      = map Z.of_nat (seq 1 (List.length (deliveries s))) /\
    NoDup (map id (deliveries s)) /\
    (forall reqs, Forall complete reqs ->
       map id (deliveries (intakes initial_state reqs))
         = map Z.of_nat (seq 1 (List.length reqs))).
Proof.
  intros haversine G nn sp s Hs.
  assert (Hids : forall s0, reachable haversine G nn sp s0 ->
            map id (deliveries s0)
              = map Z.of_nat (seq 1 (List.length (deliveries s0)))).
  { intros s0 H0; apply reachable_Inv in H0.
    apply ids_by_position, (inv_deliveries H0). }
  repeat split.
  - intros d x Hx; rewrite (new_delivery_id _ _ Hx); simpl.
    rewrite length_app; simpl; lia.
  - auto.
  - rewrite (Hids _ Hs).
    apply Injective_map_NoDup; [|apply seq_NoDup].
    intros a b; apply Nat2Z.inj.
  - intros reqs Hc.
    rewrite (Hids _ (intakes_reachable reqs (reach_init _ _ _ _))).
    rewrite (intakes_length Hc); reflexivity.
Qed.

Lemma delivery_ids_consecutive_witness :
  let s := fst (add_delivery initial_state
                  (Many [mkDeliveryRequest (Some 14.5555%Q) (Some 121.024%Q)
                           None;
                         mkDeliveryRequest (Some 14.56%Q) (Some 121.02%Q)
                           (Some "Ayala Avenue"%string)])) in
  (forall d x, new_delivery s d = inr x ->
     id x = Z.of_nat (List.length (deliveries (append_delivery s x)))) /\
  map id (deliveries s)
    = map Z.of_nat (seq 1 (List.length (deliveries s))) /\
  NoDup (map id (deliveries s)) /\
  (forall reqs, Forall complete reqs ->
     map id (deliveries (intakes initial_state reqs))
       = map Z.of_nat (seq 1 (List.length reqs))).
Proof.
  apply (@delivery_ids_consecutive Scenario.haversine Scenario.G
           Scenario.nearest_nodes Scenario.shortest_path).
  apply reach_add_delivery; apply reach_init.
Defined.

(** ** Rounding *)

Module RoundFacts.

Local Open Scope Q_scope.

Lemma round_half_even_near (q : Q) :
  Qabs (inject_Z (Py.round_half_even q) - q) <= 1 # 2.
Proof.
  unfold Py.round_half_even.
  pose proof (Qfloor_le q) as Hlo.
  pose proof (Qlt_floor q) as Hhi.
  rewrite inject_Z_plus in Hhi; change (inject_Z 1) with 1 in Hhi.
  set (f := Qfloor q) in *.
  apply Qabs_Qle_condition.
  destruct (Qcompare_spec (q - inject_Z f) (1 # 2)) as [E|L|L].
  - destruct (Z.even f);
      [|rewrite inject_Z_plus; change (inject_Z 1) with 1]; split; lra.
  - split; lra.
  - rewrite inject_Z_plus; change (inject_Z 1) with 1; split; lra.
Qed.


Lemma pow2_pos (e : Z) : 0 < Py.pow2 e.
Proof.
  unfold Py.pow2; destruct (0 <=? e)%Z eqn:E.
  - apply Z.leb_le in E.
    change 0 with (inject_Z 0); rewrite <- Zlt_Qlt.
    apply Z.pow_pos_nonneg; lia.
  - reflexivity.
Qed.






Lemma round1_comp (x y : Q) : x == y -> Py.round1 x = Py.round1 y.
Proof.
  intros E; unfold Py.round1, Py.round_half_even.
  assert (E10 : x * 10 == y * 10) by (rewrite E; reflexivity).
  rewrite (Qfloor_comp _ _ E10).
  assert (Ec : (x * 10 - inject_Z (Qfloor (y * 10)) ?= 1 # 2)
               = (y * 10 - inject_Z (Qfloor (y * 10)) ?= 1 # 2)).
  { apply Qcompare_comp; [rewrite E10|]; reflexivity. }
  rewrite Ec; reflexivity.
Qed.

Lemma inject_pow2_pos (n : Z) : (0 <= n)%Z -> 0 < inject_Z (2 ^ n).
Proof.
  intros H; change 0 with (inject_Z 0); rewrite <- Zlt_Qlt.
  apply Z.pow_pos_nonneg; lia.
Qed.

(** [pow2 e] as a quotient of powers of two with natural exponents. *)
Lemma pow2_frac (e n : Z) :
  (0 <= n)%Z -> (0 <= e + n)%Z ->
  Py.pow2 e == inject_Z (2 ^ (e + n)) / inject_Z (2 ^ n).
Proof.
  intros Hn Hen.
  pose proof (inject_pow2_pos Hn) as Pn.
  unfold Py.pow2; destruct (Z.leb_spec 0 e) as [He|He].
  - rewrite Z.pow_add_r, inject_Z_mult by lia.
    field; intros E; rewrite E in Pn; discriminate.
  - assert (Pe : (0 < 2 ^ (- e))%Z) by (apply Z.pow_pos_nonneg; lia).
    assert (E : (2 ^ n = 2 ^ (e + n) * 2 ^ (- e))%Z).
    { rewrite <- Z.pow_add_r by lia; f_equal; lia. }
    rewrite E, inject_Z_mult.
    assert (P1 : 0 < inject_Z (2 ^ (e + n))) by (apply inject_pow2_pos; auto).
    assert (P2 : 0 < inject_Z (2 ^ (- e))) by (apply inject_pow2_pos; lia).
    assert (E1 : 1 # Z.to_pos (2 ^ (- e)) == / inject_Z (2 ^ (- e))).
    { unfold Qeq, Qinv, inject_Z; simpl.
      destruct (2 ^ (- e))%Z eqn:E'; try lia; simpl; lia. }
    rewrite E1; field; split; intros Z0;
      [rewrite Z0 in P2|rewrite Z0 in P1]; discriminate.
Qed.

(** [exponent a] is the exponent of the binade of [a]. *)
Lemma exponent_spec (a : Q) :
  0 < a ->
  Py.pow2 (Py.exponent a) <= a /\ a < Py.pow2 (Py.exponent a + 1).
Proof.
  intros Ha; unfold Py.exponent.
  destruct a as [n d]; cbn [Qnum Qden].
  assert (Hn : (0 < n)%Z) by (unfold Qlt in Ha; simpl in Ha; lia).
  set (n' := Z.log2 n); set (d' := Z.log2 (Z.pos d)).
  assert (Hn' : (0 <= n')%Z) by apply Z.log2_nonneg.
  assert (Hd' : (0 <= d')%Z) by apply Z.log2_nonneg.
  destruct (Z.log2_spec n Hn) as [N1 N2]; fold n' in N1, N2.
  destruct (Z.log2_spec (Z.pos d) (Pos2Z.is_pos d)) as [D1 D2];
    fold d' in D1, D2.
  replace (Z.succ n') with (n' + 1)%Z in N2 by lia.
  replace (Z.succ d') with (d' + 1)%Z in D2 by lia.
  assert (Pd : (0 < 2 ^ d')%Z) by (apply Z.pow_pos_nonneg; lia).
  assert (Pn : (0 < 2 ^ n')%Z) by (apply Z.pow_pos_nonneg; lia).
  assert (Up : n # d < Py.pow2 (n' - d' + 1)).
  { rewrite (@pow2_frac (n' - d' + 1) d') by lia.
    replace (n' - d' + 1 + d')%Z with (n' + 1)%Z by lia.
    apply Qlt_shift_div_l; [apply inject_pow2_pos; auto|].
    unfold Qlt, Qmult, inject_Z; simpl; nia. }
  assert (Lo : Py.pow2 (n' - d' - 1) < n # d).
  { rewrite (@pow2_frac (n' - d' - 1) (d' + 1)) by lia.
    replace (n' - d' - 1 + (d' + 1))%Z with n' by lia.
    apply Qlt_shift_div_r; [apply inject_pow2_pos; lia|].
    unfold Qlt, Qmult, inject_Z; simpl; nia. }
  destruct (Qle_bool (Py.pow2 (n' - d')) (n # d)) eqn:E.
  - apply Qle_bool_iff in E; split; auto.
  - split; [apply Qlt_le_weak; auto|].
    replace (n' - d' - 1 + 1)%Z with (n' - d')%Z by lia.
    destruct (Qlt_le_dec (n # d) (Py.pow2 (n' - d'))) as [L|L]; auto.
    apply Qle_bool_iff in L; congruence.
Qed.

(** [float64 x] lies on the grid of spacing [pow2 e], where [e] is the
    exponent of the last bit of a 53-bit significand in the binade of [x]
    (not below -1074), and no point of the grid is nearer to [x]: it is
    within half the spacing. *)
Lemma float64_nearest (x : Q) :
  let e := Z.max (Py.exponent (Qabs (Qred x)) - 52) (-1074) in
  (exists m : Z, Py.float64 x == inject_Z m * Py.pow2 e) /\
  Qabs (Py.float64 x - x) <= Py.pow2 e * (1 # 2).
Proof.
  intros e; unfold Py.float64; fold e.
  set (q := Qred x).
  assert (Eq : q == x) by apply Qred_correct.
  set (t := Qabs q / Py.pow2 e).
  pose proof (pow2_pos e) as Pe.
  split; [eexists; apply Qred_correct|].
  rewrite Qred_correct, <- Eq.
  pose proof (round_half_even_near t) as Hn.
  assert (Ha : Qabs q == t * Py.pow2 e).
  { unfold t; field; intros Z0; rewrite Z0 in Pe; discriminate. }
  assert (Hs : q == inject_Z (Z.sgn (Qnum q)) * Qabs q).
  { destruct q as [[|p|p] d]; unfold Qabs, Qeq, Qmult, inject_Z; simpl; lia. }
  rewrite inject_Z_mult.
  rewrite Hs at 2.
  setoid_replace (inject_Z (Z.sgn (Qnum q)) * inject_Z (Py.round_half_even t)
                  * Py.pow2 e - inject_Z (Z.sgn (Qnum q)) * Qabs q)
    with (inject_Z (Z.sgn (Qnum q))
          * ((inject_Z (Py.round_half_even t) - t) * Py.pow2 e))
    by (rewrite Ha; ring).
  rewrite !Qabs_Qmult.
  rewrite (Qabs_pos (Py.pow2 e)) by (apply Qlt_le_weak; auto).
  assert (S1 : Qabs (inject_Z (Z.sgn (Qnum q))) <= 1).
  { destruct (Qnum q); vm_compute; discriminate. }
  assert (N1 : 0 <= Qabs (inject_Z (Py.round_half_even t) - t))
    by apply Qabs_nonneg.
  set (u := Qabs (inject_Z (Py.round_half_even t) - t)) in *.
  set (s := Qabs (inject_Z (Z.sgn (Qnum q)))) in *.
  assert (S0 : 0 <= s) by apply Qabs_nonneg.
  assert (B1 : u * Py.pow2 e <= (1 # 2) * Py.pow2 e).
  { apply Qmult_le_compat_r; [exact Hn|apply Qlt_le_weak; auto]. }
  assert (B0 : 0 <= u * Py.pow2 e).
  { apply Qmult_le_0_compat; [auto|apply Qlt_le_weak; auto]. }
  assert (B2 : s * (u * Py.pow2 e) <= 1 * (u * Py.pow2 e)).
  { apply Qmult_le_compat_r; auto. }
  set (v := u * Py.pow2 e) in *; clearbody v u s; lra.
Qed.

End RoundFacts.

(** ** Claims on routing *)

Section RouterFacts.

Variable G : Graph.
Variable nearest_nodes : Graph -> Q -> Q -> result node.
Variable shortest_path : Graph -> node -> node -> result (list node).

Local Abbreviation try := (suggest_route_try G nearest_nodes shortest_path).
Local Abbreviation route := (suggest_route G nearest_nodes shortest_path).

(** A successful [try] block went through every step. *)
Lemma suggest_route_try_inr origin destination coords eta :
  try origin destination = inr (coords, eta) ->
  exists u v nodes lengths,
    nearest_nodes G (snd origin) (fst origin) = inr u /\
    nearest_nodes G (snd destination) (fst destination) = inr v /\
    shortest_path G u v = inr nodes /\
    mapM (node_yx G) nodes = inr coords /\
    get_route_edge_attributes G nodes = inr lengths /\
    eta = Py.round1 (Py.truediv (Py.sum lengths) 500).
Proof.
  unfold suggest_route_try; intros H.
  apply bind_inr in H; destruct H as [u [Hu H]].
  apply bind_inr in H; destruct H as [v [Hv H]].
  apply bind_inr in H; destruct H as [nodes [Hn H]].
  apply bind_inr in H; destruct H as [cs [Hc H]].
  apply bind_inr in H; destruct H as [ls [Hl H]].
  inversion H; subst.
  exists u, v, nodes, ls; auto 10.
Qed.

Lemma suggest_route_of_try origin destination r :
  try origin destination = inr r -> route origin destination = r.
Proof. unfold suggest_route; intros ->; reflexivity. Qed.

Lemma suggest_route_failed origin destination e :
  try origin destination = inl e -> route origin destination = ([], 0%Q).
Proof. unfold suggest_route; intros ->; reflexivity. Qed.

Lemma mapM_length {A B : Type} (f : A -> result B) (l : list A) (r : list B) :
  mapM f l = inr r -> List.length r = List.length l.
Proof.
  revert r; induction l as [|a l IH]; simpl; intros r H.
  - inversion H; reflexivity.
  - apply bind_inr in H; destruct H as [b [_ H]].
    apply bind_inr in H; destruct H as [bs [Hbs H]].
    inversion H; subst; simpl; f_equal; auto.
Qed.

(** The lengths read along a route are the lengths of a walk of the
    network through the route. *)
Lemma route_is_walk (rest : list node) :
  forall u lengths,
    get_route_edge_attributes G (u :: rest) = inr lengths ->
    exists es, walk G u (last rest u) es /\ map e_length es = lengths.
Proof.
  induction rest as [|v rest IH]; intros u lengths H.
  - simpl in H; inversion H; subst; exists []; split; [constructor|auto].
  - change (get_route_edge_attributes G (u :: v :: rest))
      with (bind (match Py.min_by (fun x => x) (edge_lengths G u v) with
                  | inl _ => raise AttributeError
                  | inr (_, l) => ret l
                  end)
              (fun data =>
                 bind (get_route_edge_attributes G (v :: rest))
                   (fun rest0 => ret (data :: rest0)))) in H.
    apply bind_inr in H; destruct H as [l [Hmin H]].
    apply bind_inr in H; destruct H as [ls [Hrest H]].
    inversion H; subst; clear H.
    destruct (Py.min_by (fun x => x) (edge_lengths G u v))
      as [x|[j l']] eqn:Hm; [discriminate|].
    inversion Hmin; subst; clear Hmin.
    apply PyFacts.min_by_spec in Hm; destruct Hm as [Hn _].
    apply nth_error_In in Hn; unfold edge_lengths in Hn.
    apply in_map_iff in Hn; destruct Hn as [e [El He]].
    apply filter_In in He; destruct He as [He Huv].
    apply andb_prop in Huv; destruct Huv as [Hu Hv].
    apply Z.eqb_eq in Hu, Hv.
    destruct (IH _ _ Hrest) as [es [Hw Hes]].
    exists (e :: es); split.
    + rewrite <- Hu; constructor; auto.
      rewrite Hv.
      replace (last (v :: rest) (e_u e)) with (last rest v); auto.
      clear; revert v; induction rest as [|a r IHr]; intros v; simpl; auto.
      destruct r; auto. 
    + simpl; congruence.
Qed.

End RouterFacts.

(** [suggest_route] of [app.py] returns the length of a shortest walk
    divided by 500, rounded, whenever the path handed back by [nx.shortest_path] starts
    and ends where asked and is not longer than any walk between the two
    nodes. *)
Lemma suggest_route_eta_shortest G nearest_nodes shortest_path
    origin destination coords eta :
  suggest_route_try G nearest_nodes shortest_path origin destination
    = inr (coords, eta) ->
  (forall u v nodes,
      shortest_path G u v = inr nodes ->
      hd_error nodes = Some u /\ last nodes u = v /\
      forall lengths es,
        get_route_edge_attributes G nodes = inr lengths ->
        walk G u v es -> (Py.sum lengths <= walk_length es)%Q) ->
  exists u v len,
    nearest_nodes G (snd origin) (fst origin) = inr u /\
    nearest_nodes G (snd destination) (fst destination) = inr v /\
    shortest_length G u v len /\
    eta = Py.round1 (Py.truediv len 500) /\
    suggest_route G nearest_nodes shortest_path origin destination
      = (coords, eta).
Proof.
  intros Ht Hsp.
  pose proof (suggest_route_of_try _ _ _ _ _ Ht) as Hr.
  apply suggest_route_try_inr in Ht.
  destruct Ht as [u [v [nodes [lengths [Hu [Hv [Hn [_ [Hl ->]]]]]]]]].
  destruct (Hsp _ _ _ Hn) as [Hhd [Hlast Hopt]].
  destruct nodes as [|u' rest]; [discriminate|].
  inversion Hhd; subst u'.
  destruct (route_is_walk _ _ _ Hl) as [es [Hw Hes]].
  assert (Hv' : last rest u = v).
  { rewrite <- Hlast; clear; destruct rest; reflexivity. }
  rewrite Hv' in Hw.
  exists u, v, (Py.sum lengths).
  split; [auto|]; split; [auto|]; split; [|split; auto].
  split.
  - exists es; split; auto.
    unfold walk_length; rewrite Hes; reflexivity.
  - intros es' Hw'; eapply Hopt; eauto.
Qed.



(** C6. When the nearest-node lookup fails for either point, or
    [nx.shortest_path] fails for the two nodes found (no path, unknown
    node), [suggest_route] returns the empty list of coordinates with ETA 0;
    the same holds for every exception of the [try] block, so none reaches
    the caller. *)
Theorem unroutable_gives_empty_route :
  forall G nearest_nodes shortest_path origin destination,
    (raises (nearest_nodes G (snd origin) (fst origin)) \/
     raises (nearest_nodes G (snd destination) (fst destination)) \/
     (exists u v,
         nearest_nodes G (snd origin) (fst origin) = inr u /\
         nearest_nodes G (snd destination) (fst destination) = inr v /\
         raises (shortest_path G u v)) \/
     raises (suggest_route_try G nearest_nodes shortest_path
               origin destination)) ->
    suggest_route G nearest_nodes shortest_path origin destination
      = ([], 0%Q).
Proof.
  intros G nn sp origin destination H.
  assert (Hr : raises (suggest_route_try G nn sp origin destination)).
  { unfold suggest_route_try.
    destruct H as [[e H]|[[e H]|[[u [v [Hu [Hv [e H]]]]]|H]]]; auto.
    - exists e; rewrite H; reflexivity.
    - destruct (nn G (snd origin) (fst origin)) as [e'|u]; simpl.
      + exists e'; reflexivity.
      + exists e; rewrite H; reflexivity.
    - exists e; rewrite Hu, Hv; simpl; rewrite H; reflexivity. }
  destruct Hr as [e He]; eapply suggest_route_failed; eauto.
Qed.

Lemma unroutable_gives_empty_route_witness :
  suggest_route Scenario.G Scenario.nearest_nodes Scenario.shortest_path
    (14.56, 121.02)%Q (14.5547, 121.0244)%Q = ([], 0%Q).
Proof.
  apply (unroutable_gives_empty_route Scenario.G Scenario.nearest_nodes
           Scenario.shortest_path (14.56, 121.02)%Q (14.5547, 121.0244)%Q).
  right; right; left; exists 2, 1; repeat split.
  exists NetworkXNoPath; reflexivity.
Defined.

(** C5 on [tempCodeRunnerFile.py]. On the network of scenario A (two
    nodes, one edge of 800 metres between them) its [suggest_route] returns
    two coordinates and ETA 3.2, not 1.6: the length of the shortest path is
    added once per node of the path. *)
Theorem temp_suggest_route_doubles_eta :
  forall nearest_nodes shortest_path shortest_path_length,
    nearest_nodes Scenario.G 121.0244%Q 14.5547%Q = inr 1 ->
    nearest_nodes Scenario.G 121.02%Q 14.56%Q = inr 2 ->
    shortest_path Scenario.G 1 2 = inr [1; 2] ->
    shortest_path_length Scenario.G 1 2 = inr 800%Q ->
    exists coords eta,
      TempCodeRunnerFile.suggest_route Scenario.G nearest_nodes
        shortest_path shortest_path_length
        (14.5547, 121.0244)%Q (14.56, 121.02)%Q = (coords, eta) /\
      List.length coords = 2%nat /\
      (eta == 3.2)%Q /\ ~ (eta == 1.6)%Q.
Proof.
  intros nn sp spl Hu Hv Hp Hl.
  unfold TempCodeRunnerFile.suggest_route,
    TempCodeRunnerFile.suggest_route_try; simpl.
  rewrite Hu, Hv; simpl; rewrite Hp; simpl; rewrite Hl; simpl.
  do 2 eexists; repeat split.
  vm_compute; discriminate.
Qed.

Lemma temp_suggest_route_doubles_eta_witness :
  exists coords eta,
    TempCodeRunnerFile.suggest_route Scenario.G Scenario.nearest_nodes
      Scenario.shortest_path Scenario.shortest_path_length
      (14.5547, 121.0244)%Q (14.56, 121.02)%Q = (coords, eta) /\
    List.length coords = 2%nat /\
    (eta == 3.2)%Q /\ ~ (eta == 1.6)%Q.
Proof.
  apply (temp_suggest_route_doubles_eta Scenario.nearest_nodes
           Scenario.shortest_path Scenario.shortest_path_length);
    vm_compute; reflexivity.
Defined.

(** Scenario A on [app.py]: two coordinates and ETA 1.6. *)
Lemma suggest_route_scenario_A nearest_nodes shortest_path :
  nearest_nodes Scenario.G 121.0244%Q 14.5547%Q = inr 1 ->
  nearest_nodes Scenario.G 121.02%Q 14.56%Q = inr 2 ->
  shortest_path Scenario.G 1 2 = inr [1; 2] ->
  exists coords eta,
    suggest_route Scenario.G nearest_nodes shortest_path
      (14.5547, 121.0244)%Q (14.56, 121.02)%Q = (coords, eta) /\
    List.length coords = 2%nat /\ (eta == 1.6)%Q.
Proof.
  intros Hu Hv Hp.
  unfold suggest_route, suggest_route_try; simpl.
  rewrite Hu, Hv; simpl; rewrite Hp; simpl.
  do 2 eexists; repeat split.
Qed.

(** ** Claims on clustering *)

(** One delivery or none: a single cluster with every delivery. *)
Lemma cluster_deliveries_small fit ds k :
  (List.length ds <= 1)%nat ->
  cluster_deliveries fit ds k = inr [(0%nat, ds)].
Proof.
  intros H; unfold cluster_deliveries.
  destruct (Nat.leb_spec (List.length ds) 1); [reflexivity|lia].
Qed.

Lemma Scenario_fit_refuses : refuses_too_few_samples Scenario.KMeans_fit.
Proof.
  intros k X H; unfold Scenario.KMeans_fit.
  destruct (Nat.eqb_spec k 0); [reflexivity|].
  destruct (Nat.ltb_spec (List.length X) k); [reflexivity|lia].
Qed.

(** C7 as stated fails: two deliveries and three clusters end in a
    [ValueError], not in three clusters. *)
Lemma cluster_deliveries_counterexample :
  cluster_deliveries Scenario.KMeans_fit
    [Scenario.job_makati; Scenario.job_outside] 3 = inl ValueError /\
  ~ (exists clusters,
        cluster_deliveries Scenario.KMeans_fit
          [Scenario.job_makati; Scenario.job_outside] 3 = inr clusters /\
        List.length clusters = 3%nat).
Proof.
  split; [reflexivity|].
  intros [clusters [H _]]; discriminate.
Qed.

(** C7, amended. With at least two deliveries and more clusters asked for
    than there are deliveries, [cluster_deliveries] returns no clusters:
    the fit, which refuses fewer samples than clusters, ends in a
    [ValueError], and the error reaches the caller. *)
Theorem cluster_deliveries_too_many_clusters :
  forall fit ds k,
    refuses_too_few_samples fit ->
    (2 <= List.length ds)%nat -> (List.length ds < k)%nat ->
    cluster_deliveries fit ds k = inl ValueError.
Proof.
  intros fit ds k Hfit H2 Hk; unfold cluster_deliveries.
  destruct (Nat.leb_spec (List.length ds) 1); [lia|].
  rewrite Hfit; [reflexivity|].
  rewrite length_map; auto.
Qed.

Lemma cluster_deliveries_too_many_clusters_witness :
  cluster_deliveries Scenario.KMeans_fit
    [Scenario.job_makati; Scenario.job_outside] 3 = inl ValueError.
Proof.
  apply (@cluster_deliveries_too_many_clusters Scenario.KMeans_fit
           [Scenario.job_makati; Scenario.job_outside] 3).
  - intros k X H; unfold Scenario.KMeans_fit.
    destruct (Nat.eqb_spec k 0); [reflexivity|].
    destruct (Nat.ltb_spec (List.length X) k); [reflexivity|lia].
  - simpl; lia.
  - simpl; lia.
Defined.

(** ** Claims on the geofence check *)

Module ShapelyFacts.

Import Shapely.

Local Open Scope Q_scope.

Lemma Qle_bool_spec (x y : Q) : reflect (x <= y) (Qle_bool x y).
Proof.
  destruct (Qle_bool x y) eqn:E; constructor.
  - apply Qle_bool_iff; auto.
  - intros H; apply Qle_bool_iff in H; congruence.
Qed.

Lemma Qlt_bool_spec (x y : Q) : reflect (x < y) (Qlt_bool x y).
Proof.
  unfold Qlt_bool; destruct (Qle_bool_spec y x) as [H|H]; constructor.
  - apply Qle_not_lt; auto.
  - apply Qnot_le_lt; auto.
Qed.

Lemma Qeq_bool_spec (x y : Q) : reflect (x == y) (Qeq_bool x y).
Proof.
  destruct (Qeq_bool x y) eqn:E; constructor.
  - apply Qeq_bool_iff; auto.
  - intros H; apply Qeq_bool_iff in H; congruence.
Qed.

(** What lying on a segment gives in coordinates. *)
Lemma on_segment_facts (a b p : coord) :
  on_segment a b p ->
  ((fst a <= fst p /\ fst p <= fst b) \/ (fst b <= fst p /\ fst p <= fst a)) /\
  ((snd a <= snd p /\ snd p <= snd b) \/ (snd b <= snd p /\ snd p <= snd a)) /\
  (fst b - fst a) * (snd p - snd a) - (snd b - snd a) * (fst p - fst a) == 0 /\
  (~ snd a == snd b -> snd p == snd b -> fst p == fst b) /\
  (~ snd a == snd b -> snd p == snd a -> fst p == fst a).
Proof.
  destruct a as [x1 y1], b as [x2 y2], p as [x y]; simpl.
  intros [t [Ht0 [Ht1 [Ex Ey]]]]; simpl in *.
  assert (Between : forall u v : Q,
             (u <= v -> 0 <= t * (v - u) /\ t * (v - u) <= v - u) /\
             (v <= u -> v - u <= t * (v - u) /\ t * (v - u) <= 0)).
  { intros u v; split; intros Huv.
    - split.
      + apply Qmult_le_0_compat; lra.
      + rewrite <- (Qmult_1_l (v - u)) at 2.
        apply Qmult_le_compat_r; lra.
    - assert (H0 : 0 <= t * (u - v)) by (apply Qmult_le_0_compat; lra).
      assert (H1 : t * (u - v) <= 1 * (u - v))
        by (apply Qmult_le_compat_r; lra).
      assert (E : t * (v - u) == - (t * (u - v))) by ring.
      rewrite E; split; lra. }
  repeat split.
  - destruct (Qlt_le_dec x2 x1) as [H|H].
    + right; destruct (proj2 (Between x1 x2)); lra.
    + left; destruct (proj1 (Between x1 x2)); lra.
  - destruct (Qlt_le_dec y2 y1) as [H|H].
    + right; destruct (proj2 (Between y1 y2)); lra.
    + left; destruct (proj1 (Between y1 y2)); lra.
  - rewrite Ex, Ey; ring.
  - intros Hne Hy.
    assert (E : t * (y2 - y1) == 1 * (y2 - y1)) by lra.
    apply Qmult_inj_r in E; [|lra].
    rewrite Ex, E; ring.
  - intros Hne Hy.
    assert (E : t * (y2 - y1) == 0 * (y2 - y1)) by lra.
    apply Qmult_inj_r in E; [|lra].
    rewrite Ex, E; ring.
Qed.

(** Once seen on a segment, the point stays seen. *)
Lemma countSegment_sticky (p : coord) (c : RayCrossingCounter) seg :
  isPointOnSegment c = true ->
  isPointOnSegment (countSegment p c seg) = true.
Proof.
  intros H; destruct seg as [p1 p2]; unfold countSegment.
  repeat match goal with
         | |- context [if ?b then _ else _] => destruct b
         | |- context [match ?o with Eq => _ | Lt => _ | Gt => _ end] =>
             destruct o
         end; simpl; auto.
Qed.

Lemma fold_sticky (p : coord) segs :
  forall c, isPointOnSegment c = true ->
    isPointOnSegment (fold_left (countSegment p) segs c) = true.
Proof.
  induction segs as [|s segs IH]; simpl; intros c H; auto.
  apply IH, countSegment_sticky; auto.
Qed.

Lemma fold_hit (p : coord) segs seg :
  In seg segs ->
  (forall c, isPointOnSegment (countSegment p c seg) = true) ->
  forall c, isPointOnSegment (fold_left (countSegment p) segs c) = true.
Proof.
  induction segs as [|s segs IH]; simpl; intros Hin Hseg c; [contradiction|].
  destruct Hin as [->|Hin].
  - apply fold_sticky; auto.
  - apply IH; auto.
Qed.

(** The end vertex of a segment is seen on it. *)
Lemma countSegment_end_vertex (p p1 p2 : coord) :
  fst p == fst p2 -> snd p == snd p2 ->
  forall c, isPointOnSegment (countSegment p c (p1, p2)) = true.
Proof.
  intros Ex Ey c; unfold countSegment.
  destruct (Qlt_bool_spec (fst p2) (fst p)) as [H|_]; [lra|].
  rewrite andb_false_r.
  destruct (Qeq_bool_spec (fst p) (fst p2)); [|contradiction].
  destruct (Qeq_bool_spec (snd p) (snd p2)); [|contradiction].
  reflexivity.
Qed.

(** A point of a segment is seen on it, unless it is the start vertex. *)
Lemma countSegment_on_segment (p p1 p2 : coord) :
  on_segment p1 p2 p ->
  (forall c, isPointOnSegment (countSegment p c (p1, p2)) = true) \/
  (fst p == fst p1 /\ snd p == snd p1).
Proof.
  intros Hon; apply on_segment_facts in Hon.
  destruct Hon as [Hx [Hy [Hcross [Hend Hstart]]]].
  destruct (coord_eq_dec p p1) as [E|NE]; [right; auto|left].
  intros c; unfold countSegment.
  destruct (Qlt_bool_spec (fst p1) (fst p)) as [L1|L1];
    destruct (Qlt_bool_spec (fst p2) (fst p)) as [L2|L2]; simpl;
    try (exfalso; destruct Hx; lra).
  all: destruct (Qeq_bool_spec (fst p) (fst p2)) as [E1|E1];
    destruct (Qeq_bool_spec (snd p) (snd p2)) as [E2|E2]; simpl; auto.
  all: destruct (Qeq_bool_spec (snd p1) (snd p)) as [E3|E3];
    destruct (Qeq_bool_spec (snd p2) (snd p)) as [E4|E4]; simpl;
    try (exfalso; lra).
  all: try (destruct (Qlt_bool_spec (fst p2) (fst p1));
            destruct (Qle_bool_spec (fst p2) (fst p));
            destruct (Qle_bool_spec (fst p) (fst p1));
            destruct (Qle_bool_spec (fst p1) (fst p));
            destruct (Qle_bool_spec (fst p) (fst p2)); simpl; auto;
            exfalso; destruct Hx; lra).
  all: assert (Hne : ~ snd p1 == snd p2) by (destruct Hy; lra).
  all: assert (Ho : orientation_index p1 p2 p = Eq)
    by (unfold orientation_index; apply Qeq_alt; auto).
  all: destruct (Qlt_bool_spec (snd p) (snd p1)) as [A|A];
    destruct (Qle_bool_spec (snd p2) (snd p)) as [B|B];
    destruct (Qlt_bool_spec (snd p) (snd p2)) as [C|C];
    destruct (Qle_bool_spec (snd p1) (snd p)) as [D|D]; simpl;
    try (rewrite Ho; reflexivity).
  all: exfalso.
  all: try (destruct Hy; lra).
  all: try (assert (snd p == snd p2) by (destruct Hy; lra);
            specialize (Hend Hne); tauto).
  all: try (assert (snd p == snd p1) by (destruct Hy; lra);
            specialize (Hstart Hne); apply NE; split; tauto).
Qed.

(** Every segment of a ring starts where the ring starts or where another
    segment ends. *)
Lemma segments_pred (l : list coord) :
  forall y a b, In (a, b) (segments (y :: l)) ->
    a = y \/ exists q, In (q, a) (segments (y :: l)).
Proof.
  induction l as [|z l IH]; intros y a b Hin; [destruct Hin|].
  change (segments (y :: z :: l)) with ((y, z) :: segments (z :: l)) in *.
  destruct Hin as [E|Hin].
  - inversion E; auto.
  - right; destruct (IH _ _ _ Hin) as [->|[q Hq]].
    + exists y; left; reflexivity.
    + exists q; right; auto.
Qed.

(** The last coordinate of a ring ends a segment. *)
Lemma segments_last (l : list coord) :
  forall x, l <> [] -> exists q, In (q, last l x) (segments (x :: l)).
Proof.
  induction l as [|z l IH]; intros x Hne; [congruence|].
  change (segments (x :: z :: l)) with ((x, z) :: segments (z :: l)).
  destruct l as [|z' r].
  - exists x; left; reflexivity.
  - destruct (IH z) as [q Hq]; [discriminate|].
    exists q; right.
    replace (last (z :: z' :: r) x) with (last (z' :: r) z); auto.
    clear; simpl; revert z'; induction r as [|a r IHr]; intros z'; auto.
    apply (IHr a).
Qed.

Lemma segments_snoc (l : list coord) :
  forall x c,
    segments ((x :: l) ++ [c]) = segments (x :: l) ++ [(last (x :: l) x, c)].
Proof.
  induction l as [|z l IH]; intros x c; [reflexivity|].
  change (segments ((x :: z :: l) ++ [c]))
    with ((x, z) :: segments ((z :: l) ++ [c])).
  rewrite IH.
  change (segments (x :: z :: l)) with ((x, z) :: segments (z :: l)).
  simpl app; do 3 f_equal.
  clear; simpl; destruct l as [|a r]; auto.
  revert a; induction r as [|b r IHr]; intros a; auto.
  apply (IHr b).
Qed.

(** On a closed ring, a point of any segment is seen on a segment. *)
Lemma ring_boundary (x : coord) (r : list coord) (p a b : coord) :
  r <> [] ->
  fst x == fst (last r x) -> snd x == snd (last r x) ->
  In (a, b) (segments (x :: r)) ->
  on_segment a b p ->
  forall c,
    isPointOnSegment (fold_left (countSegment p) (segments (x :: r)) c)
      = true.
Proof.
  intros Hne Hx Hy Hin Hon.
  destruct (countSegment_on_segment Hon) as [Hhit|[Ex Ey]].
  - eapply fold_hit; eauto.
  - destruct (segments_pred _ _ _ _ Hin) as [->|[q Hq]].
    + destruct (segments_last x Hne) as [q Hq].
      eapply fold_hit; eauto.
      apply countSegment_end_vertex; lra.
    + eapply fold_hit; eauto.
      apply countSegment_end_vertex; auto.
Qed.

(** A point of the boundary of a polygon is seen on a segment of the
    closed ring. *)
Lemma close_ring_boundary (vs : list coord) (p : coord) :
  (2 <= List.length vs)%nat ->
  on_boundary vs p ->
  isPointOnSegment
    (fold_left (countSegment p) (segments (close_ring vs))
       (mkCounter false 0)) = true.
Proof.
  destruct vs as [|v [|z r]]; simpl List.length; try lia; intros _.
  intros [a [b [Hin Hon]]].
  unfold polygon_edges in Hin; unfold close_ring.
  assert (Hlast : last (v :: z :: r) v = last (z :: r) v) by reflexivity.
  destruct (coord_eq_dec v (last (v :: z :: r) v)) as [[Ex Ey]|NE].
  - rewrite segments_snoc in Hin; apply in_app_or in Hin.
    rewrite Hlast in *; clear Hlast.
    destruct Hin as [Hin|[E|[]]].
    + eapply ring_boundary; eauto; discriminate.
    + destruct (@segments_last (z :: r) v) as [q Hq]; [discriminate|].
      set (w := last (z :: r) v) in *.
      inversion E; subst a b; clear E.
      destruct Hon as [t [_ [_ [Hpx Hpy]]]].
      eapply fold_hit; eauto.
      apply countSegment_end_vertex.
      * rewrite Hpx, <- Ex; ring.
      * rewrite Hpy, <- Ey; ring.
  - change ((v :: z :: r) ++ [v]) with (v :: (z :: r) ++ [v]) in *.
    eapply ring_boundary; eauto.
    + destruct r; discriminate.
    + rewrite last_last; reflexivity.
    + rewrite last_last; reflexivity.
Qed.

Lemma boundary_not_contained (vs : list coord) (p : coord) :
  (2 <= List.length vs)%nat ->
  on_boundary vs p ->
  locate (close_ring vs) p = BOUNDARY /\ contains (close_ring vs) p = false.
Proof.
  intros Hlen Hon; unfold contains, locate.
  rewrite (close_ring_boundary Hlen Hon); auto.
Qed.

End ShapelyFacts.

(** [check_geofence] names a geofence whose polygon contains the point. *)
Lemma check_geofence_match (gfs : list Geofence) (la lo : Q) (nm : string) :
  check_geofence gfs la lo = inr (Some nm) ->
  exists gf, In gf gfs /\ name gf = nm /\
             geofence_contains gf la lo = inr true.
Proof.
  induction gfs as [|gf rest IH]; simpl; [discriminate|].
  intros H; apply bind_inr in H; destruct H as [[|] [Hc H]].
  - inversion H; subst; exists gf; auto.
  - destruct (IH H) as [gf' [Hin [Hn Hc']]]; exists gf'; auto.
Qed.

(** C8. A point on the boundary of the polygon of a geofence (on one of
    its edges, the closing edge included) is not contained in that polygon:
    [poly.contains(point)] is not true for it, the point is located on the
    boundary of the ring whenever the polygon can be built, a name returned
    by [check_geofence] for that point belongs to another geofence, one
    whose polygon contains the point, and when the geofence is the only one
    [check_geofence] reports no match. *)
Theorem boundary_point_not_matched :
  forall gfs gf la lo,
    In gf gfs ->
    on_boundary (polygon gf) (la, lo) ->
    geofence_contains gf la lo <> inr true /\
    (forall ring, Shapely.Polygon (polygon gf) = inr ring ->
       Shapely.locate ring (la, lo) = Shapely.BOUNDARY /\
       geofence_contains gf la lo = inr false) /\
    (forall nm, check_geofence gfs la lo = inr (Some nm) ->
       exists gf', In gf' gfs /\ gf' <> gf /\ name gf' = nm /\
                   geofence_contains gf' la lo = inr true) /\
    (forall r, check_geofence [gf] la lo = inr r -> r = None).
Proof.
  intros gfs gf la lo Hin Hon.
  assert (Hring : forall ring, Shapely.Polygon (polygon gf) = inr ring ->
            Shapely.locate ring (la, lo) = Shapely.BOUNDARY /\
            geofence_contains gf la lo = inr false).
  { intros ring Hp.
    destruct (Polygon_inr _ Hp) as [-> [E|Hlen]].
    - destruct Hon as [a [b [Hab _]]]; rewrite E in Hab; destruct Hab.
    - assert (H2 : (2 <= List.length (polygon gf))%nat) by lia.
      destruct (ShapelyFacts.boundary_not_contained H2 Hon) as [Hloc Hc].
      split; auto.
      unfold geofence_contains; rewrite Hp; simpl.
      unfold Shapely.Point; rewrite Hc; reflexivity. }
  assert (Hnot : geofence_contains gf la lo <> inr true).
  { unfold geofence_contains.
    destruct (Shapely.Polygon (polygon gf)) as [e|ring] eqn:Hp;
      [discriminate|].
    destruct (Hring ring eq_refl) as [_ Hc].
    unfold geofence_contains in Hc; rewrite Hp in Hc; congruence. }
  split; [exact Hnot|]; split; [exact Hring|]; split.
  - intros nm Hnm; apply check_geofence_match in Hnm.
    destruct Hnm as [gf' [Hin' [Hn Hc']]].
    exists gf'; repeat split; auto; congruence.
  - intros r; simpl.
    destruct (geofence_contains gf la lo) as [e|[|]]; simpl;
      try discriminate; try congruence.
    unfold ret; congruence.
Qed.

Lemma boundary_point_not_matched_witness :
  let gf := mkGeofence 1 "No-Go Zone Makati"
              [ (14.555, 121.023); (14.556, 121.023);
                (14.556, 121.025); (14.555, 121.025) ]%Q in
  geofence_contains gf 14.555 121.024 <> inr true /\
  (forall ring, Shapely.Polygon (polygon gf) = inr ring ->
     Shapely.locate ring (14.555, 121.024)%Q = Shapely.BOUNDARY /\
     geofence_contains gf 14.555 121.024 = inr false) /\
  (forall nm,
     check_geofence initial_geofences 14.555 121.024 = inr (Some nm) ->
     exists gf', In gf' initial_geofences /\ gf' <> gf /\ name gf' = nm /\
                 geofence_contains gf' 14.555 121.024 = inr true) /\
  (forall r, check_geofence [gf] 14.555 121.024 = inr r -> r = None).
Proof.
  apply (boundary_point_not_matched initial_geofences
           (mkGeofence 1 "No-Go Zone Makati"
              [ (14.555, 121.023); (14.556, 121.023);
                (14.556, 121.025); (14.555, 121.025) ]%Q)
           (la := 14.555%Q) (lo := 121.024%Q)).
  - left; reflexivity.
  - exists (14.555, 121.025)%Q, (14.555, 121.023)%Q; split.
    + simpl; auto.
    + exists (1 # 2)%Q; repeat split; vm_compute; congruence.
Defined.

(** * Further properties of the endpoints *)

(** ** The assignment loop, step by step *)

Section LoopSteps.

Variable haversine : coord -> coord -> Q.
Variable G : Graph.
Variable nearest_nodes : Graph -> Q -> Q -> result node.
Variable shortest_path : Graph -> node -> node -> result (list node).

Local Abbreviation key := (score haversine).
Local Abbreviation body :=
  (assign_body haversine G nearest_nodes shortest_path).
Local Abbreviation loop :=
  (assign_loop haversine G nearest_nodes shortest_path).
Local Abbreviation route :=
  (suggest_route G nearest_nodes shortest_path).

(** The body of the loop, branch by branch. *)
Lemma assign_body_unfold gfs st d :
  body gfs st d =
  if Py.truthy_int (assigned_driver d) then inr (st, d)
  else
    match check_geofence gfs (lat d) (lon d) with
    | inl e => inl e
    | inr gf =>
        if Py.truthy_str gf then
          inr (mkLoop (l_drivers st) (l_log st ++ [LogGeofenceSkip (id d)])
                 (l_response st), d)
        else
          match Py.min_by (key d) (l_drivers st) with
          | inl e => inl e
          | inr (i, best) =>
              let w := increment_load best in
              let re := route (d_lat w, d_lon w) (lat d, lon d) in
              inr (mkLoop (update_nth i w (l_drivers st))
                     (l_log st ++ [LogAssigned (id d) (driver w)])
                     (l_response st
                      ++ [mkAssignment (id d) (driver w) (snd re)]),
                   set_route (set_assigned_driver d (d_id best))
                     (snd re) (fst re))
          end
    end.
Proof.
  unfold assign_body, assign_driver.
  destruct (Py.truthy_int (assigned_driver d)); [reflexivity|].
  destruct (check_geofence gfs (lat d) (lon d)) as [e|gf]; [reflexivity|].
  simpl; destruct (Py.truthy_str gf); [reflexivity|].
  destruct (Py.min_by (key d) (l_drivers st)) as [e|[i best]];
    [reflexivity|].
  simpl; destruct (route _ _) as [r eta]; reflexivity.
Qed.

(** A property of the drivers, the log, the response and the deliveries
    (those already handled, those still to come) that every pass of the
    body keeps holds when the loop stops, whether at the end of the list or
    on an exception. *)
Lemma loop_invariant gfs
    (I : loop_state -> list Delivery -> list Delivery -> Prop) :
  (forall st done d rest st' d',
      I st done (d :: rest) -> body gfs st d = inr (st', d') ->
      I st' (done ++ [d']) rest) ->
  forall todo done st st' todo' e,
    I st done todo ->
    loop gfs st todo = (st', todo', e) ->
    exists handled rest,
      todo' = handled ++ rest /\
      I st' (done ++ handled) rest /\
      (e = None -> rest = []) /\
      (forall x, e = Some x ->
         exists d tl, rest = d :: tl /\ body gfs st' d = inl x).
Proof.
  intros Hstep; induction todo as [|d todo IH];
    intros done st st' todo' e HI E; simpl in E.
  - inversion E; subst; exists [], []; rewrite (app_nil_r done).
    split; [reflexivity|]; split; [exact HI|]; split; [reflexivity|].
    intros x Hx; discriminate.
  - destruct (body gfs st d) as [x|[st1 d1]] eqn:Hb.
    + inversion E; subst; exists [], (d :: todo); rewrite (app_nil_r done).
      split; [reflexivity|]; split; [exact HI|]; split; [discriminate|].
      intros y Hy; inversion Hy; subst; eauto.
    + destruct (loop gfs st1 todo) as [[st2 todo2] e2] eqn:Hl.
      inversion E; subst; clear E.
      destruct (IH (done ++ [d1]) st1 st' todo2 e
                  (Hstep _ _ _ _ _ _ HI Hb) Hl)
        as [handled [rest [-> [HI' [Hnone Hsome]]]]].
      exists (d1 :: handled), rest; rewrite <- app_assoc in HI'.
      split; [reflexivity|]; split; [exact HI'|]; split; auto.
Qed.

End LoopSteps.

(** ** Loads and assignments *)

Lemma count_assigned_app (w : Z) (a b : list Delivery) :
  count_assigned w (a ++ b) = (count_assigned w a + count_assigned w b)%nat.
Proof.
  unfold count_assigned; rewrite filter_app, length_app; reflexivity.
Qed.

Lemma count_assigned_cons (w : Z) (d : Delivery) (l : list Delivery) :
  count_assigned w (d :: l)
  = ((if assigned_to w d then 1 else 0) + count_assigned w l)%nat.
Proof.
  unfold count_assigned; simpl; destruct (assigned_to w d); reflexivity.
Qed.

(** A delivery the loop does not pass over on account of its driver is
    assigned to no driver of a non-zero identifier. *)
Lemma unassigned_counts_nowhere (d : Delivery) (w : Z) :
  Py.truthy_int (assigned_driver d) = false -> w <> 0 ->
  assigned_to w d = false.
Proof.
  unfold assigned_to; destruct (assigned_driver d) as [x|]; simpl; auto.
  intros H Hw; destruct (Z.eqb_spec x 0); [|discriminate].
  subst; destruct (Z.eqb_spec 0 w); congruence.
Qed.

Section Accounting.

Variable haversine : coord -> coord -> Q.
Variable G : Graph.
Variable nearest_nodes : Graph -> Q -> Q -> result node.
Variable shortest_path : Graph -> node -> node -> result (list node).

Local Abbreviation body :=
  (assign_body haversine G nearest_nodes shortest_path).
Local Abbreviation loop :=
  (assign_loop haversine G nearest_nodes shortest_path).
Local Abbreviation run :=
  (assign_all haversine G nearest_nodes shortest_path).

Lemma body_accounting gfs st done d rest st' d' :
  drivers_wf (l_drivers st) /\
  loads_accounted (l_drivers st) (done ++ d :: rest) ->
  body gfs st d = inr (st', d') ->
  drivers_wf (l_drivers st') /\
  loads_accounted (l_drivers st') ((done ++ [d']) ++ rest).
Proof.
  intros [Hwf Hacc] Hb; rewrite <- app_assoc; simpl.
  pose proof (body_keeps_ids _ _ _ _ _ _ _ Hb) as Hids.
  split; [eapply drivers_wf_ids; eauto|].
  rewrite assign_body_unfold in Hb.
  destruct (Py.truthy_int (assigned_driver d)) eqn:Ht.
  { inversion Hb; subst; auto. }
  destruct (check_geofence gfs (lat d) (lon d)) as [e|gf]; [discriminate|].
  destruct (Py.truthy_str gf).
  { inversion Hb; subst; auto. }
  destruct (Py.min_by (score haversine d) (l_drivers st))
    as [e|[i best]] eqn:Hm; [discriminate|].
  simpl in Hb; inversion Hb; subst; clear Hb; simpl.
  apply PyFacts.min_by_spec in Hm; destruct Hm as [Hi _].
  assert (Hlt : (i < List.length (l_drivers st))%nat)
    by (apply nth_error_Some; congruence).
  pose proof (Hwf _ _ Hi) as Hbest.
  intros k w Hk.
  set (d' := set_route (set_assigned_driver d (d_id best)) _ _).
  assert (Hnew : forall x, assigned_to x d' = (d_id best =? x))
    by reflexivity.
  rewrite count_assigned_app, count_assigned_cons, Hnew.
  destruct (Nat.eq_dec k i) as [->|Hne].
  - rewrite nth_error_update_nth_eq in Hk by auto.
    inversion Hk; subst w; simpl.
    rewrite (Hacc _ _ Hi), count_assigned_app, count_assigned_cons.
    rewrite (@unassigned_counts_nowhere d (d_id best) Ht) by lia.
    rewrite Z.eqb_refl; lia.
  - rewrite nth_error_update_nth_ne in Hk by auto.
    pose proof (Hwf _ _ Hk) as Hw.
    rewrite (Hacc _ _ Hk), count_assigned_app, count_assigned_cons.
    rewrite (@unassigned_counts_nowhere d (d_id w) Ht) by lia.
    destruct (Z.eqb_spec (d_id best) (d_id w)); [lia|reflexivity].
Qed.

Lemma run_accounting s :
  drivers_wf (drivers s) ->
  loads_accounted (drivers s) (deliveries s) ->
  loads_accounted (drivers (fst (run s))) (deliveries (fst (run s))).
Proof.
  intros Hwf Hacc; unfold assign_all.
  destruct (loop _ _ _) as [[st ds] e] eqn:Hl; simpl.
  destruct (@loop_invariant haversine G nearest_nodes shortest_path
              (geofences s)
              (fun st done rest =>
                 drivers_wf (l_drivers st) /\
                 loads_accounted (l_drivers st) (done ++ rest))
              (fun st done d rest st' d' HI Hb =>
                 @body_accounting (geofences s) st done d rest st' d' HI Hb)
              (deliveries s) [] (mkLoop (drivers s) (activity_log s) [])
              st ds e (conj Hwf Hacc) Hl)
    as [handled [rest [-> [[_ H] _]]]].
  exact H.
Qed.

(** No delivery is assigned to an identifier that no driver has yet. *)
Lemma count_assigned_fresh drv ds :
  drivers_wf drv -> refs_valid drv ds ->
  count_assigned (Z.of_nat (List.length drv) + 1) ds = 0%nat.
Proof.
  intros Hwf Hr; unfold count_assigned.
  destruct (filter _ ds) as [|d l] eqn:E; [reflexivity|exfalso].
  assert (Hd : In d (filter (assigned_to (Z.of_nat (List.length drv) + 1)) ds))
    by (rewrite E; left; reflexivity).
  apply filter_In in Hd; destruct Hd as [Hin Ha].
  unfold assigned_to in Ha.
  destruct (assigned_driver d) as [x|] eqn:Hx; [|discriminate].
  apply Z.eqb_eq in Ha; subst x.
  destruct (Hr d _ Hin Hx) as [w [Hw Hid]].
  apply In_nth_error in Hw; destruct Hw as [k Hk].
  assert (k < List.length drv)%nat by (apply nth_error_Some; congruence).
  rewrite (Hwf _ _ Hk) in Hid; lia.
Qed.

End Accounting.

(** A property kept by the insertion of one delivery (one driver) is kept
    by the whole request, also when the request fails part-way. *)
Lemma add_delivery_preserves (P : state -> Prop) :
  (forall s d x, P s -> new_delivery s d = inr x -> P (append_delivery s x)) ->
  forall s data, P s -> P (fst (add_delivery s data)).
Proof.
  intros Hstep s data Hs.
  assert (Hmany : forall l s0 added, P s0 ->
            P (fst (add_deliveries s0 l added))).
  { induction l as [|d l IH]; intros s0 added H0; simpl; auto.
    destruct (new_delivery s0 d) as [e|x] eqn:Hx; simpl; eauto. }
  destruct data as [d|l]; simpl; auto.
  destruct (new_delivery s d) as [e|x] eqn:Hx; simpl; eauto.
Qed.

Lemma add_driver_preserves (P : state -> Prop) :
  (forall s d w, P s -> new_driver s d = inr w -> P (append_driver s w)) ->
  forall s data, P s -> P (fst (add_driver s data)).
Proof.
  intros Hstep s data Hs.
  assert (Hmany : forall l s0 added, P s0 ->
            P (fst (add_drivers s0 l added))).
  { induction l as [|d l IH]; intros s0 added H0; simpl; auto.
    destruct (new_driver s0 d) as [e|x] eqn:Hx; simpl; eauto. }
  destruct data as [d|l]; simpl; auto.
  destruct (new_driver s d) as [e|x] eqn:Hx; simpl; eauto.
Qed.

Lemma new_delivery_fields s d x :
  new_delivery s d = inr x ->
  id x = Z.of_nat (List.length (deliveries s)) + 1 /\
  q_lat d = Some (lat x) /\ q_lon d = Some (lon x) /\
  address x = get (q_address d) "Unknown"%string /\
  assigned_driver x = None /\ eta_min x = None /\ route_coords x = None.
Proof.
  unfold new_delivery, item.
  destruct (q_lat d) as [la|]; [|discriminate].
  destruct (q_lon d) as [lo|]; [|discriminate].
  simpl; intros H; inversion H; subst; simpl; auto 10.
Qed.

Lemma new_driver_fields s d w :
  new_driver s d = inr w ->
  d_id w = Z.of_nat (List.length (drivers s)) + 1 /\
  imei w = get (r_imei d) "000000000000000"%string /\
  r_driver d = Some (driver w) /\
  r_lat d = Some (d_lat w) /\ r_lon d = Some (d_lon w) /\
  current_load w = 0.
Proof.
  unfold new_driver, item.
  destruct (r_driver d) as [nm|]; [|discriminate].
  destruct (r_lat d) as [la|]; [|discriminate].
  destruct (r_lon d) as [lo|]; [|discriminate].
  simpl; intros H; inversion H; subst; simpl; auto 10.
Qed.

Section AccountingInvariant.

Variable haversine : coord -> coord -> Q.
Variable G : Graph.
Variable nearest_nodes : Graph -> Q -> Q -> result node.
Variable shortest_path : Graph -> node -> node -> result (list node).

Lemma accounted_initial : accounted initial_state.
Proof.
  split; [apply Inv_initial|]; split; [simpl; lia|].
  intros [|[|[|[|k]]]] w Hk; simpl in Hk; inversion Hk; reflexivity.
Qed.

Lemma accounted_append_delivery s d x :
  accounted s -> new_delivery s d = inr x -> accounted (append_delivery s x).
Proof.
  intros [HI [H3 Hacc]] Hx.
  split; [eapply Inv_append_delivery; eauto|]; split; [exact H3|].
  apply new_delivery_fields in Hx.
  destruct Hx as [_ [_ [_ [_ [Ha _]]]]].
  intros k w Hk; simpl in *.
  rewrite count_assigned_app, count_assigned_cons.
  unfold assigned_to at 1; rewrite Ha.
  rewrite (Hacc _ _ Hk); unfold count_assigned at 3; simpl; lia.
Qed.

Lemma accounted_append_driver s d w :
  accounted s -> new_driver s d = inr w -> accounted (append_driver s w).
Proof.
  intros [HI [H3 Hacc]] Hw.
  split; [eapply Inv_append_driver; eauto|].
  split; [simpl; rewrite length_app; simpl; lia|].
  apply new_driver_fields in Hw.
  destruct Hw as [Hid [_ [_ [_ [_ Hload]]]]].
  intros k x Hk; simpl in *.
  destruct (Nat.lt_ge_cases k (List.length (drivers s))) as [Hlt|Hge].
  - rewrite nth_error_app1 in Hk by auto; auto.
  - rewrite nth_error_app2 in Hk by auto.
    destruct (k - List.length (drivers s))%nat as [|n] eqn:E;
      [|destruct n; discriminate].
    simpl in Hk; inversion Hk; subst x.
    rewrite Hload, Hid.
    rewrite (count_assigned_fresh (inv_drivers HI) (inv_refs HI)).
    unfold base_load; rewrite nth_overflow; [reflexivity|].
    simpl; lia.
Qed.

Lemma accounted_assign_all s :
  accounted s ->
  accounted (fst (assign_all haversine G nearest_nodes shortest_path s)).
Proof.
  intros [HI [H3 Hacc]].
  split; [apply Inv_assign_all; auto|]; split.
  - unfold assign_all.
    destruct (assign_loop _ _ _ _ _ _ _) as [[st ds] e] eqn:Hl; simpl.
    apply loop_outcomes in Hl; destruct Hl as [Hids _]; simpl in Hids.
    rewrite <- (length_map d_id), Hids, length_map; auto.
  - apply run_accounting; auto; apply (inv_drivers HI).
Qed.

Lemma reachable_accounted s :
  reachable haversine G nearest_nodes shortest_path s -> accounted s.
Proof.
  induction 1.
  - apply accounted_initial.
  - apply add_delivery_preserves; auto.
    intros; eapply accounted_append_delivery; eauto.
  - apply add_driver_preserves; auto.
    intros; eapply accounted_append_driver; eauto.
  - apply accounted_assign_all; auto.
Qed.

End AccountingInvariant.

(** X1. In every state the service can reach, the load of each driver is
    the load it started with (the one written in the module, or 0 for a
    driver registered through [add_driver]) plus the number of deliveries
    whose [assigned_driver] is its identifier. *)
Theorem loads_count_assignments :
  forall haversine G nearest_nodes shortest_path s k w,
    reachable haversine G nearest_nodes shortest_path s ->
    nth_error (drivers s) k = Some w ->
    current_load w
    = base_load k + Z.of_nat (count_assigned (d_id w) (deliveries s)).
Proof.
  intros haversine G nn sp s k w Hs Hk.
  destruct (reachable_accounted Hs) as [_ [_ Hacc]]; auto.
Qed.

Lemma loads_count_assignments_witness :
  let run := assign_all Scenario.haversine Scenario.G
               Scenario.nearest_nodes Scenario.shortest_path in
  let s := fst (run (fst (add_delivery initial_state
             (Many [mkDeliveryRequest (Some 14.5555%Q) (Some 121.024%Q) None;
                    mkDeliveryRequest (Some 14.56%Q) (Some 121.02%Q)
                      None])))) in
  let w := mkDriver 3 "345678901234567" "Charlie" 14.5600 121.0200 1 in
  current_load w
  = base_load 2 + Z.of_nat (count_assigned (d_id w) (deliveries s)).
Proof.
  apply (@loads_count_assignments Scenario.haversine Scenario.G
           Scenario.nearest_nodes Scenario.shortest_path).
  - apply reach_assign_all, reach_add_delivery, reach_init.
  - vm_compute; reflexivity.
Defined.

(** ** What one call of [assign_all] achieves *)

Section Completeness.

Variable haversine : coord -> coord -> Q.
Variable G : Graph.
Variable nearest_nodes : Graph -> Q -> Q -> result node.
Variable shortest_path : Graph -> node -> node -> result (list node).

Local Abbreviation loop :=
  (assign_loop haversine G nearest_nodes shortest_path).

(** A loop that reaches the end of the list. *)
Lemma loop_completed gfs ds :
  forall st st' ds',
    ~ In 0 (map d_id (l_drivers st)) ->
    loop gfs st ds = (st', ds', None) ->
    map a_delivery_id (l_response st')
    = map a_delivery_id (l_response st)
      ++ map id (filter (fun d => negb (skipped gfs d)) ds) /\
    Forall (settled gfs) ds'.
Proof.
  induction ds as [|d ds IH]; intros st st' ds' Hz E; simpl in E.
  - inversion E; subst; simpl; rewrite app_nil_r; auto.
  - rewrite assign_body_unfold in E; unfold skipped; simpl.
    destruct (Py.truthy_int (assigned_driver d)) eqn:Ht; simpl.
    + destruct (loop gfs st ds) as [[st2 ds2] e2] eqn:Hl.
      inversion E; subst; clear E.
      destruct (IH _ _ _ Hz Hl) as [Hresp Hall].
      split; auto; constructor; auto; left; auto.
    + destruct (check_geofence gfs (lat d) (lon d)) as [x|r] eqn:Hc;
        [discriminate|].
      destruct (Py.truthy_str r) eqn:Hs; simpl.
      * destruct (loop gfs _ ds) as [[st2 ds2] e2] eqn:Hl.
        inversion E; subst; clear E.
        apply IH in Hl; auto.
        destruct Hl as [Hresp Hall]; simpl in Hresp.
        split; auto; constructor; auto; right.
        destruct r as [nm|]; [|discriminate].
        exists nm; split; auto.
        intros ->; discriminate.
      * destruct (Py.min_by (score haversine d) (l_drivers st))
          as [x|[i best]] eqn:Hm; [discriminate|].
        destruct (@min_by_keeps_ids haversine d _ i best Hm) as [Hin Hids].
        simpl in E.
        destruct (loop gfs _ ds) as [[st2 ds2] e2] eqn:Hl.
        inversion E; subst; clear E.
        apply IH in Hl; simpl.
        -- destruct Hl as [Hresp Hall]; simpl in Hresp.
           rewrite Hresp, map_app, <- app_assoc; simpl.
           split; auto; constructor; auto; left; simpl.
           destruct (Z.eqb_spec (d_id best) 0) as [E0|]; auto.
           exfalso; apply Hz; rewrite <- E0; apply in_map; auto.
        -- rewrite Hids; auto.
Qed.

End Completeness.

(** X2. When the loop of [assign_all] runs to the end of the list (no
    pass raises), the [response] it has built lists, in order, the
    identifiers of exactly the deliveries that the loop does not pass over
    (no driver yet and outside every geofence), and afterwards every
    delivery has a driver or lies in a geofence.  No driver identifier is
    0, which holds of every store the requests build. *)
Theorem assign_all_serves_every_pending_delivery :
  forall haversine G nearest_nodes shortest_path s s' response,
    ~ In 0 (map d_id (drivers s)) ->
    assign_all haversine G nearest_nodes shortest_path s
      = (s', inr response) ->
    map a_delivery_id response
    = map id (filter (fun d => negb (skipped (geofences s) d))
                (deliveries s)) /\
    Forall (settled (geofences s')) (deliveries s').
Proof.
  intros haversine G nn sp s s' response Hz; unfold assign_all.
  destruct (assign_loop _ _ _ _ _ _ _) as [[st ds] e] eqn:Hl.
  intros E; destruct e as [x|]; [inversion E|].
  inversion E; subst; clear E; simpl.
  apply loop_completed in Hl; auto.
Qed.

Lemma assign_all_serves_every_pending_delivery_witness :
  let s := mkState initial_drivers
             [Scenario.job_makati; Scenario.job_outside]
             initial_geofences [] in
  let w := mkDriver 3 "345678901234567" "Charlie" 14.5600 121.0200 1 in
  let s' := mkState [Scenario.alice; Scenario.bob; w]
              [Scenario.job_makati;
               mkDelivery 2 14.5600 121.0200 "Outside" (Some 3)
                 (Some (0 # 10)) (Some [(14.5600, 121.0200)%Q])]
              initial_geofences
              [LogGeofenceSkip 1; LogAssigned 2 "Charlie"] in
  map a_delivery_id [mkAssignment 2 "Charlie" (0 # 10)]
  = map id (filter (fun d => negb (skipped (geofences s) d))
              (deliveries s)) /\
  Forall (settled (geofences s')) (deliveries s').
Proof.
  apply (@assign_all_serves_every_pending_delivery Scenario.haversine
           Scenario.G Scenario.nearest_nodes Scenario.shortest_path
           (mkState initial_drivers
              [Scenario.job_makati; Scenario.job_outside]
              initial_geofences [])).
  - vm_compute; intuition discriminate.
  - vm_compute; reflexivity.
Defined.

(** ** What no request ever undoes *)

Lemma same_request_refl d : same_request d d.
Proof. repeat split. Qed.

Lemma same_driver_refl w : same_driver w w.
Proof. repeat split; lia. Qed.

Lemma same_driver_trans a b c :
  same_driver a b -> same_driver b c -> same_driver a c.
Proof.
  unfold same_driver; intros [? [? [? [? [? ?]]]]] [? [? [? [? [? ?]]]]].
  repeat split; try congruence; lia.
Qed.

Section Permanence.

Variable haversine : coord -> coord -> Q.
Variable G : Graph.
Variable nearest_nodes : Graph -> Q -> Q -> result node.
Variable shortest_path : Graph -> node -> node -> result (list node).

Local Abbreviation loop :=
  (assign_loop haversine G nearest_nodes shortest_path).
Local Abbreviation run :=
  (assign_all haversine G nearest_nodes shortest_path).

(** The loop keeps every request, and keeps whole the deliveries that
    already have a driver. *)
Lemma loop_keeps_requests gfs ds :
  forall st st' ds' e,
    loop gfs st ds = (st', ds', e) ->
    Forall2 (fun d d' =>
               same_request d d' /\
               (Py.truthy_int (assigned_driver d) = true -> d' = d))
      ds ds'.
Proof.
  induction ds as [|d ds IH]; intros st st' ds' e E; simpl in E.
  - inversion E; constructor.
  - rewrite assign_body_unfold in E.
    assert (Hrefl : forall l : list Delivery,
              Forall2 (fun d d' =>
                         same_request d d' /\
                         (Py.truthy_int (assigned_driver d) = true -> d' = d))
                l l).
    { induction l; constructor; auto; split; auto; apply same_request_refl. }
    destruct (Py.truthy_int (assigned_driver d)) eqn:Ht.
    { destruct (loop gfs st ds) as [[st2 ds2] e2] eqn:Hl.
      inversion E; subst; constructor; eauto.
      split; auto; apply same_request_refl. }
    destruct (check_geofence gfs (lat d) (lon d)) as [x|gf].
    { inversion E; subst; apply Hrefl. }
    destruct (Py.truthy_str gf).
    { destruct (loop gfs _ ds) as [[st2 ds2] e2] eqn:Hl.
      inversion E; subst; constructor; eauto.
      split; auto; apply same_request_refl. }
    destruct (Py.min_by (score haversine d) (l_drivers st)) as [x|[i best]].
    { inversion E; subst; apply Hrefl. }
    simpl in E.
    destruct (loop gfs _ ds) as [[st2 ds2] e2] eqn:Hl.
    inversion E; subst; constructor; eauto.
    split; [repeat split|intros H; congruence].
Qed.

(** The loop keeps every driver in place and only raises loads. *)
Lemma loop_keeps_drivers gfs ds :
  forall st st' ds' e,
    loop gfs st ds = (st', ds', e) ->
    forall k w, nth_error (l_drivers st) k = Some w ->
      exists w', nth_error (l_drivers st') k = Some w' /\ same_driver w w'.
Proof.
  induction ds as [|d ds IH]; intros st st' ds' e E k w Hk; simpl in E.
  - inversion E; subst; exists w; split; auto; apply same_driver_refl.
  - rewrite assign_body_unfold in E.
    destruct (Py.truthy_int (assigned_driver d)).
    { destruct (loop gfs st ds) as [[st2 ds2] e2] eqn:Hl.
      inversion E; subst; eapply IH; eauto. }
    destruct (check_geofence gfs (lat d) (lon d)) as [x|gf].
    { inversion E; subst; exists w; split; auto; apply same_driver_refl. }
    destruct (Py.truthy_str gf).
    { destruct (loop gfs _ ds) as [[st2 ds2] e2] eqn:Hl.
      inversion E; subst; eapply IH in Hl; eauto. }
    destruct (Py.min_by (score haversine d) (l_drivers st))
      as [x|[i best]] eqn:Hm.
    { inversion E; subst; exists w; split; auto; apply same_driver_refl. }
    simpl in E.
    destruct (loop gfs _ ds) as [[st2 ds2] e2] eqn:Hl.
    inversion E; subst; clear E.
    apply PyFacts.min_by_spec in Hm; destruct Hm as [Hi _].
    destruct (Nat.eq_dec k i) as [->|Hne].
    + assert (w = best) by congruence; subst w.
      destruct (IH _ _ _ _ Hl i (increment_load best)) as [w' [Hw' Hs]].
      * simpl; apply nth_error_update_nth_eq.
        apply nth_error_Some; congruence.
      * exists w'; split; auto.
        eapply same_driver_trans; [|exact Hs].
        repeat split; simpl; lia.
    + eapply IH in Hl; eauto.
      simpl; rewrite nth_error_update_nth_ne; auto.
Qed.

Lemma add_delivery_keeps s data :
  drivers (fst (add_delivery s data)) = drivers s /\
  geofences (fst (add_delivery s data)) = geofences s /\
  exists l, deliveries (fst (add_delivery s data)) = deliveries s ++ l.
Proof.
  apply (add_delivery_preserves
           (fun s' => drivers s' = drivers s /\
                      geofences s' = geofences s /\
                      exists l, deliveries s' = deliveries s ++ l)).
  - intros s0 d x [Hd [Hg [l Hl]]] _; simpl; repeat split; auto.
    exists (l ++ [x]); rewrite Hl, app_assoc; reflexivity.
  - repeat split; exists []; rewrite app_nil_r; reflexivity.
Qed.

Lemma add_driver_keeps s data :
  deliveries (fst (add_driver s data)) = deliveries s /\
  geofences (fst (add_driver s data)) = geofences s /\
  exists l, drivers (fst (add_driver s data)) = drivers s ++ l.
Proof.
  apply (add_driver_preserves
           (fun s' => deliveries s' = deliveries s /\
                      geofences s' = geofences s /\
                      exists l, drivers s' = drivers s ++ l)).
  - intros s0 d x [Hd [Hg [l Hl]]] _; simpl; repeat split; auto.
    exists (l ++ [x]); rewrite Hl, app_assoc; reflexivity.
  - repeat split; exists []; rewrite app_nil_r; reflexivity.
Qed.

End Permanence.

Lemma Forall2_nth_error_l {A B : Type} (R : A -> B -> Prop) l l' :
  Forall2 R l l' ->
  forall k a, nth_error l k = Some a ->
    exists b, nth_error l' k = Some b /\ R a b.
Proof.
  induction 1 as [|a b l l' Hab _ IH]; intros [|k] y Hk; simpl in *;
    try discriminate.
  - inversion Hk; subst; eauto.
  - auto.
Qed.

(** X3. Whatever requests follow, a delivery keeps its place in the store
    with the same identifier, position and address, and once it has a
    driver (a non-zero identifier in [assigned_driver]) it is never changed
    again: not reassigned, not rerouted, not removed. *)
Theorem deliveries_are_permanent :
  forall haversine G nearest_nodes shortest_path s s' i d,
    evolves haversine G nearest_nodes shortest_path s s' ->
    nth_error (deliveries s) i = Some d ->
    exists d',
      nth_error (deliveries s') i = Some d' /\
      same_request d d' /\
      (Py.truthy_int (assigned_driver d) = true -> d' = d).
Proof.
  intros haversine G nn sp s s' i d Hev Hi.
  induction Hev as [|s' data _ IH|s' data _ IH|s' _ IH].
  - exists d; repeat split; auto.
  - destruct IH as [d' [Hd' [Hsame Hkeep]]].
    destruct (add_delivery_keeps s' data) as [_ [_ [l Hl]]].
    exists d'; rewrite Hl, nth_error_app1; auto.
    apply nth_error_Some; congruence.
  - destruct IH as [d' [Hd' [Hsame Hkeep]]].
    destruct (add_driver_keeps s' data) as [Hl _].
    exists d'; rewrite Hl; auto.
  - destruct IH as [d' [Hd' [Hsame Hkeep]]].
    unfold assign_all.
    destruct (assign_loop _ _ _ _ _ _ _) as [[st ds] e] eqn:Hl; simpl.
    apply loop_keeps_requests in Hl.
    destruct (Forall2_nth_error_l Hl _ Hd') as [d'' [Hd'' [Hs2 Hk2]]].
    exists d''; split; auto; split.
    + destruct Hsame as [? [? [? ?]]], Hs2 as [? [? [? ?]]].
      repeat split; congruence.
    + intros Ht; rewrite <- (Hkeep Ht); apply Hk2.
      rewrite (Hkeep Ht); auto.
Qed.

Lemma deliveries_are_permanent_witness :
  let run := assign_all Scenario.haversine Scenario.G
               Scenario.nearest_nodes Scenario.shortest_path in
  let s := fst (run (mkState initial_drivers
                       [Scenario.job_makati; Scenario.job_outside]
                       initial_geofences [])) in
  let s' := fst (run (fst (add_delivery s
              (One (mkDeliveryRequest (Some 14.56%Q) (Some 121.03%Q)
                      None))))) in
  let d := nth 1 (deliveries s) Scenario.job_makati in
  exists d',
    nth_error (deliveries s') 1 = Some d' /\
    same_request d d' /\
    (Py.truthy_int (assigned_driver d) = true -> d' = d).
Proof.
  eapply (@deliveries_are_permanent Scenario.haversine Scenario.G
            Scenario.nearest_nodes Scenario.shortest_path).
  - apply evolves_assign_all, evolves_add_delivery, evolves_refl.
  - vm_compute; reflexivity.
Defined.

(** X4. Whatever requests follow, a driver keeps its place in the store
    with the same identifier, IMEI, name and position, and its load never
    goes down. *)
Theorem drivers_are_permanent :
  forall haversine G nearest_nodes shortest_path s s' k w,
    evolves haversine G nearest_nodes shortest_path s s' ->
    nth_error (drivers s) k = Some w ->
    exists w', nth_error (drivers s') k = Some w' /\ same_driver w w'.
Proof.
  intros haversine G nn sp s s' k w Hev Hk.
  induction Hev as [|s' data _ IH|s' data _ IH|s' _ IH].
  - exists w; split; auto; apply same_driver_refl.
  - destruct IH as [w' [Hw' Hsame]].
    destruct (add_delivery_keeps s' data) as [Hl _].
    exists w'; rewrite Hl; auto.
  - destruct IH as [w' [Hw' Hsame]].
    destruct (add_driver_keeps s' data) as [_ [_ [l Hl]]].
    exists w'; rewrite Hl, nth_error_app1; auto.
    apply nth_error_Some; congruence.
  - destruct IH as [w' [Hw' Hsame]].
    unfold assign_all.
    destruct (assign_loop _ _ _ _ _ _ _) as [[st ds] e] eqn:Hl; simpl.
    eapply loop_keeps_drivers in Hl; [|exact Hw'].
    destruct Hl as [w'' [Hw'' Hs2]].
    exists w''; split; auto; eapply same_driver_trans; eauto.
Qed.

Lemma drivers_are_permanent_witness :
  let s := mkState initial_drivers [Scenario.job_outside]
             initial_geofences [] in
  let s' := fst (add_driver
                   (fst (assign_all Scenario.haversine Scenario.G
                           Scenario.nearest_nodes Scenario.shortest_path s))
                   (One (mkDriverRequest None (Some "Dana"%string)
                           (Some 14.55%Q) (Some 121.02%Q)))) in
  exists w',
    nth_error (drivers s') 2 = Some w' /\
    same_driver
      (mkDriver 3 "345678901234567" "Charlie" 14.5600 121.0200 0) w'.
Proof.
  apply (@drivers_are_permanent Scenario.haversine Scenario.G
           Scenario.nearest_nodes Scenario.shortest_path
           (mkState initial_drivers [Scenario.job_outside]
              initial_geofences [])).
  - apply evolves_add_driver, evolves_assign_all, evolves_refl.
  - reflexivity.
Defined.

(** ** Intake of deliveries *)

Lemma new_delivery_complete s r :
  complete r -> exists x, new_delivery s r = inr x.
Proof.
  intros [Hla Hlo]; unfold new_delivery, item.
  destruct (q_lat r); [|congruence]; destruct (q_lon r); [|congruence].
  simpl; eauto.
Qed.

Lemma new_delivery_incomplete s r :
  ~ complete r -> new_delivery s r = inl KeyError.
Proof.
  intros H; unfold new_delivery, item, complete in *.
  destruct (q_lat r); [|reflexivity]; destruct (q_lon r); [|reflexivity].
  exfalso; apply H; split; discriminate.
Qed.

Lemma add_deliveries_complete reqs :
  Forall complete reqs ->
  forall s acc,
    exists added,
      add_deliveries s reqs acc = (intakes s reqs, inr (acc ++ added)) /\
      deliveries (intakes s reqs) = deliveries s ++ added /\
      map id added
      = map Z.of_nat (seq (List.length (deliveries s) + 1)
                        (List.length reqs)) /\
      Forall2 (fun r x =>
                 q_lat r = Some (lat x) /\ q_lon r = Some (lon x) /\
                 address x = get (q_address r) "Unknown"%string /\
                 assigned_driver x = None /\ eta_min x = None /\
                 route_coords x = None) reqs added.
Proof.
  induction 1 as [|r reqs Hr _ IH]; intros s acc.
  - exists []; simpl; rewrite !app_nil_r; auto.
  - destruct (new_delivery_complete s Hr) as [x Hx].
    assert (Hi : intakes s (r :: reqs) = intakes (append_delivery s x) reqs)
      by (unfold intakes; simpl; rewrite Hx; reflexivity).
    assert (Ha : add_deliveries s (r :: reqs) acc
                 = add_deliveries (append_delivery s x) reqs (acc ++ [x]))
      by (simpl; rewrite Hx; reflexivity).
    destruct (IH (append_delivery s x) (acc ++ [x]))
      as [added [Hadd [Hds [Hids Hf]]]].
    exists (x :: added).
    rewrite Hi, Ha, Hadd, Hds; simpl deliveries in *.
    rewrite <- !app_assoc; simpl.
    apply new_delivery_fields in Hx.
    destruct Hx as [Hid [Hla [Hlo [Had [Has [He Hro]]]]]].
    split; [reflexivity|]; split; [reflexivity|]; split.
    + rewrite Hid, Hids, length_app; simpl.
      replace (List.length (deliveries s) + 1)%nat
        with (S (List.length (deliveries s))) by lia.
      do 2 f_equal; [lia|].
      f_equal; lia.
    + constructor; auto 10.
Qed.

(** X5. A list of requests that all carry [lat] and [lon] is taken whole:
    the store ends as after taking them one by one, the answer is the list
    of the deliveries appended, numbered from the next free identifier,
    each with the position asked for, the address asked for or "Unknown",
    and no driver, ETA or route. *)
Theorem add_delivery_batch :
  forall s reqs,
    Forall complete reqs ->
    exists added,
      add_delivery s (Many reqs) = (intakes s reqs, inr added) /\
      deliveries (intakes s reqs) = deliveries s ++ added /\
      drivers (intakes s reqs) = drivers s /\
      map id added
      = map Z.of_nat (seq (List.length (deliveries s) + 1)
                        (List.length reqs)) /\
      Forall2 (fun r x =>
                 q_lat r = Some (lat x) /\ q_lon r = Some (lon x) /\
                 address x = get (q_address r) "Unknown"%string /\
                 assigned_driver x = None /\ eta_min x = None /\
                 route_coords x = None) reqs added.
Proof.
  intros s reqs Hc.
  destruct (add_deliveries_complete Hc s []) as [added [Hadd [Hds [Hids Hf]]]].
  exists added; simpl; repeat split; auto.
  rewrite <- (proj1 (add_delivery_keeps s (Many reqs))); simpl.
  rewrite Hadd; reflexivity.
Qed.

Lemma add_delivery_batch_witness :
  let reqs := [mkDeliveryRequest (Some 14.5555%Q) (Some 121.024%Q) None;
               mkDeliveryRequest (Some 14.56%Q) (Some 121.02%Q)
                 (Some "Ayala Avenue"%string)] in
  exists added,
    add_delivery initial_state (Many reqs)
      = (intakes initial_state reqs, inr added) /\
    deliveries (intakes initial_state reqs)
      = deliveries initial_state ++ added /\
    drivers (intakes initial_state reqs) = drivers initial_state /\
    map id added
    = map Z.of_nat (seq (List.length (deliveries initial_state) + 1)
                      (List.length reqs)) /\
    Forall2 (fun r x =>
               q_lat r = Some (lat x) /\ q_lon r = Some (lon x) /\
               address x = get (q_address r) "Unknown"%string /\
               assigned_driver x = None /\ eta_min x = None /\
               route_coords x = None) reqs added.
Proof.
  apply (@add_delivery_batch initial_state).
  repeat constructor; discriminate.
Defined.

(** X6. A request without [lat] or [lon] ends in a [KeyError].  Sent alone
    it leaves the store as it was; inside a list, the requests before it
    are already stored when the error is raised, and those after it are
    not looked at. *)
Theorem add_delivery_missing_key :
  forall s good bad rest,
    Forall complete good -> ~ complete bad ->
    add_delivery s (One bad) = (s, inl KeyError) /\
    add_delivery s (Many (good ++ bad :: rest))
      = (intakes s good, inl KeyError) /\
    List.length (deliveries (intakes s good))
      = (List.length (deliveries s) + List.length good)%nat.
Proof.
  intros s good bad rest Hg Hb; split; [|split].
  - simpl; rewrite (new_delivery_incomplete s Hb); reflexivity.
  - simpl; generalize (@nil Delivery) as acc; revert s.
    induction Hg as [|r good Hr _ IH]; intros s acc.
    + simpl; rewrite (new_delivery_incomplete s Hb); reflexivity.
    + destruct (new_delivery_complete s Hr) as [x Hx].
      assert (Hi : intakes s (r :: good)
                   = intakes (append_delivery s x) good)
        by (unfold intakes; simpl; rewrite Hx; reflexivity).
      rewrite Hi, <- (IH (append_delivery s x) (acc ++ [x])).
      simpl; rewrite Hx; reflexivity.
  - apply intakes_length; auto.
Qed.

Lemma add_delivery_missing_key_witness :
  let good := [mkDeliveryRequest (Some 14.5555%Q) (Some 121.024%Q) None] in
  let bad := mkDeliveryRequest (Some 14.56%Q) None None in
  let rest := [mkDeliveryRequest (Some 14.56%Q) (Some 121.02%Q) None] in
  add_delivery initial_state (One bad) = (initial_state, inl KeyError) /\
  add_delivery initial_state (Many (good ++ bad :: rest))
    = (intakes initial_state good, inl KeyError) /\
  List.length (deliveries (intakes initial_state good))
    = (List.length (deliveries initial_state) + List.length good)%nat.
Proof.
  apply (@add_delivery_missing_key initial_state).
  - repeat constructor; discriminate.
  - intros [_ H]; apply H; reflexivity.
Defined.

(** ** Registration of drivers *)

(** X7. In every state the service can reach the identifiers of the
    drivers are, in order, 1, 2, ... up to the number of drivers, all
    distinct; a driver registered next gets the number of drivers after
    its insertion as identifier, an identifier no driver has yet, and
    load 0. *)
Theorem driver_ids_consecutive :
  forall haversine G nearest_nodes shortest_path s,
    reachable haversine G nearest_nodes shortest_path s ->
    map d_id (drivers s)
      = map Z.of_nat (seq 1 (List.length (drivers s))) /\
    NoDup (map d_id (drivers s)) /\
    (forall d w, new_driver s d = inr w ->
       d_id w = Z.of_nat (List.length (drivers (append_driver s w))) /\
       ~ In (d_id w) (map d_id (drivers s)) /\
       current_load w = 0).
Proof.
  intros haversine G nn sp s Hs.
  apply reachable_Inv in Hs.
  pose proof (ids_by_position d_id (drivers s) (inv_drivers Hs)) as Hids.
  split; [exact Hids|]; split.
  - rewrite Hids; apply Injective_map_NoDup; [|apply seq_NoDup].
    intros a b; apply Nat2Z.inj.
  - intros d w Hw; apply new_driver_fields in Hw.
    destruct Hw as [Hid [_ [_ [_ [_ Hload]]]]].
    split; [|split; auto].
    + simpl; rewrite length_app, Hid; simpl; lia.
    + rewrite Hids, Hid; intros Hin.
      apply in_map_iff in Hin; destruct Hin as [n [E Hn]].
      apply in_seq in Hn; lia.
Qed.

Lemma driver_ids_consecutive_witness :
  let s := fst (add_driver initial_state
                  (One (mkDriverRequest None (Some "Dana"%string)
                          (Some 14.55%Q) (Some 121.02%Q)))) in
  map d_id (drivers s)
    = map Z.of_nat (seq 1 (List.length (drivers s))) /\
  NoDup (map d_id (drivers s)) /\
  (forall d w, new_driver s d = inr w ->
     d_id w = Z.of_nat (List.length (drivers (append_driver s w))) /\
     ~ In (d_id w) (map d_id (drivers s)) /\
     current_load w = 0).
Proof.
  apply (@driver_ids_consecutive Scenario.haversine Scenario.G
           Scenario.nearest_nodes Scenario.shortest_path).
  apply reach_add_driver, reach_init.
Defined.

(** ** The geofence endpoint *)

Lemma check_geofence_first (gfs : list Geofence) (la lo : Q) :
  forall r, check_geofence gfs la lo = inr r ->
    match r with
    | Some nm =>
        exists k gf,
          nth_error gfs k = Some gf /\ name gf = nm /\
          geofence_contains gf la lo = inr true /\
          forall j g, (j < k)%nat -> nth_error gfs j = Some g ->
            geofence_contains g la lo = inr false
    | None => forall g, In g gfs -> geofence_contains g la lo = inr false
    end.
Proof.
  induction gfs as [|gf gfs IH]; intros r H; simpl in H.
  - inversion H; intros g [].
  - apply bind_inr in H; destruct H as [[|] [Hc H]].
    + inversion H; subst.
      exists 0%nat, gf; repeat split; auto.
      intros j g Hj; lia.
    + specialize (IH _ H); destruct r as [nm|].
      * destruct IH as [k [g [Hk [Hn [Hg Hbefore]]]]].
        exists (S k), g; repeat split; auto.
        intros [|j] g' Hj Hg'; simpl in Hg'.
        -- inversion Hg'; subst; auto.
        -- apply (Hbefore j); auto; lia.
      * intros g [<-|Hin]; auto.
Qed.

(** X8. When the geofence endpoint answers, [inside_geofence] is true
    exactly when a name is returned; the name is that of the first geofence
    of the list whose polygon contains the point, every geofence before it
    not containing the point; and no name means that no polygon contains
    the point. *)
Theorem process_geofence_first_match :
  forall s la lo inside gf_name,
    process_geofence s la lo = inr (inside, gf_name) ->
    (inside = true <-> gf_name <> None) /\
    check_geofence (geofences s) la lo = inr gf_name /\
    match gf_name with
    | Some nm =>
        exists k gf,
          nth_error (geofences s) k = Some gf /\ name gf = nm /\
          geofence_contains gf la lo = inr true /\
          forall j g, (j < k)%nat -> nth_error (geofences s) j = Some g ->
            geofence_contains g la lo = inr false
    | None =>
        forall g, In g (geofences s) -> geofence_contains g la lo = inr false
    end.
Proof.
  intros s la lo inside gf_name H; unfold process_geofence in H.
  apply bind_inr in H; destruct H as [r [Hc H]].
  inversion H; subst; clear H.
  split; [|split; auto].
  - destruct gf_name; split; intros H; auto; try discriminate; congruence.
  - apply check_geofence_first; auto.
Qed.

Lemma process_geofence_first_match_witness :
  (true = true <-> Some "No-Go Zone Makati"%string <> None) /\
  check_geofence (geofences initial_state) 14.5555 121.024
    = inr (Some "No-Go Zone Makati"%string) /\
  exists k gf,
    nth_error (geofences initial_state) k = Some gf /\
    name gf = "No-Go Zone Makati"%string /\
    geofence_contains gf 14.5555 121.024 = inr true /\
    forall j g, (j < k)%nat ->
      nth_error (geofences initial_state) j = Some g ->
      geofence_contains g 14.5555 121.024 = inr false.
Proof.
  apply (@process_geofence_first_match initial_state 14.5555%Q 121.024%Q
           true (Some "No-Go Zone Makati"%string)).
  vm_compute; reflexivity.
Defined.

(** ** The geofence of the module *)

Module RectangleFacts.

Local Open Scope Q_scope.

Ltac decide_comparisons :=
  repeat (match goal with
          | |- context [Shapely.Qlt_bool ?a ?b] =>
              destruct (ShapelyFacts.Qlt_bool_spec a b); try (exfalso; lra)
          | |- context [Qle_bool ?a ?b] =>
              destruct (ShapelyFacts.Qle_bool_spec a b); try (exfalso; lra)
          | |- context [Qeq_bool ?a ?b] =>
              destruct (ShapelyFacts.Qeq_bool_spec a b); try (exfalso; lra)
          | |- context [Qcompare ?a ?b] =>
              destruct (Qcompare_spec a b); try (exfalso; nra)
          end;
          cbn [andb orb negb CompOpp Shapely.isPointOnSegment
                 Shapely.crossingCount Shapely.on_segment_seen]).

(** The ring of a rectangle with sides along the axes contains the points
    strictly between its sides. *)
Lemma rectangle_inside (a1 a2 c1 c2 x y : Q) :
  a1 < x -> x < a2 -> c1 < y -> y < c2 ->
  Shapely.contains [(a1, c1); (a2, c1); (a2, c2); (a1, c2); (a1, c1)] (x, y)
  = true.
Proof.
  intros H1 H2 H3 H4.
  unfold Shapely.contains, Shapely.locate.
  cbn [Shapely.segments fold_left].
  unfold Shapely.countSegment, Shapely.orientation_index.
  cbn [fst snd].
  decide_comparisons; reflexivity.
Qed.

(** It contains no other point. *)
Lemma rectangle_outside (a1 a2 c1 c2 x y : Q) :
  a1 < a2 -> c1 < c2 ->
  x <= a1 \/ a2 <= x \/ y <= c1 \/ c2 <= y ->
  Shapely.contains [(a1, c1); (a2, c1); (a2, c2); (a1, c2); (a1, c1)] (x, y)
  = false.
Proof.
  intros Ha Hc H.
  assert (H' : x <= a1 \/ a2 <= x \/
               (a1 < x /\ x < a2 /\ y <= c1) \/
               (a1 < x /\ x < a2 /\ c2 <= y)).
  { destruct (Qlt_le_dec a1 x); [|auto].
    destruct (Qlt_le_dec x a2); [|auto].
    destruct H as [H|[H|[H|H]]]; auto 6; lra. }
  clear H.
  unfold Shapely.contains, Shapely.locate.
  cbn [Shapely.segments fold_left].
  unfold Shapely.countSegment, Shapely.orientation_index.
  cbn [fst snd].
  destruct H' as [H|[H|[[H1 [H2 H]]|[H1 [H2 H]]]]];
    decide_comparisons; reflexivity.
Qed.

Lemma no_go_ring :
  Shapely.Polygon
    [ (14.555, 121.023); (14.556, 121.023);
      (14.556, 121.025); (14.555, 121.025) ]
  = inr [ (14.555, 121.023); (14.556, 121.023);
          (14.556, 121.025); (14.555, 121.025); (14.555, 121.023) ].
Proof. vm_compute; reflexivity. Qed.

Lemma no_go_zone (la lo : Q) :
  (inside_no_go la lo ->
   check_geofence initial_geofences la lo
   = inr (Some "No-Go Zone Makati"%string)) /\
  (~ inside_no_go la lo -> check_geofence initial_geofences la lo = inr None).
Proof.
  unfold initial_geofences; cbn [check_geofence].
  unfold geofence_contains; cbn [polygon name].
  rewrite no_go_ring; unfold bind, ret, Shapely.Point; split.
  - intros [H1 [H2 [H3 H4]]].
    rewrite rectangle_inside; auto.
  - intros Hout; rewrite rectangle_outside; auto.
    + reflexivity.
    + reflexivity.
    + unfold inside_no_go in Hout.
      destruct (Qlt_le_dec 14.555 la); [|auto].
      destruct (Qlt_le_dec la 14.556); [|auto].
      destruct (Qlt_le_dec 121.023 lo); [|auto].
      destruct (Qlt_le_dec lo 121.025); [|auto].
      exfalso; apply Hout; auto.
Qed.

End RectangleFacts.

(** X9. In every state the service can reach, [check_geofence] answers
    "No-Go Zone Makati" for exactly the points strictly inside the rectangle
    14.555 < lat < 14.556, 121.023 < lon < 121.025, and [None] for every
    other point, the four sides and corners included; it never raises. *)
Theorem no_go_zone_is_the_open_rectangle :
  forall haversine G nearest_nodes shortest_path s la lo,
    reachable haversine G nearest_nodes shortest_path s ->
    (inside_no_go la lo ->
     check_geofence (geofences s) la lo
     = inr (Some "No-Go Zone Makati"%string)) /\
    (~ inside_no_go la lo -> check_geofence (geofences s) la lo = inr None).
Proof.
  intros haversine G nn sp s la lo Hs.
  apply reachable_Inv in Hs; rewrite (inv_geofences Hs).
  apply RectangleFacts.no_go_zone.
Qed.

Lemma no_go_zone_is_the_open_rectangle_witness :
  let s := fst (add_driver initial_state
                  (One (mkDriverRequest None (Some "Dana"%string)
                          (Some 14.55%Q) (Some 121.02%Q)))) in
  (inside_no_go 14.5555 121.024 ->
   check_geofence (geofences s) 14.5555 121.024
   = inr (Some "No-Go Zone Makati"%string)) /\
  (~ inside_no_go 14.5555 121.024 ->
   check_geofence (geofences s) 14.5555 121.024 = inr None).
Proof.
  apply (@no_go_zone_is_the_open_rectangle Scenario.haversine Scenario.G
           Scenario.nearest_nodes Scenario.shortest_path).
  apply reach_add_driver, reach_init.
Defined.

(** ** Routes *)







(** ** The route of [tempCodeRunnerFile.py] *)





(** ** An empty driver store *)

Section NoDriver.

Variable haversine : coord -> coord -> Q.
Variable G : Graph.
Variable nearest_nodes : Graph -> Q -> Q -> result node.
Variable shortest_path : Graph -> node -> node -> result (list node).

Lemma loop_without_drivers gfs ds :
  geofences_wf gfs ->
  forall st, l_drivers st = [] ->
    exists st',
      assign_loop haversine G nearest_nodes shortest_path gfs st ds
      = (st', ds,
         if existsb (fun d => negb (skipped gfs d)) ds
         then Some ValueError else None) /\
      l_drivers st' = [] /\ l_response st' = l_response st.
Proof.
  intros Hg; induction ds as [|d ds IH]; intros st Hd; simpl.
  - eauto.
  - rewrite assign_body_unfold; unfold skipped.
    destruct (check_geofence_total (lat d) (lon d) Hg) as [r [Hc _]].
    rewrite Hc.
    destruct (Py.truthy_int (assigned_driver d)); simpl.
    + destruct (IH st Hd) as [st' [Hl [Hd' Hr]]]; rewrite Hl; eauto.
    + destruct (Py.truthy_str r); simpl.
      * destruct (IH (mkLoop (l_drivers st)
                        (l_log st ++ [LogGeofenceSkip (id d)])
                        (l_response st)) Hd) as [st' [Hl [Hd' Hr]]].
        rewrite Hl; eauto.
      * rewrite Hd; simpl; eauto.
Qed.

End NoDriver.

(** X13. With an empty driver store (and geofences that can be checked),
    [assign_all] changes neither the drivers nor the deliveries; it raises
    the [ValueError] of [min] on an empty list as soon as a delivery without
    driver lies outside every geofence, and answers with an empty response
    when there is no such delivery. *)
Theorem assign_all_without_drivers :
  forall haversine G nearest_nodes shortest_path s,
    drivers s = [] -> geofences_wf (geofences s) ->
    let r := assign_all haversine G nearest_nodes shortest_path s in
    drivers (fst r) = [] /\
    deliveries (fst r) = deliveries s /\
    snd r = if existsb (fun d => negb (skipped (geofences s) d))
                 (deliveries s)
            then inl ValueError else inr [].
Proof.
  intros haversine G nn sp s Hd Hg; unfold assign_all.
  destruct (loop_without_drivers haversine G nn sp (deliveries s) Hg
              (mkLoop (drivers s) (activity_log s) []) Hd)
    as [st' [Hl [Hd' Hr]]].
  rewrite Hl; simpl; repeat split; auto.
  destruct (existsb _ _); simpl; [reflexivity|].
  unfold ret; rewrite Hr; reflexivity.
Qed.

Lemma assign_all_without_drivers_witness :
  let s := mkState [] [Scenario.job_makati; Scenario.job_outside]
             initial_geofences [] in
  let r := assign_all Scenario.haversine Scenario.G Scenario.nearest_nodes
             Scenario.shortest_path s in
  drivers (fst r) = [] /\
  deliveries (fst r) = deliveries s /\
  snd r = if existsb (fun d => negb (skipped (geofences s) d))
               (deliveries s)
          then inl ValueError else inr [].
Proof.
  apply (@assign_all_without_drivers Scenario.haversine Scenario.G
           Scenario.nearest_nodes Scenario.shortest_path
           (mkState [] [Scenario.job_makati; Scenario.job_outside]
              initial_geofences [])).
  - reflexivity.
  - apply initial_geofences_wf.
Defined.

(** ** The route stored with a delivery *)

Lemma route_recorded_mono route drv drv' d :
  (forall x, In x drv ->
     exists x', In x' drv' /\ d_id x' = d_id x /\
                d_lat x' = d_lat x /\ d_lon x' = d_lon x) ->
  route_recorded route drv d -> route_recorded route drv' d.
Proof.
  unfold route_recorded; intros Hm.
  destruct (assigned_driver d) as [w|]; auto.
  intros [x [Hx [Hid [Hr He]]]].
  destruct (Hm x Hx) as [x' [Hx' [Hid' [Hla Hlo]]]].
  exists x'; rewrite Hla, Hlo; repeat split; auto; congruence.
Qed.

Section RouteRecorded.

Variable haversine : coord -> coord -> Q.
Variable G : Graph.
Variable nearest_nodes : Graph -> Q -> Q -> result node.
Variable shortest_path : Graph -> node -> node -> result (list node).

Local Abbreviation route :=
  (suggest_route G nearest_nodes shortest_path).
Local Abbreviation recorded := (route_recorded route).

Lemma body_records gfs st done d rest st' d' :
  Forall (recorded (l_drivers st)) (done ++ d :: rest) ->
  assign_body haversine G nearest_nodes shortest_path gfs st d
    = inr (st', d') ->
  Forall (recorded (l_drivers st')) ((done ++ [d']) ++ rest).
Proof.
  intros HF Hb; rewrite <- app_assoc; simpl.
  rewrite assign_body_unfold in Hb.
  destruct (Py.truthy_int (assigned_driver d)).
  { inversion Hb; subst; auto. }
  destruct (check_geofence gfs (lat d) (lon d)) as [e|gf]; [discriminate|].
  destruct (Py.truthy_str gf).
  { inversion Hb; subst; auto. }
  destruct (Py.min_by (score haversine d) (l_drivers st))
    as [e|[i best]] eqn:Hm; [discriminate|].
  simpl in Hb; inversion Hb; subst; clear Hb; simpl.
  apply PyFacts.min_by_spec in Hm; destruct Hm as [Hi _].
  assert (Hlt : (i < List.length (l_drivers st))%nat)
    by (apply nth_error_Some; congruence).
  assert (Hnew : In (increment_load best)
                   (update_nth i (increment_load best) (l_drivers st))).
  { eapply nth_error_In; apply nth_error_update_nth_eq; auto. }
  assert (Hm : forall x, In x (l_drivers st) ->
             exists x', In x' (update_nth i (increment_load best)
                                 (l_drivers st)) /\
                        d_id x' = d_id x /\
                        d_lat x' = d_lat x /\ d_lon x' = d_lon x).
  { intros x Hx; apply In_nth_error in Hx; destruct Hx as [k Hk].
    destruct (Nat.eq_dec k i) as [->|Hne].
    - assert (x = best) by congruence; subst x.
      exists (increment_load best); auto.
    - exists x; repeat split; auto.
      eapply nth_error_In; rewrite nth_error_update_nth_ne; eauto. }
  apply Forall_app in HF; destruct HF as [Hdone Hrest].
  inversion Hrest as [|? ? _ Hrest']; subst.
  apply Forall_app; split; [|constructor].
  - eapply Forall_impl; [|exact Hdone].
    intros a; apply route_recorded_mono; auto.
  - unfold route_recorded; simpl.
    exists (increment_load best); repeat split; auto.
  - eapply Forall_impl; [|exact Hrest'].
    intros a; apply route_recorded_mono; auto.
Qed.

Lemma run_records s :
  Forall (recorded (drivers s)) (deliveries s) ->
  let s' := fst (assign_all haversine G nearest_nodes shortest_path s) in
  Forall (recorded (drivers s')) (deliveries s').
Proof.
  intros HF; unfold assign_all.
  destruct (assign_loop _ _ _ _ _ _ _) as [[st ds] e] eqn:Hl; simpl.
  destruct (@loop_invariant haversine G nearest_nodes shortest_path
              (geofences s)
              (fun st done rest =>
                 Forall (recorded (l_drivers st)) (done ++ rest))
              (fun st done d rest st' d' HI Hb =>
                 @body_records (geofences s) st done d rest st' d' HI Hb)
              (deliveries s) [] (mkLoop (drivers s) (activity_log s) [])
              st ds e HF Hl)
    as [handled [rest [-> [H _]]]].
  exact H.
Qed.

Lemma reachable_records s :
  reachable haversine G nearest_nodes shortest_path s ->
  Forall (recorded (drivers s)) (deliveries s).
Proof.
  induction 1.
  - constructor.
  - apply (add_delivery_preserves
             (fun s => Forall (recorded (drivers s)) (deliveries s))); auto.
    intros s0 d x HF Hx; simpl.
    apply Forall_app; split; auto; constructor; auto.
    apply new_delivery_fields in Hx.
    destruct Hx as [_ [_ [_ [_ [Ha [He Hr]]]]]].
    unfold route_recorded; rewrite Ha; auto.
  - apply (add_driver_preserves
             (fun s => Forall (recorded (drivers s)) (deliveries s))); auto.
    intros s0 d w HF _; simpl.
    eapply Forall_impl; [|exact HF].
    intros a; apply route_recorded_mono.
    intros x Hx; exists x; repeat split; auto.
    apply in_or_app; auto.
  - apply run_records; auto.
Qed.

End RouteRecorded.

(** X14. In every state the service can reach, a delivery without driver
    has neither ETA nor route, and a delivery with a driver stores exactly
    the route and the ETA that [suggest_route] gives from the position of
    that driver to the position of the delivery. *)
Theorem stored_route_is_the_suggested_route :
  forall haversine G nearest_nodes shortest_path s d,
    reachable haversine G nearest_nodes shortest_path s ->
    In d (deliveries s) ->
    route_recorded (suggest_route G nearest_nodes shortest_path)
      (drivers s) d.
Proof.
  intros haversine G nn sp s d Hs Hd.
  pose proof (reachable_records Hs) as HF.
  rewrite Forall_forall in HF; auto.
Qed.

Lemma stored_route_is_the_suggested_route_witness :
  let s := fst (assign_all Scenario.haversine Scenario.G
                  Scenario.nearest_nodes Scenario.shortest_path
                  (fst (add_delivery initial_state
                          (One (mkDeliveryRequest (Some 14.56%Q)
                                  (Some 121.02%Q) None))))) in
  route_recorded
    (suggest_route Scenario.G Scenario.nearest_nodes Scenario.shortest_path)
    (drivers s) (nth 0 (deliveries s) Scenario.job_makati).
Proof.
  apply (@stored_route_is_the_suggested_route Scenario.haversine Scenario.G
           Scenario.nearest_nodes Scenario.shortest_path).
  - apply reach_assign_all, reach_add_delivery, reach_init.
  - vm_compute; left; reflexivity.
Defined.

(** ** Clusters *)

Lemma append_at_spec (x : Delivery) (clusters : list (nat * list Delivery))
    (label : nat) :
  In label (map fst clusters) ->
  exists clusters',
    append_at clusters label x = inr clusters' /\
    map fst clusters' = map fst clusters /\
    Permutation (members clusters') (x :: members clusters) /\
    (exists ms, In (label, ms) clusters' /\ In x ms) /\
    (forall l ms, In (l, ms) clusters ->
       exists ms', In (l, ms') clusters' /\ incl ms ms').
Proof.
  induction clusters as [|[k ms] rest IH]; simpl; [intros []|].
  intros Hin; destruct (Nat.eqb_spec k label) as [->|Hne].
  - eexists; split; [reflexivity|]; simpl; split; [reflexivity|].
    unfold members; simpl; split; [|split].
    + rewrite <- app_assoc; simpl.
      apply Permutation_sym, Permutation_middle.
    + exists (ms ++ [x]); split; auto.
      apply in_or_app; right; left; reflexivity.
    + intros l ms0 [E|Hl].
      * inversion E; subst; exists (ms0 ++ [x]); split; auto.
        apply incl_appl, incl_refl.
      * exists ms0; split; auto; apply incl_refl.
  - destruct Hin as [E|Hin]; [congruence|].
    destruct (IH Hin) as [rest' [Hr [Hk [Hp [[ms1 [H1 H1x]] Hmono]]]]].
    rewrite Hr; simpl.
    eexists; split; [reflexivity|]; simpl; split; [congruence|].
    unfold members in *; simpl; split; [|split].
    + rewrite Hp; apply Permutation_sym, Permutation_middle.
    + exists ms1; auto.
    + intros l ms0 [E|Hl].
      * inversion E; subst; exists ms0; split; auto; apply incl_refl.
      * destruct (Hmono _ _ Hl) as [ms' [Hin' Hinc]]; eauto.
Qed.

Lemma existsb_key (clusters : list (nat * list Delivery)) (label : nat) :
  existsb (fun c => (fst c =? label)%nat) clusters = true <->
  In label (map fst clusters).
Proof.
  rewrite existsb_exists, in_map_iff; split.
  - intros [c [Hc E]]; apply Nat.eqb_eq in E; eauto.
  - intros [c [E Hc]]; exists c; split; auto; apply Nat.eqb_eq; auto.
Qed.

Lemma fill_clusters_spec (ds : list Delivery) (k : nat) (labels : list nat) :
  Forall (fun l => (l < k)%nat) labels ->
  forall idx clusters,
    map fst clusters = seq 0 k ->
    (idx + List.length labels <= List.length ds)%nat ->
    exists clusters',
      fill_clusters ds clusters idx labels = inr clusters' /\
      map fst clusters' = seq 0 k /\
      Permutation (members clusters')
        (members clusters ++ firstn (List.length labels) (skipn idx ds)) /\
      (forall l ms, In (l, ms) clusters ->
         exists ms', In (l, ms') clusters' /\ incl ms ms') /\
      (forall j label d,
         nth_error labels j = Some label ->
         nth_error ds (idx + j) = Some d ->
         exists ms, In (label, ms) clusters' /\ In d ms).
Proof.
  induction 1 as [|label labels Hl _ IH]; intros idx clusters Hk Hlen.
  - exists clusters; simpl; rewrite app_nil_r; repeat split; auto.
    + intros l ms Hin; exists ms; split; auto; apply incl_refl.
    + intros [|j]; discriminate.
  - simpl in Hlen; simpl fill_clusters.
    assert (Hin : In label (map fst clusters))
      by (rewrite Hk; apply in_seq; lia).
    rewrite (proj2 (existsb_key clusters label) Hin).
    destruct (nth_error ds idx) as [x|] eqn:Hx;
      [|apply nth_error_None in Hx; lia].
    destruct (@append_at_spec x clusters label Hin)
      as [c1 [Hc1 [Hk1 [Hp1 [[ms1 [Hm1 Hx1]] Hmono1]]]]].
    rewrite Hc1; simpl.
    destruct (IH (S idx) c1) as [c2 [Hc2 [Hk2 [Hp2 [Hmono2 Hmem2]]]]];
      [congruence|lia|].
    exists c2; split; auto; split; auto; split; [|split].
    + rewrite Hp2, Hp1.
      assert (E : skipn idx ds = x :: skipn (S idx) ds).
      { clear - Hx; revert idx Hx; induction ds as [|a ds IH];
          intros [|idx] Hx; simpl in *; try discriminate.
        - inversion Hx; reflexivity.
        - rewrite (IH _ Hx); reflexivity. }
      rewrite E; simpl; apply Permutation_middle.
    + intros l ms Hlms.
      destruct (Hmono1 _ _ Hlms) as [ms' [H' Hi']].
      destruct (Hmono2 _ _ H') as [ms'' [H'' Hi'']].
      exists ms''; split; auto; eapply incl_tran; eauto.
    + intros [|j] lab d Hj Hd; simpl in Hj.
      * inversion Hj; subst lab.
        rewrite Nat.add_0_r, Hx in Hd; inversion Hd; subst d.
        destruct (Hmono2 _ _ Hm1) as [ms' [H' Hi']].
        exists ms'; split; auto.
      * apply (Hmem2 j); auto.
        replace (S idx + j)%nat with (idx + S j)%nat by lia; auto.
Qed.

(** X12. With at least two deliveries, when the fit returns one label per
    delivery, each below the number [k] of clusters, [cluster_deliveries]
    returns the clusters 0 to [k - 1] in order, every delivery in exactly
    one of them (the members of the clusters are a permutation of the
    deliveries), namely in the cluster of its label. *)
Theorem cluster_deliveries_partition :
  forall fit ds k labels,
    (2 <= List.length ds)%nat ->
    fit k (map (fun d => (lat d, lon d)) ds) = inr labels ->
    labels_ok k (List.length ds) labels ->
    exists clusters,
      cluster_deliveries fit ds k = inr clusters /\
      map fst clusters = seq 0 k /\
      Permutation (members clusters) ds /\
      (forall j label d,
         nth_error labels j = Some label -> nth_error ds j = Some d ->
         exists ms, In (label, ms) clusters /\ In d ms).
Proof.
  intros fit ds k labels H2 Hfit [Hlen Hlt].
  unfold cluster_deliveries.
  destruct (Nat.leb_spec (List.length ds) 1); [lia|].
  rewrite Hfit; simpl.
  assert (Hkeys : map fst (map (fun i : nat => (i, @nil Delivery)) (seq 0 k))
                  = seq 0 k)
    by (rewrite map_map; simpl; apply map_id).
  assert (Hfits : (0 + List.length labels <= List.length ds)%nat) by lia.
  destruct (@fill_clusters_spec ds k labels Hlt 0%nat _ Hkeys Hfits)
    as [clusters [Hc [Hk [Hp [_ Hmem]]]]].
  exists clusters; split; auto; split; auto; split; auto.
  rewrite Hp, Hlen; simpl; rewrite firstn_all.
  assert (E : forall l : list nat,
            members (map (fun i : nat => (i, @nil Delivery)) l) = []).
  { induction l as [|a l IHl]; [reflexivity|exact IHl]. }
  rewrite E; reflexivity.
Qed.

Lemma cluster_deliveries_partition_witness :
  let ds := [Scenario.job_makati; Scenario.job_outside] in
  exists clusters,
    cluster_deliveries Scenario.KMeans_fit ds 2 = inr clusters /\
    map fst clusters = seq 0 2 /\
    Permutation (members clusters) ds /\
    (forall j label d,
       nth_error [0%nat; 0%nat] j = Some label -> nth_error ds j = Some d ->
       exists ms, In (label, ms) clusters /\ In d ms).
Proof.
  apply (@cluster_deliveries_partition Scenario.KMeans_fit
           [Scenario.job_makati; Scenario.job_outside] 2 [0%nat; 0%nat]).
  - simpl; lia.
  - reflexivity.
  - split; [reflexivity|repeat constructor].
Defined.
